(** * meshmagick: the [Mesh] class of [meshmagick/mesh.py]

    A shallow embedding of the mesh kernel: the vertex and face arrays, the
    [__internals__] dictionary of cached aggregates, and the methods that read,
    fill and invalidate it.

    Modelling conventions.
    - NumPy [float] entries are idealised as real numbers ([R]); a division by
      zero is the total division of [R], so NaN propagation is not modelled.
    - A row of the [(nv, 3)] vertex array is a [vec]; a row of the [(nf, 4)]
      face array is a [face]; vertex and face indices are natural numbers.
    - [__internals__] is a Python [dict] keyed by strings: a [gmap string value].
    - A method is a function [Mesh -> result A * Mesh]: the object survives an
      exception in the state it had when the exception was raised.
    - Console output ([print], [warn]) is not observable in the model. *)

From Stdlib Require Import Reals Lra Lia.
From stdpp Require Import gmap strings list fin_maps pretty sorting.

Local Open Scope R_scope.

(** ** Exceptions and results *)

(** The exceptions of Python that the modelled code can raise, and
    [OutOfFuel], which is not one of them: it marks the exhaustion of the
    bound given to the one loop of the model that is not structural. *)
Inductive error :=
| AssertionError
| IndexError
| KeyError
| ValueError
| TypeError
| RuntimeError (msg : string)
| OutOfFuel.

Inductive result (A : Type) :=
| Ok (a : A)
| Err (e : error).
Arguments Ok {A} a.
Arguments Err {A} e.

Definition rbind {A B} (r : result A) (k : A -> result B) : result B :=
  match r with
  | Ok a => k a
  | Err e => Err e
  end.

Notation "x <~ c ; k" := (rbind c (fun x => k))
  (at level 20, c at level 100, k at level 200, only parsing).
Notation "' p <~ c ; k" := (rbind c (fun x => let 'p := x in k))
  (at level 20, p pattern, c at level 100, k at level 200, only parsing).

Definition of_option {A} (e : error) (o : option A) : result A :=
  match o with
  | Some a => Ok a
  | None => Err e
  end.

Fixpoint rmapM {A B} (f : A -> result B) (l : list A) : result (list B) :=
  match l with
  | [] => Ok []
  | a :: l' => b <~ f a ; bs <~ rmapM f l' ; Ok (b :: bs)
  end.

(** ** Points and the rows of the arrays *)

Record vec := mkvec { vx : R; vy : R; vz : R }.

Definition vzero : vec := mkvec 0 0 0.
Definition vadd (a b : vec) : vec := mkvec (vx a + vx b) (vy a + vy b) (vz a + vz b).
Definition vsub (a b : vec) : vec := mkvec (vx a - vx b) (vy a - vy b) (vz a - vz b).
Definition vmul (a b : vec) : vec := mkvec (vx a * vx b) (vy a * vy b) (vz a * vz b).
Definition vscale (k : R) (a : vec) : vec := mkvec (k * vx a) (k * vy a) (k * vz a).
Definition vdiv (a : vec) (k : R) : vec := mkvec (vx a / k) (vy a / k) (vz a / k).
Definition vopp (a : vec) : vec := mkvec (- vx a) (- vy a) (- vz a).
Definition dot (a b : vec) : R := vx a * vx b + vy a * vy b + vz a * vz b.

(** [np.cross] on rows. *)
Definition cross (a b : vec) : vec :=
  mkvec (vy a * vz b - vz a * vy b)
        (vz a * vx b - vx a * vz b)
        (vx a * vy b - vy a * vx b).

(** [np.linalg.norm] on rows. *)
Definition norm (a : vec) : R := sqrt (vx a * vx a + vy a * vy a + vz a * vz a).

Record face := mkface { f0 : nat; f1 : nat; f2 : nat; f3 : nat }.

Definition face_list (f : face) : list nat := [f0 f; f1 f; f2 f; f3 f].

(** [np.fliplr] on one row, also [np.flipud] on a row taken alone. *)
Definition flip_face (f : face) : face := mkface (f3 f) (f2 f) (f1 f) (f0 f).

(** The test [face[0] == face[-1]]. *)
Definition is_tri (f : face) : bool := bool_decide (f0 f = f3 f).

(** ** Array helpers *)

Definition sum_R (l : list R) : R := foldr Rplus 0 l.

(** [np.where(mask)[0]]. *)
Definition np_where (mask : list bool) : list nat :=
  filter (fun i => mask !! i = Some true) (seq 0 (length mask)).

(** [arr[i]] for one index. *)
Definition item {A} (arr : list A) (i : nat) : result A :=
  of_option IndexError (arr !! i).

(** [arr[ids]] (fancy indexing, a copy). *)
Definition take_ids {A} (arr : list A) (ids : list nat) : result (list A) :=
  rmapM (item arr) ids.

(** [arr[i] = x] for one index. *)
Definition set_item {A} (arr : list A) (i : nat) (x : A) : result (list A) :=
  if decide (i < length arr)%nat then Ok (<[i := x]> arr) else Err IndexError.

(** [arr[ids] = vals] with [vals] of the same length as [ids]. *)
Fixpoint put_ids {A} (arr : list A) (ids : list nat) (vals : list A)
  : result (list A) :=
  match ids, vals with
  | [], [] => Ok arr
  | i :: ids', x :: vals' => arr' <~ set_item arr i x ; put_ids arr' ids' vals'
  | _, _ => Err ValueError
  end.

(** ** The cache and the mesh object *)

Inductive value :=
| VFloats (a : list R)
| VPoints (a : list vec)
| VIds (a : list nat)
| VAdj (d : gmap nat (gset nat))
| VLoops (l : list (list nat))
| VTable (rows : list (list R)).

Record Mesh := mkMesh {
  _vertices : list vec;
  _faces : list face;
  _id : nat;
  _name : string;
  _verbose : bool;
  __internals__ : gmap string value
}.

Definition with_vertices (v : list vec) (m : Mesh) : Mesh :=
  mkMesh v (_faces m) (_id m) (_name m) (_verbose m) (__internals__ m).
Definition with_faces (f : list face) (m : Mesh) : Mesh :=
  mkMesh (_vertices m) f (_id m) (_name m) (_verbose m) (__internals__ m).
Definition with_name (n : string) (m : Mesh) : Mesh :=
  mkMesh (_vertices m) (_faces m) (_id m) n (_verbose m) (__internals__ m).
Definition with_verbose (b : bool) (m : Mesh) : Mesh :=
  mkMesh (_vertices m) (_faces m) (_id m) (_name m) b (__internals__ m).
Definition with_internals (c : gmap string value) (m : Mesh) : Mesh :=
  mkMesh (_vertices m) (_faces m) (_id m) (_name m) (_verbose m) c.

(** [Mesh(vertices, faces, name)]; [next_id] is the value drawn from the
    class-wide counter [_ids].  The two shape assertions hold by typing. *)
Definition Mesh_init (vertices : list vec) (faces : list face)
    (name : option string) (next_id : nat) : Mesh :=
  mkMesh vertices faces next_id
         (match name with
          | Some n => n
          | None => "mesh_" +:+ pretty next_id
          end)
         false ∅.

(** ** Methods as state transformers that may raise *)

Definition M (A : Type) : Type := Mesh -> result A * Mesh.

Definition ret {A} (a : A) : M A := fun m => (Ok a, m).
Definition raise {A} (e : error) : M A := fun m => (Err e, m).
Definition bind {A B} (c : M A) (k : A -> M B) : M B :=
  fun m => match c m with
           | (Ok a, m') => k a m'
           | (Err e, m') => (Err e, m')
           end.
Definition lift {A} (r : result A) : M A := fun m => (r, m).
Definition get {A} (proj : Mesh -> A) : M A := fun m => (Ok (proj m), m).
Definition modify (f : Mesh -> Mesh) : M unit := fun m => (Ok tt, f m).

Notation "x <- c ; k" := (bind c (fun x => k))
  (at level 20, c at level 100, k at level 200, only parsing).
Notation "' p <- c ; k" := (bind c (fun x => let 'p := x in k))
  (at level 20, p pattern, c at level 100, k at level 200, only parsing).

Definition when (b : bool) (c : M unit) : M unit := if b then c else ret tt.

(** [for x in l: body x]. *)
Fixpoint for_each {A} (l : list A) (body : A -> M unit) : M unit :=
  match l with
  | [] => ret tt
  | a :: l' => _ <- body a ; for_each l' body
  end.

(** [k in self.__internals__] *)
Definition has_key (k : string) : M bool :=
  get (fun m => bool_decide (is_Some (__internals__ m !! k))).

(** [self.__internals__[k]] *)
Definition read_key (k : string) : M value :=
  c <- get __internals__ ; lift (of_option KeyError (c !! k)).

(** [self.__internals__[k] = v] *)
Definition write_key (k : string) (v : value) : M unit :=
  modify (fun m => with_internals (<[k := v]> (__internals__ m)) m).

(** [del self.__internals__[k]] *)
Definition del_key (k : string) : M unit :=
  b <- has_key k ;
  if b then modify (fun m => with_internals (delete k (__internals__ m)) m)
  else raise KeyError.

(** [self.__internals__.clear()] *)
Definition clear_internals : M unit := modify (with_internals ∅).

Definition as_floats (v : value) : M (list R) :=
  match v with VFloats a => ret a | _ => raise TypeError end.
Definition as_points (v : value) : M (list vec) :=
  match v with VPoints a => ret a | _ => raise TypeError end.
Definition as_ids (v : value) : M (list nat) :=
  match v with VIds a => ret a | _ => raise TypeError end.
Definition as_adj (v : value) : M (gmap nat (gset nat)) :=
  match v with VAdj d => ret d | _ => raise TypeError end.
Definition as_loops (v : value) : M (list (list nat)) :=
  match v with VLoops l => ret l | _ => raise TypeError end.
Definition as_table (v : value) : M (list (list R)) :=
  match v with VTable t => ret t | _ => raise TypeError end.

(** ** Sizes and the array setters *)

Definition nb_vertices : M nat := get (fun m => length (_vertices m)).
Definition nb_faces : M nat := get (fun m => length (_faces m)).

(** The [vertices] property setter. *)
Definition set_vertices (value : list vec) : M unit :=
  _ <- modify (with_vertices value) ; clear_internals.

(** The [faces] property setter. *)
Definition set_faces (value : list face) : M unit :=
  _ <- modify (with_faces value) ; clear_internals.

(** ** Face classification *)

Definition _triangles_quadrangles : M unit :=
  faces <- get _faces ;
  let triangle_mask := map is_tri faces in
  let quadrangles_mask := map negb triangle_mask in
  _ <- write_key "triangles_ids" (VIds (np_where triangle_mask)) ;
  write_key "quadrangles_ids" (VIds (np_where quadrangles_mask)).

Definition _has_triangles_quadrangles : M bool := has_key "triangles_ids".

Definition _remove_triangles_quadrangles : M unit :=
  b <- has_key "triangles_ids" ;
  when b (_ <- del_key "triangles_ids" ; del_key "quadrangles_ids").

Definition triangles_ids : M (list nat) :=
  b <- has_key "triangles_ids" ;
  _ <- when (negb b) _triangles_quadrangles ;
  v <- read_key "triangles_ids" ; as_ids v.

Definition nb_triangles : M nat :=
  b <- has_key "triangles_ids" ;
  _ <- when (negb b) _triangles_quadrangles ;
  v <- read_key "triangles_ids" ; ids <- as_ids v ; ret (length ids).

Definition quadrangles_ids : M (list nat) :=
  b <- has_key "triangles_ids" ;
  _ <- when (negb b) _triangles_quadrangles ;
  v <- read_key "quadrangles_ids" ; as_ids v.

Definition nb_quadrangles : M nat :=
  b <- has_key "triangles_ids" ;
  _ <- when (negb b) _triangles_quadrangles ;
  v <- read_key "quadrangles_ids" ; ids <- as_ids v ; ret (length ids).

(** ** Face geometry *)

Definition tri_points (V : list vec) (f : face) : result (vec * vec * vec) :=
  v0 <~ item V (f0 f) ; v1 <~ item V (f1 f) ; v2 <~ item V (f2 f) ;
  Ok (v0, v1, v2).

Definition quad_points (V : list vec) (f : face)
  : result (vec * vec * vec * vec) :=
  v0 <~ item V (f0 f) ; v1 <~ item V (f1 f) ; v2 <~ item V (f2 f) ;
  v3 <~ item V (f3 f) ;
  Ok (v0, v1, v2, v3).

Definition _has_faces_properties : M bool := has_key "faces_areas".
Definition has_surface_integrals : M bool := has_key "surface_integrals".

Definition _faces_properties : M unit :=
  nf <- nb_faces ;
  V <- get _vertices ;
  F <- get _faces ;
  let faces_areas := replicate nf 0 in
  let faces_normals := replicate nf vzero in
  let faces_centers := replicate nf vzero in
  (* Collectively dealing with triangles *)
  triangles_id <- triangles_ids ;
  triangles <- lift (take_ids F triangles_id) ;
  tp <- lift (rmapM (tri_points V) triangles) ;
  let triangles_normals :=
    map (fun '(v0, v1, v2) => cross (vsub v1 v0) (vsub v2 v0)) tp in
  let triangles_areas := map norm triangles_normals in
  faces_normals <- lift (put_ids faces_normals triangles_id
                           (zip_with vdiv triangles_normals triangles_areas)) ;
  faces_areas <- lift (put_ids faces_areas triangles_id
                         (map (fun a => a / 2) triangles_areas)) ;
  faces_centers <- lift (put_ids faces_centers triangles_id
                           (map (fun '(v0, v1, v2) => vdiv (vadd (vadd v0 v1) v2) 3) tp)) ;
  (* Collectively dealing with quads *)
  quads_id <- quadrangles_ids ;
  quads <- lift (take_ids F quads_id) ;
  qp <- lift (rmapM (quad_points V) quads) ;
  let quads_normals :=
    map (fun '(v0, v1, v2, v3) => cross (vsub v2 v0) (vsub v3 v1)) qp in
  faces_normals <- lift (put_ids faces_normals quads_id
                           (zip_with vdiv quads_normals (map norm quads_normals))) ;
  let a1 :=
    map (fun '(v0, v1, v2, v3) => norm (cross (vsub v1 v0) (vsub v2 v0)) * (1 / 2)) qp in
  let a2 :=
    map (fun '(v0, v1, v2, v3) => norm (cross (vsub v3 v0) (vsub v2 v0)) * (1 / 2)) qp in
  faces_areas <- lift (put_ids faces_areas quads_id (zip_with Rplus a1 a2)) ;
  let c1 := map (fun '(v0, v1, v2, v3) => vdiv (vadd (vadd v0 v1) v2) 3) qp in
  let c2 := map (fun '(v0, v1, v2, v3) => vdiv (vadd (vadd v2 v3) v0) 3) qp in
  faces_centers <- lift (put_ids faces_centers quads_id
                           (zip_with vadd (zip_with vscale a1 c1) (zip_with vscale a2 c2))) ;
  cq <- lift (take_ids faces_centers quads_id) ;
  aq <- lift (take_ids faces_areas quads_id) ;
  faces_centers <- lift (put_ids faces_centers quads_id (zip_with vdiv cq aq)) ;
  _ <- write_key "faces_areas" (VFloats faces_areas) ;
  _ <- write_key "faces_normals" (VPoints faces_normals) ;
  write_key "faces_centers" (VPoints faces_centers).

Definition _remove_surface_integrals : M unit :=
  b <- has_key "surface_integrals" ;
  when b (del_key "surface_integrals").

Definition _remove_faces_properties : M unit :=
  b <- _has_faces_properties ;
  _ <- when b (_ <- del_key "faces_areas" ;
               _ <- del_key "faces_centers" ;
               del_key "faces_normals") ;
  b' <- has_surface_integrals ;
  when b' (del_key "surface_integrals").

Definition faces_areas : M (list R) :=
  b <- has_key "faces_areas" ;
  _ <- when (negb b) _faces_properties ;
  v <- read_key "faces_areas" ; as_floats v.

Definition faces_centers : M (list vec) :=
  b <- has_key "faces_centers" ;
  _ <- when (negb b) _faces_properties ;
  v <- read_key "faces_centers" ; as_points v.

Definition faces_normals : M (list vec) :=
  b <- has_key "faces_normals" ;
  _ <- when (negb b) _faces_properties ;
  v <- read_key "faces_normals" ; as_points v.

(** ** Surface integrals and the volume *)

(** The fifteen integrals of one triangle, the column that
    [_compute_triangles_integrals] computes for it. *)
Definition triangle_integrals (t : vec * vec * vec) : list R :=
  let '(point_0, point_1, point_2) := t in
  let t0 := vadd point_0 point_1 in
  let f1 := vadd t0 point_2 in
  let t1 := vmul point_0 point_0 in
  let t2 := vadd t1 (vmul point_1 t0) in
  let f2 := vadd t2 (vmul point_2 f1) in
  let f3 := vadd (vadd (vmul point_0 t1) (vmul point_1 t2)) (vmul point_2 f2) in
  let g0 := vadd f2 (vmul point_0 (vadd f1 point_0)) in
  let g1 := vadd f2 (vmul point_1 (vadd f1 point_1)) in
  let g2 := vadd f2 (vmul point_2 (vadd f1 point_2)) in
  let e1 := vsub point_1 point_0 in
  let e2 := vsub point_2 point_0 in
  let delta := norm (cross e1 e2) in
  [ delta * vx f1 / 6;
    delta * vy f1 / 6;
    delta * vz f1 / 6;
    delta * (6 * vy point_0 * vz point_0
             + 3 * (vy point_1 * vz point_1 + vy point_2 * vz point_2)
             - vy point_0 * vz f1 - vz point_0 * vy f1) / 12;
    delta * (6 * vx point_0 * vz point_0
             + 3 * (vx point_1 * vz point_1 + vx point_2 * vz point_2)
             - vx point_0 * vz f1 - vz point_0 * vx f1) / 12;
    delta * (6 * vx point_0 * vy point_0
             + 3 * (vx point_1 * vy point_1 + vx point_2 * vy point_2)
             - vx point_0 * vy f1 - vy point_0 * vx f1) / 12;
    delta * vx f2 / 12;
    delta * vy f2 / 12;
    delta * vz f2 / 12;
    delta * vx f3 / 20;
    delta * vy f3 / 20;
    delta * vz f3 / 20;
    delta * (vy point_0 * vx g0 + vy point_1 * vx g1 + vy point_2 * vx g2) / 60;
    delta * (vz point_0 * vy g0 + vz point_1 * vy g1 + vz point_2 * vy g2) / 60;
    delta * (vx point_0 * vz g0 + vx point_1 * vz g1 + vx point_2 * vz g2) / 60 ].

(** The [(15, n)] array [s_int]: row [k] holds integral [k] of every triangle. *)
Definition _compute_triangles_integrals (triangles_vertices : list (vec * vec * vec))
  : list (list R) :=
  map (fun k => map (fun t => nth k (triangle_integrals t) 0) triangles_vertices)
      (seq 0 15).

(** [table[:, ids] = cols], row by row. *)
Fixpoint put_cols (table : list (list R)) (ids : list nat) (cols : list (list R))
  : result (list (list R)) :=
  match table, cols with
  | [], [] => Ok []
  | row :: table', c :: cols' =>
      row' <~ put_ids row ids c ;
      rest <~ put_cols table' ids cols' ;
      Ok (row' :: rest)
  | _, _ => Err ValueError
  end.

(** [table[:, ids] += cols], row by row. *)
Fixpoint add_cols (table : list (list R)) (ids : list nat) (cols : list (list R))
  : result (list (list R)) :=
  match table, cols with
  | [], [] => Ok []
  | row :: table', c :: cols' =>
      old <~ take_ids row ids ;
      _ <~ (if decide (length old = length c) then Ok tt else Err ValueError) ;
      row' <~ put_ids row ids (zip_with Rplus old c) ;
      rest <~ add_cols table' ids cols' ;
      Ok (row' :: rest)
  | _, _ => Err ValueError
  end.

Definition _compute_faces_integrals : M unit :=
  nf <- nb_faces ;
  V <- get _vertices ;
  F <- get _faces ;
  let surface_integrals := replicate 15 (replicate nf 0) in
  (* First triangles *)
  nt <- nb_triangles ;
  surface_integrals <-
    (if decide (0 < nt)%nat then
       triangles_ids <- triangles_ids ;
       triangles <- lift (take_ids F triangles_ids) ;
       triangles_vertices <- lift (rmapM (tri_points V) triangles) ;
       lift (put_cols surface_integrals triangles_ids
               (_compute_triangles_integrals triangles_vertices))
     else ret surface_integrals) ;
  (* Now quadrangles by splitting them up *)
  nq <- nb_quadrangles ;
  surface_integrals <-
    (if decide (0 < nq)%nat then
       quadrangles_ids <- quadrangles_ids ;
       quadrangles <- lift (take_ids F quadrangles_ids) ;
       qp <- lift (rmapM (quad_points V) quadrangles) ;
       (* First pass *)
       s <- lift (put_cols surface_integrals quadrangles_ids
                    (_compute_triangles_integrals
                       (map (fun '(v0, v1, v2, v3) => (v0, v1, v2)) qp))) ;
       (* Second pass *)
       lift (add_cols s quadrangles_ids
               (_compute_triangles_integrals
                  (map (fun '(v0, v1, v2, v3) => (v0, v2, v3)) qp)))
     else ret surface_integrals) ;
  write_key "surface_integrals" (VTable surface_integrals).

Definition get_surface_integrals : M (list (list R)) :=
  b <- has_surface_integrals ;
  _ <- when (negb b) _compute_faces_integrals ;
  v <- read_key "surface_integrals" ; as_table v.

(** The product [a * b] of two rows, with NumPy's broadcasting of a row of
    length one. *)
Definition np_mul (a b : list R) : result (list R) :=
  if decide (length a = length b) then Ok (zip_with Rmult a b)
  else match a, b with
       | [x], _ => Ok (map (Rmult x) b)
       | _, [y] => Ok (map (fun x => x * y) a)
       | _, _ => Err ValueError
       end.

(** [normals.T] *)
Definition transpose3 (normals : list vec) : list (list R) :=
  [map vx normals; map vy normals; map vz normals].

Definition _compute_volume : M R :=
  b <- has_surface_integrals ;
  _ <- when (negb b) _compute_faces_integrals ;
  normals <- faces_normals ;
  v <- read_key "surface_integrals" ;
  t <- as_table v ;
  let sigma_0_2 := take 3 t in
  match transpose3 normals, sigma_0_2 with
  | [nx; ny; nz], [s0; s1; s2] =>
      px <- lift (np_mul nx s0) ;
      py <- lift (np_mul ny s1) ;
      pz <- lift (np_mul nz s2) ;
      ret (sum_R (px ++ py ++ pz) / 3)
  | _, _ => raise ValueError
  end.

Definition volume : M R := _compute_volume.

(** ** Translations and scalings *)

Definition add_x (tx : R) (p : vec) : vec := mkvec (vx p + tx) (vy p) (vz p).
Definition add_y (ty : R) (p : vec) : vec := mkvec (vx p) (vy p + ty) (vz p).
Definition add_z (tz : R) (p : vec) : vec := mkvec (vx p) (vy p) (vz p + tz).
Definition mul_x (a : R) (p : vec) : vec := mkvec (vx p * a) (vy p) (vz p).
Definition mul_y (a : R) (p : vec) : vec := mkvec (vx p) (vy p * a) (vz p).
Definition mul_z (a : R) (p : vec) : vec := mkvec (vx p) (vy p) (vz p * a).
Definition mul_all (a : R) (p : vec) : vec := mkvec (vx p * a) (vy p * a) (vz p * a).

(** The block [# Updating properties if any] shared by the translations:
    [centers = self.__internals__['faces_centers']; centers[...] += ...;
     self.__internals__['faces_centers'] = centers]. *)
Definition update_centers (f : vec -> vec) : M unit :=
  b <- _has_faces_properties ;
  when b (v <- read_key "faces_centers" ;
          centers <- as_points v ;
          write_key "faces_centers" (VPoints (map f centers))).

Definition translate_x (tx : R) : M unit :=
  vertices <- get _vertices ;
  _ <- modify (with_vertices (map (add_x tx) vertices)) ;
  _ <- update_centers (add_x tx) ;
  b <- has_surface_integrals ;
  when b _remove_surface_integrals.

Definition translate_y (ty : R) : M unit :=
  vertices <- get _vertices ;
  _ <- modify (with_vertices (map (add_y ty) vertices)) ;
  _ <- update_centers (add_y ty) ;
  b <- has_surface_integrals ;
  when b _remove_surface_integrals.

Definition translate_z (tz : R) : M unit :=
  vertices <- get _vertices ;
  _ <- modify (with_vertices (map (add_z tz) vertices)) ;
  _ <- update_centers (add_z tz) ;
  b <- has_surface_integrals ;
  when b _remove_surface_integrals.

(** [translate(t)]: the new array goes through the [vertices] property
    setter ([self.vertices = V]). *)
Definition translate (t : vec) : M unit :=
  let '(mkvec tx ty tz) := t in
  V <- get _vertices ;
  let V := map (fun p => add_z tz (add_y ty (add_x tx p))) V in
  _ <- set_vertices V ;
  _ <- update_centers (fun p => add_z tz (add_y ty (add_x tx p))) ;
  b <- has_surface_integrals ;
  when b _remove_surface_integrals.

Definition scale (alpha : R) : M unit :=
  _ <- (if Rlt_dec 0 alpha then ret tt else raise AssertionError) ;
  vertices <- get _vertices ;
  _ <- modify (with_vertices (map (mul_all alpha) vertices)) ;
  b <- _has_faces_properties ;
  when b _remove_faces_properties.

Definition scalex (alpha : R) : M unit :=
  _ <- (if Rlt_dec 0 alpha then ret tt else raise AssertionError) ;
  vertices <- get _vertices ;
  _ <- modify (with_vertices (map (mul_x alpha) vertices)) ;
  b <- _has_faces_properties ;
  when b _remove_faces_properties.

Definition scaley (alpha : R) : M unit :=
  _ <- (if Rlt_dec 0 alpha then ret tt else raise AssertionError) ;
  vertices <- get _vertices ;
  _ <- modify (with_vertices (map (mul_y alpha) vertices)) ;
  b <- _has_faces_properties ;
  when b _remove_faces_properties.

Definition scalez (alpha : R) : M unit :=
  _ <- (if Rlt_dec 0 alpha then ret tt else raise AssertionError) ;
  vertices <- get _vertices ;
  _ <- modify (with_vertices (map (mul_z alpha) vertices)) ;
  b <- _has_faces_properties ;
  when b _remove_faces_properties.

(** ** Winding reversal and mirroring *)

Definition flip_normals : M unit :=
  faces <- get _faces ;
  _ <- modify (with_faces (map flip_face faces)) ;
  b <- _has_faces_properties ;
  _ <- when b (v <- read_key "faces_normals" ;
               normals <- as_points v ;
               write_key "faces_normals" (VPoints (map (vscale (-1)) normals))) ;
  b' <- has_surface_integrals ;
  when b' _remove_surface_integrals.

(** Modelled from the spec: the [Plane] collaborator of [meshmagick.geometry],
    consumed as a unit normal and a scalar offset [c]. *)
Record Plane := mkPlane { normal : vec; c : R }.

(** One row of
    [2 * np.outer(np.dot(self._vertices, plane.normal) - plane.c, plane.normal)]
    subtracted from the vertex. *)
Definition mirror_point (plane : Plane) (p : vec) : vec :=
  vsub p (vscale 2 (vscale (dot p (normal plane) - c plane) (normal plane))).

Definition mirror (plane : Plane) : M unit :=
  vertices <- get _vertices ;
  _ <- modify (with_vertices (map (mirror_point plane) vertices)) ;
  _ <- flip_normals ;
  clear_internals.

(** ** Extraction of a selection of faces *)

Definition map_face (f : nat -> result nat) (x : face) : result face :=
  a <~ f (f0 x) ; b <~ f (f1 x) ; c <~ f (f2 x) ; d <~ f (f3 x) ;
  Ok (mkface a b c d).

(** [mask[ids] = True] *)
Fixpoint mark (mask : list bool) (ids : list nat) : result (list bool) :=
  match ids with
  | [] => Ok mask
  | i :: ids' => mask' <~ set_item mask i true ; mark mask' ids'
  end.

(** What [extract_faces] returns: the mesh alone, or the pair
    [(extracted_mesh, id_v)] when [return_index] is set. *)
Inductive extracted :=
| Extracted (extracted_mesh : Mesh)
| ExtractedWithIndex (extracted_mesh : Mesh) (id_v : list nat).

Definition extract_faces (id_faces_to_extract : list nat) (return_index : bool)
    (next_id : nat) : M extracted :=
  nv <- nb_vertices ;
  V <- get _vertices ;
  F <- get _faces ;
  (* Determination of the vertices to keep *)
  let vertices_mask := replicate nv false in
  selected <- lift (take_ids F id_faces_to_extract) ;
  vertices_mask <- lift (mark vertices_mask (concat (map face_list selected))) ;
  let id_v := np_where vertices_mask in
  (* Building up the vertex array *)
  v_extracted <- lift (take_ids V id_v) ;
  let new_id__v := seq 0 nv in
  new_id__v <- lift (put_ids new_id__v id_v (seq 0 (length id_v))) ;
  faces_extracted <- lift (take_ids F id_faces_to_extract) ;
  faces_extracted <- lift (rmapM (map_face (item new_id__v)) faces_extracted) ;
  let extracted_mesh := Mesh_init v_extracted faces_extracted None next_id in
  verbose <- get _verbose ;
  let extracted_mesh := with_verbose verbose extracted_mesh in
  name <- get _name ;
  let extracted_mesh := with_name ("mesh_extracted_from_" +:+ name) extracted_mesh in
  if return_index then ret (ExtractedWithIndex extracted_mesh id_v)
  else ret (Extracted extracted_mesh).

(** ** Triangulation of the quadrangles *)

Definition triangulate_quadrangles : M (list face) :=
  faces <- get _faces ;
  (* Triangulation *)
  qids <- quadrangles_ids ;
  new_faces <- lift (take_ids faces qids) ;
  (* new_faces[:, :3] = new_faces[:, t1] *)
  let new_faces := map (fun q => mkface (f0 q) (f1 q) (f2 q) (f3 q)) new_faces in
  (* new_faces[:, -1] = new_faces[:, 0] *)
  let new_faces := map (fun q => mkface (f0 q) (f1 q) (f2 q) (f0 q)) new_faces in
  (* faces[self.quadrangles_ids, :3] = faces[:, t2][self.quadrangles_ids] *)
  qids <- quadrangles_ids ;
  rhs <- lift (take_ids (map (fun q => (f0 q, f2 q, f3 q)) faces) qids) ;
  old <- lift (take_ids faces qids) ;
  faces <- lift (put_ids faces qids
                   (zip_with (fun '(a, b, c) q => mkface a b c (f3 q)) rhs old)) ;
  _ <- modify (with_faces faces) ;
  (* faces[self.quadrangles_ids, -1] = faces[self.quadrangles_ids, 0] *)
  qids <- quadrangles_ids ;
  old <- lift (take_ids faces qids) ;
  faces <- lift (put_ids faces qids
                   (map (fun q => mkface (f0 q) (f1 q) (f2 q) (f0 q)) old)) ;
  _ <- modify (with_faces faces) ;
  let faces := faces ++ new_faces in
  _ <- clear_internals ;
  _ <- modify (with_faces faces) ;
  ret faces.

(** ** Removal of the degenerated faces *)

(** [arr[mask]] with a boolean mask of the length of [arr]. *)
Definition take_mask {A} (arr : list A) (mask : list bool) : result (list A) :=
  if decide (length arr = length mask)
  then Ok (map fst (filter (fun p => snd p = true) (zip arr mask)))
  else Err IndexError.

Definition lt_mask (a : list R) (x : R) : list bool :=
  map (fun y => if Rlt_dec y x then true else false) a.

Definition remove_degenerated_faces (rtol : R) : M unit :=
  _ <- (if Rlt_dec 0 rtol then ret tt else raise AssertionError) ;
  areas <- faces_areas ;
  let area_threshold := (sum_R areas / INR (length areas)) * rtol in
  (* Detecting faces that have null area *)
  F <- get _faces ;
  faces <- lift (take_mask F (map negb (lt_mask areas area_threshold))) ;
  _ <- modify (with_faces faces) ;
  b <- _has_faces_properties ;
  when b _remove_faces_properties.

(** ** Connectivity *)

(** A Python [dict] from indices to [set]s of indices. *)
Abbreviation adj := (gmap nat (gset nat)).

(** [dict([(i, set()) for i in range(n)])] *)
Definition empty_sets (n : nat) : adj :=
  list_to_map (map (fun i => (i, (∅ : gset nat))) (seq 0 n)).

(** [d[k]] *)
Definition set_at (d : adj) (k : nat) : result (gset nat) :=
  of_option KeyError (d !! k).

(** [d[k].add(x)] *)
Definition set_add (d : adj) (k x : nat) : result adj :=
  s <~ set_at d k ; Ok (<[k := {[x]} ∪ s]> d).

(** [d[k].remove(x)], which raises [KeyError] when [x] is not in the set. *)
Definition set_remove (d : adj) (k x : nat) : result adj :=
  s <~ set_at d k ;
  if decide (x ∈ s) then Ok (<[k := s ∖ {[x]}]> d) else Err KeyError.

(** [for a in l: s = f(s, a)] with exceptions. *)
Fixpoint rfold {A S} (f : S -> A -> result S) (l : list A) (s : S) : result S :=
  match l with
  | [] => Ok s
  | a :: l' => s' <~ f s a ; rfold f l' s'
  end.

(** [face[:3]] for a triangle, [face] for a quadrangle. *)
Definition face_w (f : face) : list nat :=
  if is_tri f then [f0 f; f1 f; f2 f] else face_list f.

(** The list of the [w[index - 1]], [index = 0, 1, ...]: the last entry comes
    first. *)
Definition previous (w : list nat) : list nat :=
  match reverse w with
  | [] => []
  | x :: r => x :: reverse r
  end.

(** [enumerate(l)] *)
Definition enumerate {A} (l : list A) : list (nat * A) := zip (seq 0 (length l)) l.

(** A Python [dict] from indices to indices, in insertion order. *)
Abbreviation edges := (list (nat * nat)).

(** [d[k] = v] *)
Fixpoint dict_set (d : edges) (k v : nat) : edges :=
  match d with
  | [] => [(k, v)]
  | (k', v') :: d' =>
      if decide (k' = k) then (k, v) :: d' else (k', v') :: dict_set d' k v
  end.

(** [d.pop(k)], [None] standing for [KeyError]. *)
Fixpoint dict_pop (d : edges) (k : nat) : option (nat * edges) :=
  match d with
  | [] => None
  | (k', v') :: d' =>
      if decide (k' = k) then Some (v', d')
      else match dict_pop d' k with
           | Some (v, d'') => Some (v, (k', v') :: d'')
           | None => None
           end
  end.

(** [d.popitem()]: the pair inserted last, [None] standing for [KeyError]. *)
Definition dict_popitem (d : edges) : option (nat * nat * edges) :=
  match reverse d with
  | [] => None
  | kv :: r => Some (kv, reverse r)
  end.

(** ** Healing of the normals *)

(** The arrays that the flood of [heal_normals] updates in place: [faces]
    (the array of the mesh itself), [f_f] (the dictionary held by the cache),
    [f_vis], [stack] (top first) and [nb_reversed]. *)
Record flood := mkFlood {
  fl_faces : list face;
  fl_ff : adj;
  fl_vis : list bool;
  fl_stack : list nat;
  fl_reversed : nat
}.

(** Where a part of the flood stops: normally, or on an exception, with the
    arrays as they are at that point. *)
Inductive outcome :=
| Done (st : flood)
| Failed (e : error) (st : flood).

Definition or_fail {A} (st : flood) (r : result A) (k : A -> outcome) : outcome :=
  match r with
  | Ok a => k a
  | Err e => Failed e st
  end.

Notation "x <! r 'in' st ; k" := (or_fail st r (fun x => k))
  (at level 20, r at level 100, st at level 9, k at level 200, only parsing).

(** [np.where(face == i)[0][0]] *)
Definition first_index (f : face) (i : nat) : result nat :=
  item (np_where (map (fun x => bool_decide (x = i)) (face_list f))) 0.

(** [set(face)] *)
Definition face_set (f : face) : gset nat := list_to_set (face_list f).

(** [np.max] of a column. *)
Definition np_max (l : list R) : result R :=
  match l with
  | [] => Err ValueError
  | x :: l' => Ok (foldl Rmax x l')
  end.

Section Connectivity.

(** The order in which Python iterates over a [set]; nothing is assumed of
    it here. *)
Variable set_order : gset nat -> list nat.

(** The first loop of [_connectivity]: the vertex/vertex and vertex/face
    dictionaries. *)
Definition build_vv_vf (nv : nat) (F : list face) : result (adj * adj) :=
  rfold (fun '(v_v, v_f) '(iface, face) =>
           let w := face_w face in
           rfold (fun '(v_v, v_f) '(prev, iV) =>
                    v_f <~ set_add v_f iV iface ;
                    v_v <~ set_add v_v prev iV ;
                    v_v <~ set_add v_v iV prev ;
                    Ok (v_v, v_f))
                 (zip (previous w) w) (v_v, v_f))
        (enumerate F) (empty_sets nv, empty_sets nv).

(** The body of the loop on [iadj_v]. *)
Definition edge_step (F : list face) (v_f : adj) (ivertex : nat) (set1 : gset nat)
    (acc : adj * edges) (iadj_v : nat) : result (adj * edges) :=
  let '(f_f, boundary_edges) := acc in
  set2 <~ set_at v_f iadj_v ;
  let intersection := set_order (set1 ∩ set2) in
  match intersection with
  | [i0; i1] =>
      f_f <~ set_add f_f i0 i1 ;
      f_f <~ set_add f_f i1 i0 ;
      Ok (f_f, boundary_edges)
  | [i0] =>
      boundary_face <~ item F i0 ;
      let boundary_face := face_w boundary_face in
      let ids :=
        np_where (map (fun x => bool_decide (x = ivertex) || bool_decide (x = iadj_v))
                      boundary_face) in
      id1 <~ item ids 1 ;
      id0 <~ item ids 0 ;
      sel <~ take_ids boundary_face ids ;
      match sel with
      | [a; b] =>
          if decide (id1 <> id0 + 1)%nat
          then Ok (f_f, dict_set boundary_edges a b)
          else Ok (f_f, dict_set boundary_edges b a)
      | _ => Err ValueError
      end
  | _ => Err (RuntimeError "Unexpected error while computing mesh connectivities")
  end.

(** The second loop: the face/face dictionary and the boundary edges. *)
Definition build_ff (nv nf : nat) (F : list face) (v_v v_f : adj)
  : result (adj * edges) :=
  rfold (fun acc ivertex =>
           set1 <~ set_at v_f ivertex ;
           adjs <~ set_at v_v ivertex ;
           rfold (edge_step F v_f ivertex set1) (set_order adjs) acc)
        (seq 0 nv) (empty_sets nf, []).

(** The inner [while True] of the boundary walk: follow the edges from
    [i_v0] until [pop] raises [KeyError].  Each turn removes an edge, so
    [fuel = length boundary_edges] turns are enough. *)
Fixpoint walk (fuel : nat) (boundary_edges : edges) (i_v0 : nat) (boundary : list nat)
  : list nat * edges :=
  match fuel with
  | O => (boundary, boundary_edges)
  | S fuel' =>
      match dict_pop boundary_edges i_v0 with
      | Some (i_v1, rest) => walk fuel' rest i_v1 (boundary ++ [i_v1])
      | None => (boundary, boundary_edges)
      end
  end.

(** The outer [while True]: one loop per [popitem].  An open chain is
    reported on the console and dropped. *)
Fixpoint walk_all (fuel : nat) (boundary_edges : edges) (boundaries : list (list nat))
  : list (list nat) :=
  match fuel with
  | O => boundaries
  | S fuel' =>
      match dict_popitem boundary_edges with
      | None => boundaries
      | Some ((i_v0_init, i_v1), rest) =>
          let '(boundary, rest') := walk (length rest) rest i_v1 [i_v0_init; i_v1] in
          if decide (head boundary = last boundary)
          then walk_all fuel' rest' (boundaries ++ [boundary])
          else walk_all fuel' rest' boundaries
      end
  end.

Definition _connectivity : M unit :=
  nv <- nb_vertices ;
  nf <- nb_faces ;
  F <- get _faces ;
  (* Establishing v_v and v_f connectivities *)
  '(v_v, v_f) <- lift (build_vv_vf nv F) ;
  (* Connectivity f_f *)
  '(f_f, boundary_edges) <- lift (build_ff nv nf F v_v v_f) ;
  (* Computing boundaries *)
  let boundaries := walk_all (length boundary_edges) boundary_edges [] in
  _ <- write_key "v_v" (VAdj v_v) ;
  _ <- write_key "v_f" (VAdj v_f) ;
  _ <- write_key "f_f" (VAdj f_f) ;
  write_key "boundaries" (VLoops boundaries).

Definition _has_connectivity : M bool := has_key "v_v".

Definition _remove_connectivity : M unit :=
  b <- has_key "v_v" ;
  when b (_ <- del_key "v_v" ;
          _ <- del_key "v_f" ;
          _ <- del_key "f_f" ;
          del_key "boundaries").

Definition vv : M adj :=
  b <- has_key "v_v" ;
  _ <- when (negb b) _connectivity ;
  v <- read_key "v_v" ; as_adj v.

Definition vf : M adj :=
  b <- has_key "v_f" ;
  _ <- when (negb b) _connectivity ;
  v <- read_key "v_f" ; as_adj v.

Definition ff : M adj :=
  b <- has_key "f_f" ;
  _ <- when (negb b) _connectivity ;
  v <- read_key "f_f" ; as_adj v.

Definition boundaries : M (list (list nat)) :=
  b <- has_key "boundaries" ;
  _ <- when (negb b) _connectivity ;
  v <- read_key "boundaries" ; as_loops v.

Definition nb_boundaries : M nat :=
  b <- has_key "boundaries" ;
  _ <- when (negb b) _connectivity ;
  v <- read_key "boundaries" ; l <- as_loops v ; ret (length l).

Definition is_mesh_closed : M bool :=
  b <- has_key "boundaries" ;
  _ <- when (negb b) _connectivity ;
  v <- read_key "boundaries" ; l <- as_loops v ;
  ret (bool_decide (length l = 0%nat)).

(** The body of [for iadj_f in f_f[iface]]. *)
Definition visit (type_cell : list nat) (iface : nat) (face : face)
    (iadj_f : nat) (st : flood) : outcome :=
  seen <! item (fl_vis st) iadj_f in st ;
  if (seen : bool) then Done st
  else
    f_vis <! set_item (fl_vis st) iadj_f true in st ;
    let st := mkFlood (fl_faces st) (fl_ff st) f_vis (fl_stack st) (fl_reversed st) in
    (* Removing the other pointer *)
    f_f <! set_remove (fl_ff st) iadj_f iface in st ;
    let st := mkFlood (fl_faces st) f_f (fl_vis st) (fl_stack st) (fl_reversed st) in
    (* Shared vertices *)
    adjface <! item (fl_faces st) iadj_f in st ;
    match set_order (face_set face ∩ face_set adjface) with
    | [i_v1; i_v2] =>
        (* Checking normal consistency *)
        tc <! item type_cell iface in st ;
        k <! first_index face i_v1 in st ;
        let face_ref := rotate k (take tc (face_list face)) in
        tc_adj <! item type_cell iadj_f in st ;
        k_adj <! first_index adjface i_v1 in st ;
        let adj_face_ref := rotate k_adj (take tc_adj (face_list adjface)) in
        r1 <! item face_ref 1 in st ;
        at_i <! (if decide (r1 = i_v2) then item adj_face_ref 1
                 else of_option IndexError (last adj_face_ref)) in st ;
        let st :=
          if decide (at_i = i_v2)
          then (* Reversing normal *)
            mkFlood (<[iadj_f := flip_face adjface]> (fl_faces st)) (fl_ff st)
                    (fl_vis st) (fl_stack st) (S (fl_reversed st))
          else st in
        (* Appending to the stack *)
        Done (mkFlood (fl_faces st) (fl_ff st) (fl_vis st)
                      (iadj_f :: fl_stack st) (fl_reversed st))
    | _ => Done st
    end.

Fixpoint visit_all (type_cell : list nat) (iface : nat) (face : face)
    (l : list nat) (st : flood) : outcome :=
  match l with
  | [] => Done st
  | iadj_f :: l' =>
      match visit type_cell iface face iadj_f st with
      | Done st' => visit_all type_cell iface face l' st'
      | Failed e st' => Failed e st'
      end
  end.

(** The head of the [while 1] loop: nothing to do on a non-empty stack,
    a restart from the first face not yet visited, or the [break]. *)
Definition restart (st : flood) : option flood :=
  match fl_stack st with
  | [] =>
      match np_where (map negb (fl_vis st)) with
      | [] => None
      | iface :: _ =>
          Some (mkFlood (fl_faces st) (fl_ff st) (<[iface := true]> (fl_vis st))
                        [iface] (fl_reversed st))
      end
  | _ => Some st
  end.

(** The [while 1] loop.  Each turn pops a face and a face is pushed once at
    most, so [fuel] beyond the number of faces is never exhausted
    ([OutOfFuel] is not an exception of the program). *)
Fixpoint flood_loop (fuel : nat) (type_cell : list nat) (st : flood) : outcome :=
  match fuel with
  | O => Failed OutOfFuel st
  | S fuel' =>
      match restart st with
      | None => Done st
      | Some st =>
          match fl_stack st with
          | [] => Failed IndexError st
          | iface :: stack =>
              let st := mkFlood (fl_faces st) (fl_ff st) (fl_vis st) stack
                                (fl_reversed st) in
              face <! item (fl_faces st) iface in st ;
              nbrs <! set_at (fl_ff st) iface in st ;
              match visit_all type_cell iface face (set_order nbrs) st with
              | Done st' => flood_loop fuel' type_cell st'
              | Failed e st' => Failed e st'
              end
          end
      end
  end.

(** The check of the outward orientation of a closed mesh. *)
Definition check_outward : M unit :=
  V <- get _vertices ;
  zmax <- lift (np_max (map vz V)) ;
  areas <- faces_areas ;
  normals <- faces_normals ;
  centers <- faces_centers ;
  w <- lift (np_mul (map (fun p => vz p - zmax) centers) areas) ;
  hx <- lift (np_mul w (map vx normals)) ;
  hy <- lift (np_mul w (map vy normals)) ;
  hz <- lift (np_mul w (map vz normals)) ;
  let hs := mkvec (sum_R hx) (sum_R hy) (sum_R hz) in
  if Rlt_dec (vz hs) 0 then flip_normals else ret tt.

Definition heal_normals : M unit :=
  nv <- nb_vertices ;
  nf <- nb_faces ;
  (* Building connectivities *)
  v_v <- vv ;
  v_f <- vf ;
  f_f <- ff ;
  boundaries <- boundaries ;
  let mesh_closed := bool_decide (length boundaries = 0%nat) in
  (* Flooding the mesh to find inconsistent normals *)
  tids <- triangles_ids ;
  type_cell <- lift (put_ids (replicate nf 4%nat) tids (replicate (length tids) 3%nat)) ;
  f_vis <- lift (set_item (replicate nf false) 0 true) ;
  faces <- get _faces ;
  let out := flood_loop (S nf) type_cell (mkFlood faces f_f f_vis [0%nat] 0) in
  (* [faces] and [f_f] are the objects of the mesh: what the flood did to
     them is there whether it returned or raised *)
  let st := match out with Done st => st | Failed _ st => st end in
  _ <- modify (with_faces (fl_faces st)) ;
  _ <- write_key "f_f" (VAdj (fl_ff st)) ;
  _ <- (match out with Done _ => ret tt | Failed e _ => raise e end) ;
  (* Checking if the normals are outward *)
  _ <- when mesh_closed check_outward ;
  b <- _has_faces_properties ;
  when b _remove_faces_properties.


End Connectivity.

(** ** Closed forms used in the statements *)

(** The row [V[i]] for an index known to be in range. *)
Definition pt (V : list vec) (i : nat) : vec := default vzero (V !! i).

(** Every slot of every face is the index of a vertex. *)
Definition valid_faces (m : Mesh) : Prop :=
  Forall (fun f => Forall (fun i => (i < length (_vertices m))%nat) (face_list f))
         (_faces m).

Definition tri_ids_of (F : list face) : list nat := np_where (map is_tri F).
Definition quad_ids_of (F : list face) : list nat :=
  np_where (map negb (map is_tri F)).

(** The cached classification, when there is one, is that of the current
    face array. *)
Definition classification_ok (m : Mesh) : Prop :=
  match __internals__ m !! "triangles_ids" with
  | None => True
  | Some v =>
      v = VIds (tri_ids_of (_faces m))
      /\ __internals__ m !! "quadrangles_ids" = Some (VIds (quad_ids_of (_faces m)))
  end.

(** The mesh once its classification has been read. *)
Definition classified (m : Mesh) : Mesh :=
  with_internals
    (<["quadrangles_ids" := VIds (quad_ids_of (_faces m))]>
       (<["triangles_ids" := VIds (tri_ids_of (_faces m))]> (__internals__ m)))
    m.

Definition tri_cross (V : list vec) (f : face) : vec :=
  cross (vsub (pt V (f1 f)) (pt V (f0 f))) (vsub (pt V (f2 f)) (pt V (f0 f))).
Definition quad_cross (V : list vec) (f : face) : vec :=
  cross (vsub (pt V (f2 f)) (pt V (f0 f))) (vsub (pt V (f3 f)) (pt V (f1 f))).
Definition quad_a1 (V : list vec) (f : face) : R :=
  norm (cross (vsub (pt V (f1 f)) (pt V (f0 f))) (vsub (pt V (f2 f)) (pt V (f0 f))))
  * (1 / 2).
Definition quad_a2 (V : list vec) (f : face) : R :=
  norm (cross (vsub (pt V (f3 f)) (pt V (f0 f))) (vsub (pt V (f2 f)) (pt V (f0 f))))
  * (1 / 2).
Definition quad_c1 (V : list vec) (f : face) : vec :=
  vdiv (vadd (vadd (pt V (f0 f)) (pt V (f1 f))) (pt V (f2 f))) 3.
Definition quad_c2 (V : list vec) (f : face) : vec :=
  vdiv (vadd (vadd (pt V (f2 f)) (pt V (f3 f))) (pt V (f0 f))) 3.

Definition area_of (V : list vec) (f : face) : R :=
  if is_tri f then norm (tri_cross V f) / 2
  else quad_a1 V f + quad_a2 V f.
Definition normal_of (V : list vec) (f : face) : vec :=
  if is_tri f then vdiv (tri_cross V f) (norm (tri_cross V f))
  else vdiv (quad_cross V f) (norm (quad_cross V f)).
Definition center_of (V : list vec) (f : face) : vec :=
  if is_tri f then vdiv (vadd (vadd (pt V (f0 f)) (pt V (f1 f))) (pt V (f2 f))) 3
  else vdiv (vadd (vscale (quad_a1 V f) (quad_c1 V f))
                  (vscale (quad_a2 V f) (quad_c2 V f)))
            (quad_a1 V f + quad_a2 V f).

(** The mesh once its face geometry has been computed. *)
Definition with_geometry (m : Mesh) : Mesh :=
  with_internals
    (<["faces_centers" := VPoints (map (center_of (_vertices m)) (_faces m))]>
       (<["faces_normals" := VPoints (map (normal_of (_vertices m)) (_faces m))]>
          (<["faces_areas" := VFloats (map (area_of (_vertices m)) (_faces m))]>
             (__internals__ (classified m)))))
    m.

(** The fifteen integrals of a face: those of the triangle, or the sum of
    those of the two halves [(v0, v1, v2)] and [(v0, v2, v3)] of a quadrangle. *)
Definition integrals_of (V : list vec) (f : face) : list R :=
  if is_tri f
  then triangle_integrals (pt V (f0 f), pt V (f1 f), pt V (f2 f))
  else zip_with Rplus
         (triangle_integrals (pt V (f0 f), pt V (f1 f), pt V (f2 f)))
         (triangle_integrals (pt V (f0 f), pt V (f2 f), pt V (f3 f))).

(** Integral [k] of a face. *)
Definition integral (V : list vec) (k : nat) (f : face) : R :=
  nth k (integrals_of V f) 0.

(** The [(15, nf)] array of the integrals of all faces. *)
Definition table_of (V : list vec) (F : list face) : list (list R) :=
  map (fun k => map (integral V k) F) (seq 0 15).

(** The cached normals and the cached surface integrals, when there are
    some, are those of the current arrays. *)
Definition normals_ok (m : Mesh) : Prop :=
  match __internals__ m !! "faces_normals" with
  | None => True
  | Some v => v = VPoints (map (normal_of (_vertices m)) (_faces m))
  end.

Definition integrals_ok (m : Mesh) : Prop :=
  match __internals__ m !! "surface_integrals" with
  | None => True
  | Some v => v = VTable (table_of (_vertices m) (_faces m))
  end.

(** When the face areas are cached, so are the normals (the three arrays of
    the face geometry enter and leave the cache together). *)
Definition normals_cached (m : Mesh) : Prop :=
  __internals__ m !! "faces_areas" = None
  \/ exists normals, __internals__ m !! "faces_normals" = Some (VPoints normals).

(** The array [a] sends each slot of [src] to the slot of [dst] at the same
    place. *)
Definition sends (a : list nat) (src dst : face) : Prop :=
  Forall2 (fun i j => a !! i = Some j) (face_list src) (face_list dst).

(** The faces that [remove_degenerated_faces] keeps. *)
Definition kept_faces (rtol : R) (V : list vec) (F : list face) : list face :=
  let areas := map (area_of V) F in
  let area_threshold := (sum_R areas / INR (length areas)) * rtol in
  map fst (filter (fun p => snd p = true)
                  (zip F (map negb (lt_mask areas area_threshold)))).

(** The faces incident to both vertices [i] and [j]. *)
Definition shared_faces (v_f : adj) (i j : nat) : gset nat :=
  default ∅ (v_f !! i) ∩ default ∅ (v_f !! j).

(** [b] is in the set that the dictionary [d] gives for [a]. *)
Definition adjacent (d : adj) (a b : nat) : Prop :=
  exists s, d !! a = Some s /\ b ∈ s.

Definition symmetric_adj (d : adj) : Prop :=
  forall a b, adjacent d a b -> adjacent d b a.

Definition irreflexive_adj (d : adj) : Prop :=
  forall a, ~ adjacent d a a.

Definition isolated (d : adj) (a : nat) : Prop :=
  forall b, ~ adjacent d a b.

(** The face [a] is marked in [f_vis]. *)
Definition visited (st : flood) (a : nat) : Prop := fl_vis st !! a = Some true.

(** An edge that the flood went along: still there from [a] to [b], removed
    from [b] to [a]. *)
Definition one_way (st : flood) : Prop :=
  exists a b,
    visited st a /\ visited st b
    /\ adjacent (fl_ff st) a b /\ ~ adjacent (fl_ff st) b a.

(** The flood has not gone along any edge of [f0] yet: every visited face is
    on the stack or has no neighbour. *)
Definition untouched (f0 : adj) (st : flood) : Prop :=
  fl_ff st = f0
  /\ (length (fl_stack st) <= 1)%nat
  /\ (forall a, a ∈ fl_stack st -> visited st a)
  /\ (forall a, visited st a -> a ∈ fl_stack st \/ isolated f0 a).

(** [st'] comes after [st] in the flood: marks stay, edges are only
    removed, and never from the set of a face already visited. *)
Definition later (st st' : flood) : Prop :=
  (forall a, visited st a -> visited st' a)
  /\ (forall a b, adjacent (fl_ff st') a b -> adjacent (fl_ff st) a b)
  /\ (forall a b, visited st a -> adjacent (fl_ff st) a b ->
                  adjacent (fl_ff st') a b)
  /\ length (fl_vis st') = length (fl_vis st).

(** What [_connectivity] guarantees of the face/face dictionary of [nf]
    faces. *)
Definition good_adj (nf : nat) (d : adj) : Prop :=
  symmetric_adj d /\ irreflexive_adj d
  /\ forall a, is_Some (d !! a) -> (a < nf)%nat.

(** The flood is at the neighbours of [iface] and has not gone along any
    edge yet. *)
Definition processing (f0 : adj) (iface : nat) (st : flood) : Prop :=
  fl_ff st = f0
  /\ visited st iface
  /\ forall a, visited st a -> a = iface \/ isolated f0 a.

(** The method [c] leaves the entry [k] of the cache as it is, whether it
    returns or raises. *)
Definition keeps {A} (k : string) (c : M A) : Prop :=
  forall m, __internals__ (snd (c m)) !! k = __internals__ m !! k.

(** The four keys of the connectivity. *)
Definition conn_key (k : string) : Prop :=
  k = "v_v" \/ k = "v_f" \/ k = "f_f" \/ k = "boundaries".

(** ** Sample meshes *)

(** One triangle in the plane [z = 0]. *)
Definition triangle_mesh : Mesh :=
  Mesh_init [mkvec 0 0 0; mkvec 1 0 0; mkvec 0 1 0] [mkface 0 1 2 0] None 0.

(** The same mesh after [get_surface_integrals()]. *)
Definition triangle_mesh_integrated : Mesh :=
  snd (get_surface_integrals triangle_mesh).

(** The unit square of the plane [z = 0], as one quadrangle. *)
Definition square_mesh : Mesh :=
  Mesh_init [mkvec 0 0 0; mkvec 1 0 0; mkvec 1 1 0; mkvec 0 1 0]
            [mkface 0 1 2 3] None 0.

(** The horizontal plane [z = 1]. *)
Definition plane_z1 : Plane := mkPlane (mkvec 0 0 1) 1.

(** A triangle on the vertices 1, 2, 3 of four; vertex 0 is not used. *)
Definition offset_mesh : Mesh :=
  Mesh_init [mkvec 5 5 5; mkvec 0 0 0; mkvec 1 0 0; mkvec 0 1 0]
            [mkface 1 2 3 1] None 0.

(** A triangle followed by a face collapsed on vertex 0. *)
Definition sliver_mesh : Mesh :=
  Mesh_init [mkvec 0 0 0; mkvec 1 0 0; mkvec 0 1 0]
            [mkface 0 1 2 0; mkface 0 0 0 0] None 0.

(** Three triangles around the edge from vertex 0 to vertex 1. *)
Definition fan_mesh : Mesh :=
  Mesh_init [mkvec 0 0 0; mkvec 1 0 0; mkvec 0 1 0; mkvec 0 0 1; mkvec 0 (-1) 0]
            [mkface 0 1 2 0; mkface 0 1 3 0; mkface 0 1 4 0] None 0.

(** Two triangles with a common edge, wound alike. *)
Definition wing_mesh : Mesh :=
  Mesh_init [mkvec 0 0 0; mkvec 1 0 0; mkvec 0 1 0; mkvec 1 1 0]
            [mkface 0 1 2 0; mkface 1 3 2 1] None 0.

(** ** Single faces *)

(** [is_triangle(face_id)]; the index is an [int] of Python, which the
    assertion confines to [0 <= face_id < nb_faces]. *)
Definition is_triangle (face_id : Z) : M bool :=
  nf <- nb_faces ;
  _ <- (if decide (0 <= face_id < Z.of_nat nf)%Z then ret tt
        else raise AssertionError) ;
  F <- get _faces ;
  face <- lift (item F (Z.to_nat face_id)) ;
  ret (bool_decide (f0 face = f3 face)).

(** [get_face(face_id)]: [self._faces[face_id, :3]] for a triangle, the
    whole row otherwise. *)
Definition get_face (face_id : Z) : M (list nat) :=
  b <- is_triangle face_id ;
  F <- get _faces ;
  face <- lift (item F (Z.to_nat face_id)) ;
  if b then ret (take 3 (face_list face)) else ret (face_list face).

(** When the face areas are cached, so are the centers and the normals, as
    arrays of points. *)
Definition geometry_cached (m : Mesh) : Prop :=
  __internals__ m !! "faces_areas" = None
  \/ ((exists centers, __internals__ m !! "faces_centers" = Some (VPoints centers))
      /\ (exists normals, __internals__ m !! "faces_normals" = Some (VPoints normals))).

(** ** Rotations *)

(** A [(3, 3)] array, row by row. *)
Definition mat : Type := vec * vec * vec.

(** [np.eye(3)]. *)
Definition eye3 : mat := (mkvec 1 0 0, mkvec 0 1 0, mkvec 0 0 1).

(** One row of [np.transpose(np.dot(rot_matrix, arr.T))]. *)
Definition mat_apply (r : mat) (p : vec) : vec :=
  let '(r0, r1, r2) := r in mkvec (dot r0 p) (dot r1 p) (dot r2 p).

(** The matrix that [rotate] builds for an angle vector that is not zero. *)
Definition rot_matrix (angles : vec) : mat :=
  let theta := norm angles in
  let ctheta := cos theta in
  let stheta := sin theta in
  let nx := vx angles / theta in
  let ny := vy angles / theta in
  let nz := vz angles / theta in
  let nxny := nx * ny in
  let nxnz := nx * nz in
  let nynz := ny * nz in
  let nx2 := nx * nx in
  let ny2 := ny * ny in
  let nz2 := nz * nz in
  (mkvec (ctheta * 1 + (1 - ctheta) * nx2 + stheta * 0)
         (ctheta * 0 + (1 - ctheta) * nxny + stheta * (- nz))
         (ctheta * 0 + (1 - ctheta) * nxnz + stheta * ny),
   mkvec (ctheta * 0 + (1 - ctheta) * nxny + stheta * nz)
         (ctheta * 1 + (1 - ctheta) * ny2 + stheta * 0)
         (ctheta * 0 + (1 - ctheta) * nynz + stheta * (- nx)),
   mkvec (ctheta * 0 + (1 - ctheta) * nxnz + stheta * (- ny))
         (ctheta * 0 + (1 - ctheta) * nynz + stheta * nx)
         (ctheta * 1 + (1 - ctheta) * nz2 + stheta * 0)).

Definition rotate (angles : vec) : M mat :=
  b <- has_surface_integrals ;
  _ <- when b _remove_surface_integrals ;
  let theta := norm angles in
  if Req_dec_T theta 0 then ret eye3
  else
    let rot_matrix := rot_matrix angles in
    vertices <- get _vertices ;
    _ <- modify (with_vertices (map (mat_apply rot_matrix) vertices)) ;
    (* Updating faces properties if any *)
    b <- _has_faces_properties ;
    _ <- when b (v <- read_key "faces_normals" ;
                 normals <- as_points v ;
                 v <- read_key "faces_centers" ;
                 centers <- as_points v ;
                 _ <- write_key "faces_normals"
                        (VPoints (map (mat_apply rot_matrix) normals)) ;
                 write_key "faces_centers"
                   (VPoints (map (mat_apply rot_matrix) centers))) ;
    b <- has_surface_integrals ;
    _ <- when b _remove_surface_integrals ;
    ret rot_matrix.

Definition rotate_x (thetax : R) : M mat := rotate (mkvec thetax 0 0).
Definition rotate_y (thetay : R) : M mat := rotate (mkvec 0 thetay 0).
Definition rotate_z (thetaz : R) : M mat := rotate (mkvec 0 0 thetaz).

(** The rotation of angle [theta] about the unit axis [n], in the form of
    Rodrigues: [cos theta p + (1 - cos theta) (n.p) n + sin theta (n x p)]. *)
Definition rodrigues (n : vec) (theta : R) (p : vec) : vec :=
  vadd (vadd (vscale (cos theta) p)
             (vscale ((1 - cos theta) * dot n p) n))
       (vscale (sin theta) (cross n p)).

(** A linear map that keeps the dot product. *)
Definition linear_isometry (g : vec -> vec) : Prop :=
  (forall p q, dot (g p) (g q) = dot p q)
  /\ (forall p q, vsub (g p) (g q) = g (vsub p q))
  /\ g vzero = vzero.

(** ** Healing of the triangles *)

(** [arr[mask] = vals] with a boolean mask of the length of [arr]. *)
Definition put_mask {A} (arr : list A) (mask : list bool) (vals : list A)
  : result (list A) :=
  if decide (length arr = length mask)
  then put_ids arr (np_where mask) vals
  else Err IndexError.

(** [np.roll(row, 1)] on one row. *)
Definition roll_face (f : face) : face := mkface (f3 f) (f0 f) (f1 f) (f2 f).

(** [faces[quads] = np.roll(faces[quads], 1, axis=1)] for
    [quads = faces[:, 0] != faces[:, -1]]. *)
Definition roll_quads (faces : list face) : result (list face) :=
  let quads := map (fun f => negb (bool_decide (f0 f = f3 f))) faces in
  rows <~ take_mask faces quads ;
  put_mask faces quads (map roll_face rows).

(** [faces] is the array of the mesh itself: each assignment is seen at
    once. *)
Definition heal_triangles : M unit :=
  b <- _has_faces_properties ;
  _ <- when b _remove_faces_properties ;
  faces <- get _faces ;
  faces <- lift (roll_quads faces) ;
  _ <- modify (with_faces faces) ;
  faces <- lift (roll_quads faces) ;
  _ <- modify (with_faces faces) ;
  faces <- lift (roll_quads faces) ;
  _ <- modify (with_faces faces) ;
  modify (with_faces faces).

(** One of the three passes, on one face. *)
Definition roll_if_open (f : face) : face := if is_tri f then f else roll_face f.

(** Two slots that follow each other around the face hold the same vertex. *)
Definition has_repeat (f : face) : Prop :=
  f0 f = f1 f \/ f1 f = f2 f \/ f2 f = f3 f \/ f3 f = f0 f.

(** Three triangles, each with its repeated vertex at another place, and a
    quadrangle. *)
Definition misplaced_mesh : Mesh :=
  Mesh_init [mkvec 0 0 0; mkvec 1 0 0; mkvec 1 1 0; mkvec 0 1 0]
            [mkface 0 0 1 2; mkface 0 1 1 2; mkface 0 1 2 2; mkface 0 1 2 3]
            None 0.

(** ** Removal of the unused vertices *)

(** [sum(mask)] for an array of booleans. *)
Definition sum_bool (mask : list bool) : nat :=
  foldr (fun (b : bool) n => ((if b then 1 else 0) + n)%nat) 0%nat mask.

Definition remove_unused_vertices : M unit :=
  nv <- nb_vertices ;
  vertices <- get _vertices ;
  faces <- get _faces ;
  let used_v := replicate nv false in
  used_v <- lift (mark used_v (concat (map face_list faces))) ;
  let nb_used_v := sum_bool used_v in
  '(vertices, faces) <-
    (if decide (nb_used_v < nv)%nat
     then
       let new_id__v := seq 0 nv in
       new_id__v <- lift (put_mask new_id__v used_v (seq 0 nb_used_v)) ;
       faces <- lift (rmapM (map_face (item new_id__v)) faces) ;
       vertices <- lift (take_mask vertices used_v) ;
       ret (vertices, faces)
     else ret (vertices, faces)) ;
  _ <- modify (with_vertices vertices) ;
  _ <- modify (with_faces faces) ;
  b <- _has_connectivity ;
  when b _remove_connectivity.

(** The connectivity, when cached, is cached with its four entries. *)
Definition connectivity_cached (m : Mesh) : Prop :=
  __internals__ m !! "v_v" = None
  \/ (is_Some (__internals__ m !! "v_f") /\ is_Some (__internals__ m !! "f_f")
      /\ is_Some (__internals__ m !! "boundaries")).

(** The vertex [i] is a slot of some face. *)
Definition used_vertex (F : list face) (i : nat) : Prop :=
  exists f, f ∈ F /\ i ∈ face_list f.

(** ** Bounding boxes *)

(** [np.min] of a column. *)
Definition np_min (l : list R) : result R :=
  match l with
  | [] => Err ValueError
  | x :: l' => Ok (foldl Rmin x l')
  end.

(** The tuple [(xmin, xmax, ymin, ymax, zmin, zmax)]. *)
Definition bbox : Type := R * R * R * R * R * R.

Definition axis_aligned_bbox : M bbox :=
  nv <- nb_vertices ;
  if decide (0 < nv)%nat
  then
    V <- get _vertices ;
    let x := map vx V in
    let y := map vy V in
    let z := map vz V in
    xmin <- lift (np_min x) ; xmax <- lift (np_max x) ;
    ymin <- lift (np_min y) ; ymax <- lift (np_max y) ;
    zmin <- lift (np_min z) ; zmax <- lift (np_max z) ;
    ret (xmin, xmax, ymin, ymax, zmin, zmax)
  else ret (0, 0, 0, 0, 0, 0).

Definition squared_axis_aligned_bbox : M bbox :=
  '(xmin, xmax, ymin, ymax, zmin, zmax) <- axis_aligned_bbox ;
  let x0 := (xmin + xmax) * (1 / 2) in
  let y0 := (ymin + ymax) * (1 / 2) in
  let z0 := (zmin + zmax) * (1 / 2) in
  d <- lift (np_max [(xmax - xmin) * (1 / 2); (ymax - ymin) * (1 / 2);
                     (zmax - zmin) * (1 / 2)]) ;
  ret (x0 - d, x0 + d, y0 - d, y0 + d, z0 - d, z0 + d).

(** The point [p] is inside the box, faces included. *)
Definition in_bbox (b : bbox) (p : vec) : Prop :=
  let '(xmin, xmax, ymin, ymax, zmin, zmax) := b in
  xmin <= vx p <= xmax /\ ymin <= vy p <= ymax /\ zmin <= vz p <= zmax.

(** ** Edge lengths *)

(** The row of [edge_length] of one face: edge [i] joins vertex [i - 1] to
    vertex [i], and [i - 1] is the last vertex for [i = 0]. *)
Definition edge_lengths (q : vec * vec * vec * vec) : list R :=
  let '(v0, v1, v2, v3) := q in
  [ sqrt (dot (vsub v0 v3) (vsub v0 v3));
    sqrt (dot (vsub v1 v0) (vsub v1 v0));
    sqrt (dot (vsub v2 v1) (vsub v2 v1));
    sqrt (dot (vsub v3 v2) (vsub v3 v2)) ].

(** [(edge_length.min(), edge_length.max(), edge_length.mean())] *)
Definition _edges_stats : M (R * R * R) :=
  V <- get _vertices ;
  F <- get _faces ;
  vertices <- lift (rmapM (quad_points V) F) ;
  let edge_length := concat (map edge_lengths vertices) in
  lo <- lift (np_min edge_length) ;
  hi <- lift (np_max edge_length) ;
  ret (lo, hi, sum_R edge_length / INR (length edge_length)).

Definition min_edge_length : M R := s <- _edges_stats ; ret (fst (fst s)).
Definition max_edge_length : M R := s <- _edges_stats ; ret (snd (fst s)).
Definition mean_edge_length : M R := s <- _edges_stats ; ret (snd s).

(** The lengths of the four edges of the face [f]. *)
Definition edges_of (V : list vec) (f : face) : list R :=
  edge_lengths (pt V (f0 f), pt V (f1 f), pt V (f2 f), pt V (f3 f)).

(** The edges of a face as [_connectivity] walks them: the pairs
    [(face_w[index - 1], face_w[index])]. *)
Definition face_edges (f : face) : list (nat * nat) :=
  zip (previous (face_w f)) (face_w f).

(** ** Radiuses of the faces *)

(** An operation on two arrays whose leading sizes are [length a] and
    [length b], with NumPy's broadcasting of a size of one. *)
Definition np_broadcast2 {A B C} (f : A -> B -> C) (a : list A) (b : list B)
  : result (list C) :=
  if decide (length a = length b) then Ok (zip_with f a b)
  else match a, b with
       | [x], _ => Ok (map (f x) b)
       | _, [y] => Ok (map (fun x => f x y) a)
       | _, _ => Err ValueError
       end.

(** [np.max(np.linalg.norm(center - face_vertices, axis=2), axis=0)] for one
    face. *)
Definition radius_of (center : vec) (q : vec * vec * vec * vec) : R :=
  let '(v0, v1, v2, v3) := q in
  Rmax (Rmax (Rmax (norm (vsub center v0)) (norm (vsub center v1)))
             (norm (vsub center v2)))
       (norm (vsub center v3)).

Definition _compute_radiuses : M unit :=
  V <- get _vertices ;
  F <- get _faces ;
  (* Coordinates of all the vertices grouped by face *)
  faces_vertices <- lift (rmapM (quad_points V) F) ;
  (* Get all the vectors between the center of faces and their vertices,
     keep the maximum length *)
  centers <- faces_centers ;
  faces_radiuses <- lift (np_broadcast2 radius_of centers faces_vertices) ;
  write_key "faces_radiuses" (VFloats faces_radiuses).

Definition faces_radiuses : M (list R) :=
  b <- has_key "faces_radiuses" ;
  _ <- when (negb b) _compute_radiuses ;
  v <- read_key "faces_radiuses" ; as_floats v.

(** The radius of the face [f]. *)
Definition face_radius (V : list vec) (f : face) : R :=
  radius_of (center_of V f) (pt V (f0 f), pt V (f1 f), pt V (f2 f), pt V (f3 f)).

(** A collapsed face, the unit square as one quadrangle, and a triangle
    beside it. *)
Definition shifted_mesh : Mesh :=
  Mesh_init [mkvec 0 0 0; mkvec 1 0 0; mkvec 1 1 0; mkvec 0 1 0; mkvec 2 0 0]
            [mkface 0 0 0 0; mkface 0 1 2 3; mkface 1 4 2 1] None 0.

(** * Properties *)

(** ** Running the methods *)

Lemma bind_get {A B} (p : Mesh -> A) (k : A -> M B) m :
  bind (get p) k m = k (p m) m.
Proof. done. Qed.

Lemma bind_lift_Ok {A B} (r : result A) (k : A -> M B) a m :
  r = Ok a -> bind (lift r) k m = k a m.
Proof. by intros ->. Qed.

Lemma bind_modify {B} (f : Mesh -> Mesh) (k : unit -> M B) m :
  bind (modify f) k m = k tt (f m).
Proof. done. Qed.

Lemma bind_Ok {A B} (c : M A) (k : A -> M B) m a m' :
  c m = (Ok a, m') -> bind c k m = k a m'.
Proof. intros H. unfold bind. by rewrite H. Qed.

Lemma bind_Err {A B} (c : M A) (k : A -> M B) m e m' :
  c m = (Err e, m') -> bind c k m = (Err e, m').
Proof. intros H. unfold bind. by rewrite H. Qed.

Lemma has_key_true k m :
  is_Some (__internals__ m !! k) -> has_key k m = (Ok true, m).
Proof. intros H. unfold has_key, get. by rewrite bool_decide_eq_true_2. Qed.

Lemma has_key_false k m :
  __internals__ m !! k = None -> has_key k m = (Ok false, m).
Proof.
  intros H. unfold has_key, get. rewrite bool_decide_eq_false_2; [done|].
  rewrite H. by intros [? ?].
Qed.

Lemma read_key_Some k m v :
  __internals__ m !! k = Some v -> read_key k m = (Ok v, m).
Proof. intros H. unfold read_key. rewrite bind_get. by rewrite H. Qed.

Lemma read_key_None k m :
  __internals__ m !! k = None -> read_key k m = (Err KeyError, m).
Proof. intros H. unfold read_key. rewrite bind_get. by rewrite H. Qed.

(** ** C1: [translate] *)

(** C1 (the code departs from the claim).  [translate t] hands the translated
    array to the [vertices] setter, and the setter empties [__internals__]:
    whatever was cached before, the cache is empty afterwards, so the face
    geometry is dropped with everything else and no center is translated in
    place. *)
Theorem translate_clears_internals (t : vec) (m : Mesh) :
  translate t m =
    (Ok tt,
     with_internals ∅
       (with_vertices (map (fun p => vadd p t) (_vertices m)) m)).
Proof.
  destruct t as [tx ty tz]. unfold translate.
  rewrite (bind_Ok _ _ m (_vertices m) m) by done.
  set (V := map _ (_vertices m)).
  assert (HV : V = map (fun p => vadd p (mkvec tx ty tz)) (_vertices m)).
  { subst V. apply map_ext. by intros [x y z]. }
  rewrite (bind_Ok _ _ m tt (with_internals ∅ (with_vertices V m))) by done.
  unfold update_centers, _has_faces_properties.
  rewrite (bind_Ok _ _ _ tt (with_internals ∅ (with_vertices V m))).
  - rewrite (bind_Ok _ _ _ false (with_internals ∅ (with_vertices V m)))
      by (by apply has_key_false).
    by rewrite HV.
  - by rewrite (bind_Ok _ _ _ false (with_internals ∅ (with_vertices V m)))
      by (by apply has_key_false).
Qed.

Ltac run :=
  cbv [bind ret raise lift get modify when has_key read_key write_key del_key
       clear_internals _has_faces_properties has_surface_integrals
       _remove_surface_integrals as_floats as_points as_ids as_adj as_loops
       as_table of_option];
  cbn [__internals__ _vertices _faces _name _verbose _id
       with_internals with_vertices with_faces with_name with_verbose fst snd].

(** Lookups through the updates of the cache. *)
Ltac keys :=
  repeat (progress
            (cbn;
             rewrite ?lookup_insert_eq, ?lookup_delete_eq, ?lookup_empty;
             repeat rewrite lookup_insert_ne by done;
             repeat rewrite lookup_delete_ne by done;
             repeat match goal with
                    | H : __internals__ _ !! _ = _ |- _ => rewrite H
                    end)).

(** The sibling [translate_x] does keep the face geometry: the areas and the
    normals stay, the centers are shifted in place, and only the surface
    integrals leave the cache. *)
Lemma translate_x_keeps_face_geometry (tx : R) (m : Mesh) areas centers :
  __internals__ m !! "faces_areas" = Some areas ->
  __internals__ m !! "faces_centers" = Some (VPoints centers) ->
  translate_x tx m =
    (Ok tt,
     with_internals
       (delete "surface_integrals"
          (<["faces_centers" := VPoints (map (add_x tx) centers)]> (__internals__ m)))
       (with_vertices (map (add_x tx) (_vertices m)) m)).
Proof.
  intros Ha Hc. unfold translate_x, update_centers. run.
  destruct (__internals__ m !! "surface_integrals") as [s|] eqn:Hs.
  - by keys.
  - keys. rewrite delete_id; [done|]. by keys.
Qed.

(** ** C2: the scalings and the surface integrals *)

(** C2 (the code departs from the claim).  The four scalings guard
    [_remove_faces_properties] by [_has_faces_properties]: when the face
    areas are not cached, the scaling changes the vertices and leaves
    [__internals__] untouched, so cached surface integrals survive it and
    describe the vertices as they were before. *)
Theorem scale_keeps_cache_without_face_geometry (alpha : R) (m : Mesh) :
  0 < alpha ->
  __internals__ m !! "faces_areas" = None ->
  scale alpha m = (Ok tt, with_vertices (map (mul_all alpha) (_vertices m)) m)
  /\ scalex alpha m = (Ok tt, with_vertices (map (mul_x alpha) (_vertices m)) m)
  /\ scaley alpha m = (Ok tt, with_vertices (map (mul_y alpha) (_vertices m)) m)
  /\ scalez alpha m = (Ok tt, with_vertices (map (mul_z alpha) (_vertices m)) m).
Proof.
  intros Hpos Hnone.
  unfold scale, scalex, scaley, scalez. run.
  destruct (Rlt_dec 0 alpha) as [_|Hn]; [|lra].
  by rewrite Hnone.
Qed.

Lemma scale_keeps_cache_without_face_geometry_witness :
  is_Some (__internals__ triangle_mesh_integrated !! "surface_integrals")
  /\ (let m := triangle_mesh_integrated in
      scale 2 m = (Ok tt, with_vertices (map (mul_all 2) (_vertices m)) m)
      /\ scalex 2 m = (Ok tt, with_vertices (map (mul_x 2) (_vertices m)) m)
      /\ scaley 2 m = (Ok tt, with_vertices (map (mul_y 2) (_vertices m)) m)
      /\ scalez 2 m = (Ok tt, with_vertices (map (mul_z 2) (_vertices m)) m)).
Proof.
  split.
  - vm_compute. eauto.
  - apply (scale_keeps_cache_without_face_geometry 2 triangle_mesh_integrated).
    + lra.
    + vm_compute. reflexivity.
Defined.

(** ** Gathering and scattering along a mask *)

Lemma rmapM_Ok {A B} (f : A -> result B) (g : A -> B) (l : list A) :
  (forall x, x ∈ l -> f x = Ok (g x)) -> rmapM f l = Ok (map g l).
Proof.
  induction l as [|a l IH]; intros H; [done|].
  cbn. rewrite (H a) by left. cbn.
  rewrite IH; [done|]. intros x Hx. apply H. by right.
Qed.

Lemma rmapM_map {A B C} (f : B -> result C) (h : A -> B) (l : list A) :
  rmapM f (map h l) = rmapM (fun x => f (h x)) l.
Proof. induction l as [|a l IH]; [done|]. cbn. by rewrite IH. Qed.

Lemma np_where_cons (b : bool) (mask : list bool) :
  np_where (b :: mask) = (if b then [0%nat] else []) ++ map S (np_where mask).
Proof.
  unfold np_where. cbn [length seq].
  assert (Hrest : forall n j,
    filter (fun i => (b :: mask) !! i = Some true) (seq (S j) n)
    = map S (filter (fun i => mask !! i = Some true) (seq j n))).
  { induction n as [|n IH]; intros j; [done|].
    cbn [seq]. rewrite !filter_cons. rewrite IH.
    change ((b :: mask) !! S j) with (mask !! j).
    by destruct (decide (mask !! j = Some true)). }
  rewrite filter_cons, Hrest.
  change ((b :: mask) !! 0%nat) with (Some b).
  destruct b.
  - by rewrite decide_True by done.
  - by rewrite decide_False by done.
Qed.

Lemma take_ids_map_S {A} (a : A) (arr : list A) (ids : list nat) :
  take_ids (a :: arr) (map S ids) = take_ids arr ids.
Proof. unfold take_ids. by rewrite rmapM_map. Qed.

Lemma put_ids_map_S {A} (a : A) (arr : list A) (ids : list nat) (vals : list A) :
  put_ids (a :: arr) (map S ids) vals
  = match put_ids arr ids vals with Ok r => Ok (a :: r) | Err e => Err e end.
Proof.
  revert arr vals. induction ids as [|i ids IH]; intros arr vals.
  - by destruct vals.
  - destruct vals as [|x vals]; [done|]. cbn [map put_ids].
    unfold set_item. cbn [length].
    destruct (decide (i < length arr)%nat).
    + rewrite decide_True by lia. cbn. apply IH.
    + by rewrite decide_False by lia.
Qed.

(** Gathering the rows selected by [P]. *)
Lemma take_ids_where {A} (P : A -> bool) (l : list A) :
  take_ids l (np_where (map P l)) = Ok (filter (fun x => P x = true) l).
Proof.
  induction l as [|a l IH]; [done|].
  cbn [map]. rewrite np_where_cons, filter_cons.
  destruct (P a) eqn:HP.
  - rewrite decide_True by done. cbn [app].
    unfold take_ids. cbn [rmapM]. unfold item at 1. cbn.
    fold (take_ids (a :: l) (map S (np_where (map P l)))).
    by rewrite take_ids_map_S, IH.
  - rewrite decide_False by (by intros ?). cbn [app].
    by rewrite take_ids_map_S, IH.
Qed.

(** Scattering [g] of the selected rows back at their places. *)
Lemma put_ids_where {A B} (P : A -> bool) (g : A -> B) (l : list A) (arr : list B) :
  length arr = length l ->
  put_ids arr (np_where (map P l)) (map g (filter (fun x => P x = true) l))
  = Ok (zip_with (fun x old => if P x then g x else old) l arr).
Proof.
  revert arr. induction l as [|a l IH]; intros arr Hlen.
  - by destruct arr.
  - destruct arr as [|b arr]; [done|]. cbn in Hlen.
    cbn [map]. rewrite np_where_cons, filter_cons.
    destruct (P a) eqn:HP.
    + rewrite decide_True by done. cbn [app map put_ids].
      unfold set_item. rewrite decide_True by (cbn; lia). cbn.
      rewrite put_ids_map_S, IH by lia. cbn. by rewrite HP.
    + rewrite decide_False by (by intros ?). cbn [app].
      rewrite put_ids_map_S, IH by lia. cbn. by rewrite HP.
Qed.

(** Reading back what was scattered. *)
Lemma take_ids_where_zip {A B} (P : A -> bool) (g : A -> B) (l : list A) (arr : list B) :
  length arr = length l ->
  take_ids (zip_with (fun x old => if P x then g x else old) l arr)
           (np_where (map P l))
  = Ok (map g (filter (fun x => P x = true) l)).
Proof.
  revert arr. induction l as [|a l IH]; intros arr Hlen.
  - by destruct arr.
  - destruct arr as [|b arr]; [done|]. cbn in Hlen.
    cbn [map zip_with]. rewrite np_where_cons, filter_cons.
    destruct (P a) eqn:HP.
    + rewrite decide_True by done. cbn [app map].
      unfold take_ids. cbn [rmapM]. unfold item at 1. cbn.
      fold (take_ids (g a :: zip_with (fun x old => if P x then g x else old) l arr)
                     (map S (np_where (map P l)))).
      rewrite take_ids_map_S, IH by lia. done.
    + rewrite decide_False by (by intros ?). cbn [app].
      rewrite take_ids_map_S, IH by lia. done.
Qed.

(** ** The classification read through the cache *)

Lemma classified_idem m :
  classification_ok m ->
  is_Some (__internals__ m !! "triangles_ids") ->
  classified m = m.
Proof.
  unfold classification_ok, classified. intros Hok [v Hv].
  rewrite Hv in Hok. destruct Hok as [-> Hq].
  rewrite (insert_id (__internals__ m) "triangles_ids") by done.
  rewrite insert_id by done. by destruct m.
Qed.

Lemma triangles_ids_spec m :
  classification_ok m ->
  triangles_ids m = (Ok (tri_ids_of (_faces m)), classified m).
Proof.
  intros Hok. unfold triangles_ids.
  destruct (__internals__ m !! "triangles_ids") as [v|] eqn:Hv.
  - rewrite classified_idem by eauto.
    unfold classification_ok in Hok. rewrite Hv in Hok. destruct Hok as [-> Hq].
    unfold _triangles_quadrangles. run. by keys.
  - unfold _triangles_quadrangles, classified. run. by keys.
Qed.

Lemma quadrangles_ids_spec m :
  classification_ok m ->
  quadrangles_ids m = (Ok (quad_ids_of (_faces m)), classified m).
Proof.
  intros Hok. unfold quadrangles_ids.
  destruct (__internals__ m !! "triangles_ids") as [v|] eqn:Hv.
  - rewrite classified_idem by eauto.
    unfold classification_ok in Hok. rewrite Hv in Hok. destruct Hok as [-> Hq].
    unfold _triangles_quadrangles. run. by keys.
  - unfold _triangles_quadrangles, classified. run. by keys.
Qed.

Lemma classified_ok m : classification_ok (classified m).
Proof. unfold classification_ok, classified. by keys. Qed.

Lemma nb_triangles_spec m :
  classification_ok m ->
  nb_triangles m = (Ok (length (tri_ids_of (_faces m))), classified m).
Proof.
  intros Hok. unfold nb_triangles.
  destruct (__internals__ m !! "triangles_ids") as [v|] eqn:Hv.
  - rewrite classified_idem by eauto.
    unfold classification_ok in Hok. rewrite Hv in Hok. destruct Hok as [-> Hq].
    unfold _triangles_quadrangles. run. by keys.
  - unfold _triangles_quadrangles, classified. run. by keys.
Qed.

Lemma nb_quadrangles_spec m :
  classification_ok m ->
  nb_quadrangles m = (Ok (length (quad_ids_of (_faces m))), classified m).
Proof.
  intros Hok. unfold nb_quadrangles.
  destruct (__internals__ m !! "triangles_ids") as [v|] eqn:Hv.
  - rewrite classified_idem by eauto.
    unfold classification_ok in Hok. rewrite Hv in Hok. destruct Hok as [-> Hq].
    unfold _triangles_quadrangles. run. by keys.
  - unfold _triangles_quadrangles, classified. run. by keys.
Qed.

(** ** Face geometry in closed form *)

Lemma zip_with_map_map {A B C D} (f : B -> C -> D) (g : A -> B) (h : A -> C) l :
  zip_with f (map g l) (map h l) = map (fun x => f (g x) (h x)) l.
Proof. induction l as [|a l IH]; [done|]. cbn. by rewrite IH. Qed.

Lemma zip_scatter_both {A B} (P : A -> bool) (gt gq : A -> B) l arr :
  length arr = length l ->
  zip_with (fun x old => if negb (P x) then gq x else old) l
    (zip_with (fun x old => if P x then gt x else old) l arr)
  = map (fun x => if P x then gt x else gq x) l.
Proof.
  revert arr. induction l as [|a l IH]; intros [|b arr] Hlen; try done.
  cbn in *. rewrite IH by lia. by destruct (P a).
Qed.

Lemma zip_scatter_again {A B} (Q : A -> bool) (g2 g3 : A -> B) l arr :
  zip_with (fun x old => if Q x then g3 x else old) l
    (zip_with (fun x old => if Q x then g2 x else old) l arr)
  = zip_with (fun x old => if Q x then g3 x else old) l arr.
Proof.
  revert arr. induction l as [|a l IH]; intros [|b arr]; try done.
  cbn. rewrite IH. by destruct (Q a).
Qed.

Lemma item_pt V i : (i < length V)%nat -> item V i = Ok (pt V i).
Proof.
  intros Hi. unfold item, pt.
  destruct (V !! i) as [v|] eqn:Hv; [done|].
  apply lookup_ge_None in Hv. lia.
Qed.

Lemma tri_points_valid V f :
  Forall (fun i => (i < length V)%nat) (face_list f) ->
  tri_points V f = Ok (pt V (f0 f), pt V (f1 f), pt V (f2 f)).
Proof.
  unfold face_list. intros H.
  apply Forall_cons in H as [H0 H]. apply Forall_cons in H as [H1 H].
  apply Forall_cons in H as [H2 H].
  unfold tri_points. by rewrite !item_pt.
Qed.

Lemma quad_points_valid V f :
  Forall (fun i => (i < length V)%nat) (face_list f) ->
  quad_points V f = Ok (pt V (f0 f), pt V (f1 f), pt V (f2 f), pt V (f3 f)).
Proof.
  unfold face_list. intros H.
  apply Forall_cons in H as [H0 H]. apply Forall_cons in H as [H1 H].
  apply Forall_cons in H as [H2 H]. apply Forall_cons in H as [H3 H].
  unfold quad_points. by rewrite !item_pt.
Qed.

Lemma rmapM_filter_valid {A B} (f : A -> result B) (g : A -> B) (P : A -> Prop)
    `{forall x, Decision (P x)} (Q : A -> Prop) (l : list A) :
  Forall Q l -> (forall x, Q x -> f x = Ok (g x)) ->
  rmapM f (filter P l) = Ok (map g (filter P l)).
Proof.
  intros Hall Hf. apply rmapM_Ok. intros x Hx.
  apply list_elem_of_filter in Hx as [_ Hx].
  apply Hf. by eapply Forall_forall in Hall.
Qed.

Lemma classified_classified m : classified (classified m) = classified m.
Proof.
  apply classified_idem; [apply classified_ok|].
  unfold classified. keys. eauto.
Qed.

Lemma quadrangles_ids_classified m :
  quadrangles_ids (classified m) = (Ok (quad_ids_of (_faces m)), classified m).
Proof.
  rewrite (quadrangles_ids_spec _ (classified_ok m)).
  by rewrite classified_classified.
Qed.

Lemma quad_ids_of_alt F :
  quad_ids_of F = np_where (map (fun f => negb (is_tri f)) F).
Proof. unfold quad_ids_of. by rewrite map_map. Qed.

Lemma _faces_properties_spec m :
  classification_ok m -> valid_faces m ->
  _faces_properties m =
    (Ok tt,
     with_internals
       (<["faces_centers" := VPoints (map (center_of (_vertices m)) (_faces m))]>
          (<["faces_normals" := VPoints (map (normal_of (_vertices m)) (_faces m))]>
             (<["faces_areas" := VFloats (map (area_of (_vertices m)) (_faces m))]>
                (__internals__ (classified m)))))
       m).
Proof.
  intros Hok Hvalid. unfold _faces_properties, nb_faces.
  rewrite !bind_get.
  set (V := _vertices m). set (F := _faces m).
  rewrite (bind_Ok _ _ _ _ _ (triangles_ids_spec m Hok)).
  fold F. unfold tri_ids_of.
  rewrite (bind_lift_Ok _ _ _ _ (take_ids_where is_tri F)).
  rewrite (bind_lift_Ok _ _ (map (fun f => (pt V (f0 f), pt V (f1 f), pt V (f2 f)))
                                 (filter (fun x => is_tri x = true) F)))
    by (eapply rmapM_filter_valid; [exact Hvalid | apply tri_points_valid]).
  rewrite !map_map, !zip_with_map_map.
  rewrite (bind_lift_Ok _ _ _ _ (put_ids_where is_tri _ F _ (length_replicate _ _))).
  rewrite (bind_lift_Ok _ _ _ _ (put_ids_where is_tri _ F _ (length_replicate _ _))).
  rewrite (bind_lift_Ok _ _ _ _ (put_ids_where is_tri _ F _ (length_replicate _ _))).
  rewrite (bind_Ok _ _ _ _ _ (quadrangles_ids_classified m)).
  fold F. rewrite quad_ids_of_alt.
  set (Q := fun f => negb (is_tri f)).
  rewrite (bind_lift_Ok _ _ _ _ (take_ids_where Q F)).
  rewrite (bind_lift_Ok _ _ (map (fun f => (pt V (f0 f), pt V (f1 f), pt V (f2 f), pt V (f3 f)))
                                 (filter (fun x => Q x = true) F)))
    by (eapply rmapM_filter_valid; [exact Hvalid | apply quad_points_valid]).
  rewrite !map_map, !zip_with_map_map.
  assert (Hlen : forall B (h : face -> B -> B) (a : B),
             length (zip_with h F (replicate (length F) a)) = length F).
  { intros. rewrite length_zip_with_l_eq; [done|]. by rewrite length_replicate. }
  rewrite (bind_lift_Ok _ _ _ _ (put_ids_where Q _ F _ (Hlen _ _ _))).
  rewrite (bind_lift_Ok _ _ _ _ (put_ids_where Q _ F _ (Hlen _ _ _))).
  rewrite (bind_lift_Ok _ _ _ _ (put_ids_where Q _ F _ (Hlen _ _ _))).
  rewrite (bind_lift_Ok _ _ _ _ (take_ids_where_zip Q _ F _ (Hlen _ _ _))).
  rewrite (bind_lift_Ok _ _ _ _ (take_ids_where_zip Q _ F _ (Hlen _ _ _))).
  rewrite zip_with_map_map.
  erewrite bind_lift_Ok;
    [|apply put_ids_where; rewrite length_zip_with_l_eq; [done | by rewrite Hlen]].
  rewrite zip_scatter_again.
  subst Q. cbn beta. rewrite !zip_scatter_both by (by rewrite length_replicate).
  reflexivity.
Qed.

Lemma vec_eq a b : vx a = vx b -> vy a = vy b -> vz a = vz b -> a = b.
Proof. destruct a, b. cbn. by intros -> -> ->. Qed.

Lemma norm_unit (n : vec) : norm n <> 0 -> norm (vdiv n (norm n)) = 1.
Proof.
  intros Hn. unfold norm at 1. unfold vdiv. cbn [vx vy vz].
  set (k := norm n) in *.
  assert (Hk : k * k = vx n * vx n + vy n * vy n + vz n * vz n).
  { subst k. unfold norm. rewrite sqrt_sqrt; [done|].
    pose proof (Rle_0_sqr (vx n)). pose proof (Rle_0_sqr (vy n)).
    pose proof (Rle_0_sqr (vz n)). unfold Rsqr in *. lra. }
  replace (vx n / k * (vx n / k) + vy n / k * (vy n / k) + vz n / k * (vz n / k))
    with ((vx n * vx n + vy n * vy n + vz n * vz n) / (k * k)) by (by field).
  rewrite <- Hk. replace (k * k / (k * k)) with 1 by (by field).
  apply sqrt_1.
Qed.

(** ** C5: the geometry of a quadrangle *)

(** C5.  For a quadrangle [f = (i0, i1, i2, i3)] of a mesh whose face indices
    are in range, [_faces_properties] caches, at the place of [f]: as area
    the sum of the areas of the triangles [(v0, v1, v2)] and [(v0, v2, v3)];
    as center the average of the two triangle centroids weighted by these
    areas; as normal [cross (v2 - v0) (v3 - v1)] divided by its length, which
    has length one unless the cross product vanishes. *)
Theorem quadrangle_face_geometry (m : Mesh) (i : nat) (f : face) :
  classification_ok m ->
  valid_faces m ->
  _faces m !! i = Some f ->
  f0 f <> f3 f ->
  let V := _vertices m in
  let v0 := pt V (f0 f) in
  let v1 := pt V (f1 f) in
  let v2 := pt V (f2 f) in
  let v3 := pt V (f3 f) in
  let a1 := norm (cross (vsub v1 v0) (vsub v2 v0)) / 2 in
  let a2 := norm (cross (vsub v3 v0) (vsub v2 v0)) / 2 in
  let c1 := vdiv (vadd (vadd v0 v1) v2) 3 in
  let c2 := vdiv (vadd (vadd v0 v2) v3) 3 in
  let n := cross (vsub v2 v0) (vsub v3 v1) in
  exists areas centers normals m',
    _faces_properties m = (Ok tt, m')
    /\ __internals__ m' !! "faces_areas" = Some (VFloats areas)
    /\ __internals__ m' !! "faces_centers" = Some (VPoints centers)
    /\ __internals__ m' !! "faces_normals" = Some (VPoints normals)
    /\ areas !! i = Some (a1 + a2)
    /\ centers !! i = Some (vdiv (vadd (vscale a1 c1) (vscale a2 c2)) (a1 + a2))
    /\ normals !! i = Some (vdiv n (norm n))
    /\ (norm n <> 0 -> norm (vdiv n (norm n)) = 1).
Proof.
  intros Hok Hvalid Hf Hquad V v0 v1 v2 v3 a1 a2 c1 c2 n.
  assert (Htri : is_tri f = false).
  { unfold is_tri. by rewrite bool_decide_eq_false_2. }
  eexists _, _, _, _. split; [by apply _faces_properties_spec|].
  cbn [__internals__ with_internals]. keys.
  repeat split.
  - change (map ?g ?l) with (g <$> l). rewrite list_lookup_fmap, Hf. cbn.
    unfold area_of. rewrite Htri. f_equal.
    unfold quad_a1, quad_a2. subst a1 a2 v0 v1 v2 v3 V. lra.
  - change (map ?g ?l) with (g <$> l). rewrite list_lookup_fmap, Hf. cbn.
    unfold center_of. rewrite Htri. f_equal.
    replace (quad_a1 (_vertices m) f) with a1
      by (unfold quad_a1; subst a1 v0 v1 v2 v3 V; lra).
    replace (quad_a2 (_vertices m) f) with a2
      by (unfold quad_a2; subst a2 v0 v1 v2 v3 V; lra).
    replace (quad_c2 (_vertices m) f) with c2; [done|].
    unfold quad_c2. subst c2 v0 v1 v2 v3 V.
    apply vec_eq; cbn; lra.
  - change (map ?g ?l) with (g <$> l). rewrite list_lookup_fmap, Hf. cbn.
    unfold normal_of. by rewrite Htri.
  - apply norm_unit.
Qed.

Lemma quadrangle_face_geometry_witness :
  exists areas centers normals m',
    _faces_properties square_mesh = (Ok tt, m')
    /\ __internals__ m' !! "faces_areas" = Some (VFloats areas)
    /\ __internals__ m' !! "faces_centers" = Some (VPoints centers)
    /\ __internals__ m' !! "faces_normals" = Some (VPoints normals)
    /\ areas !! 0%nat =
         Some (norm (cross (vsub (mkvec 1 0 0) (mkvec 0 0 0))
                           (vsub (mkvec 1 1 0) (mkvec 0 0 0))) / 2
               + norm (cross (vsub (mkvec 0 1 0) (mkvec 0 0 0))
                             (vsub (mkvec 1 1 0) (mkvec 0 0 0))) / 2).
Proof.
  destruct (quadrangle_face_geometry square_mesh 0 (mkface 0 1 2 3))
    as (areas & centers & normals & m' & H1 & H2 & H3 & H4 & H5 & _).
  - exact I.
  - repeat constructor; cbn; lia.
  - reflexivity.
  - cbn. lia.
  - exists areas, centers, normals, m'. repeat split; assumption.
Defined.

(** ** Surface integrals in closed form *)

Lemma put_cols_rows {K} (rowf colf resf : K -> list R) (ids : list nat) (ks : list K) :
  (forall k, put_ids (rowf k) ids (colf k) = Ok (resf k)) ->
  put_cols (map rowf ks) ids (map colf ks) = Ok (map resf ks).
Proof.
  intros H. induction ks as [|k ks IH]; [done|].
  cbn. rewrite H. cbn. by rewrite IH.
Qed.

Lemma add_cols_rows {K} (rowf colf resf : K -> list R) (ids : list nat) (ks : list K) :
  (forall k, exists old,
      take_ids (rowf k) ids = Ok old /\ length old = length (colf k)
      /\ put_ids (rowf k) ids (zip_with Rplus old (colf k)) = Ok (resf k)) ->
  add_cols (map rowf ks) ids (map colf ks) = Ok (map resf ks).
Proof.
  intros H. induction ks as [|k ks IH]; [done|].
  cbn. destruct (H k) as (old & -> & Hlen & Hput). cbn.
  rewrite decide_True by done. cbn. rewrite Hput. cbn. by rewrite IH.
Qed.

Lemma triangles_ids_classified m :
  triangles_ids (classified m) = (Ok (tri_ids_of (_faces m)), classified m).
Proof.
  rewrite (triangles_ids_spec _ (classified_ok m)).
  by rewrite classified_classified.
Qed.

Lemma nb_quadrangles_classified m :
  nb_quadrangles (classified m)
  = (Ok (length (quad_ids_of (_faces m))), classified m).
Proof.
  rewrite (nb_quadrangles_spec _ (classified_ok m)).
  by rewrite classified_classified.
Qed.

Lemma where_nil_filter {A} (P : A -> bool) (l : list A) :
  np_where (map P l) = [] -> filter (fun x => P x = true) l = [].
Proof.
  intros H. pose proof (take_ids_where P l) as Ht. rewrite H in Ht.
  cbn in Ht. by injection Ht as <-.
Qed.

Lemma where_nil_zip {A B} (P : A -> bool) (g : A -> B) (l : list A) (arr : list B) :
  length arr = length l ->
  np_where (map P l) = [] ->
  zip_with (fun x old => if P x then g x else old) l arr = arr.
Proof.
  intros Hlen H. pose proof (put_ids_where P g l arr Hlen) as Hp.
  rewrite H, (where_nil_filter _ _ H) in Hp. cbn in Hp. by injection Hp as <-.
Qed.

Lemma nth_zip_with_plus (a b : list R) (k : nat) :
  length a = length b ->
  nth k (zip_with Rplus a b) 0 = nth k a 0 + nth k b 0.
Proof.
  revert b k. induction a as [|x a IH]; intros [|y b] k Hlen; try done.
  - destruct k; cbn; lra.
  - destruct k; cbn; [done|]. apply IH. cbn in Hlen. lia.
Qed.

Lemma length_triangle_integrals t : length (triangle_integrals t) = 15%nat.
Proof. by destruct t as [[p0 p1] p2]. Qed.

Lemma _compute_faces_integrals_spec m :
  classification_ok m -> valid_faces m ->
  _compute_faces_integrals m =
    (Ok tt,
     with_internals
       (<["surface_integrals" := VTable (table_of (_vertices m) (_faces m))]>
          (__internals__ (classified m)))
       m).
Proof.
  intros Hok Hvalid. unfold _compute_faces_integrals, nb_faces.
  rewrite !bind_get.
  set (V := _vertices m). set (F := _faces m).
  rewrite (bind_Ok _ _ _ _ _ (nb_triangles_spec m Hok)). fold F.
  set (T1 := map (fun k =>
                    zip_with (fun x old =>
                                if is_tri x
                                then nth k (triangle_integrals
                                              (pt V (f0 x), pt V (f1 x), pt V (f2 x))) 0
                                else old)
                             F (replicate (length F) 0))
                 (seq 0 15)).
  rewrite (bind_Ok _ _ (classified m) T1 (classified m)).
  2: { destruct (decide (0 < length (tri_ids_of F))%nat) as [Hpos|Hzero].
       - rewrite (bind_Ok _ _ _ _ _ (triangles_ids_classified m)). fold F.
         unfold tri_ids_of.
         rewrite (bind_lift_Ok _ _ _ _ (take_ids_where is_tri F)).
         rewrite (bind_lift_Ok _ _ (map (fun f => (pt V (f0 f), pt V (f1 f), pt V (f2 f)))
                                        (filter (fun x => is_tri x = true) F)))
           by (eapply rmapM_filter_valid; [exact Hvalid | apply tri_points_valid]).
         unfold lift. f_equal.
         change (replicate 15 (replicate (length F) 0))
           with (map (fun _ : nat => replicate (length F) 0) (seq 0 15)).
         unfold _compute_triangles_integrals.
         apply put_cols_rows. intros k. rewrite map_map.
         apply (put_ids_where is_tri). apply length_replicate.
       - unfold ret. f_equal. f_equal. subst T1.
         change (replicate 15 (replicate (length F) 0))
           with (map (fun _ : nat => replicate (length F) 0) (seq 0 15)).
         apply map_ext. intros k. symmetry. apply where_nil_zip.
         + apply length_replicate.
         + unfold tri_ids_of in Hzero.
           destruct (np_where (map is_tri F)); [done|]. cbn in Hzero. lia. }
  rewrite (bind_Ok _ _ _ _ _ (nb_quadrangles_classified m)). fold F.
  rewrite (bind_Ok _ _ (classified m) (table_of V F) (classified m)); [done|].
  set (Q := fun f => negb (is_tri f)).
  set (g1 := fun (k : nat) (x : face) =>
               nth k (triangle_integrals (pt V (f0 x), pt V (f1 x), pt V (f2 x))) 0).
  set (g2 := fun (k : nat) (x : face) =>
               nth k (triangle_integrals (pt V (f0 x), pt V (f2 x), pt V (f3 x))) 0).
  assert (Hfinal : forall k,
    zip_with (fun x old => if Q x then g1 k x + g2 k x else old) F
      (zip_with (fun x old => if is_tri x then g1 k x else old) F
         (replicate (length F) 0))
    = map (integral V k) F).
  { intros k. subst Q. cbn beta.
    rewrite zip_scatter_both by apply length_replicate.
    apply map_ext. intros x. unfold integral, integrals_of.
    destruct (is_tri x); [done|].
    rewrite nth_zip_with_plus; [done|]. by rewrite !length_triangle_integrals. }
  destruct (decide (0 < length (quad_ids_of F))%nat) as [Hpos|Hzero].
  - rewrite (bind_Ok _ _ _ _ _ (quadrangles_ids_classified m)). fold F.
    rewrite quad_ids_of_alt. fold Q.
    rewrite (bind_lift_Ok _ _ _ _ (take_ids_where Q F)).
    rewrite (bind_lift_Ok _ _ (map (fun f => (pt V (f0 f), pt V (f1 f), pt V (f2 f), pt V (f3 f)))
                                   (filter (fun x => Q x = true) F)))
      by (eapply rmapM_filter_valid; [exact Hvalid | apply quad_points_valid]).
    rewrite !map_map.
    rewrite (bind_lift_Ok _ _
               (map (fun k => zip_with (fun x old => if Q x then g1 k x else old) F
                                (zip_with (fun x old => if is_tri x then g1 k x else old) F
                                   (replicate (length F) 0)))
                    (seq 0 15))).
    2: { unfold _compute_triangles_integrals. subst T1.
         apply put_cols_rows. intros k. rewrite map_map.
         apply (put_ids_where Q (g1 k)).
         rewrite length_zip_with_l_eq; [done|]. by rewrite length_replicate. }
    unfold lift. f_equal. unfold table_of, _compute_triangles_integrals.
    rewrite <- (map_ext _ _ Hfinal).
    apply add_cols_rows. intros k.
    exists (map (g1 k) (filter (fun x => Q x = true) F)).
    assert (Hlen : length (zip_with (fun x old => if is_tri x then g1 k x else old) F
                             (replicate (length F) 0)) = length F).
    { rewrite length_zip_with_l_eq; [done|]. by rewrite length_replicate. }
    split; [|split].
    + by apply (take_ids_where_zip Q (g1 k)).
    + by rewrite !length_map.
    + rewrite map_map, zip_with_map_map.
      rewrite (put_ids_where Q (fun x => g1 k x + g2 k x)).
      * by rewrite zip_scatter_again.
      * rewrite length_zip_with_l_eq; [done|]. by rewrite Hlen.
  - unfold ret. f_equal. f_equal. subst T1. unfold table_of.
    apply map_ext. intros k. rewrite <- Hfinal.
    symmetry. apply where_nil_zip.
    + rewrite length_zip_with_l_eq; [done|]. by rewrite length_replicate.
    + rewrite quad_ids_of_alt in Hzero. fold Q in Hzero.
      destruct (np_where (map Q F)); [done|]. cbn in Hzero. lia.
Qed.

(** ** C4: the volume *)

Lemma sum_R_app a b : sum_R (a ++ b) = sum_R a + sum_R b.
Proof.
  unfold sum_R. induction a as [|x a IH]; cbn [app foldr]; [lra|].
  rewrite IH. lra.
Qed.

Lemma sum_R_map_plus {A} (g h : A -> R) l :
  sum_R (map g l) + sum_R (map h l) = sum_R (map (fun x => g x + h x) l).
Proof.
  unfold sum_R. induction l as [|x l IH]; cbn [map foldr]; [lra|].
  rewrite <- IH. lra.
Qed.

Lemma np_mul_map {A} (g h : A -> R) l :
  np_mul (map g l) (map h l) = Ok (map (fun x => g x * h x) l).
Proof.
  unfold np_mul. rewrite decide_True by (by rewrite !length_map).
  by rewrite zip_with_map_map.
Qed.

Lemma faces_normals_spec m :
  classification_ok m -> valid_faces m -> normals_ok m ->
  exists m',
    faces_normals m = (Ok (map (normal_of (_vertices m)) (_faces m)), m')
    /\ __internals__ m' !! "surface_integrals"
       = __internals__ m !! "surface_integrals".
Proof.
  intros Hok Hvalid Hn. unfold faces_normals.
  destruct (__internals__ m !! "faces_normals") as [v|] eqn:Hv.
  - exists m. unfold normals_ok in Hn. rewrite Hv in Hn. subst v.
    run. by keys.
  - eexists. rewrite (bind_Ok _ _ _ _ _ (has_key_false _ _ Hv)). cbn [negb when].
    rewrite (bind_Ok _ _ _ _ _ (_faces_properties_spec m Hok Hvalid)).
    run. keys. split; [done|]. unfold classified. by keys.
Qed.

(** C4.  On a mesh whose face indices are in range and whose cached
    aggregates, if any, are up to date, [volume] is one third of the sum over
    the faces of the dot product of the normal of the face with its integrals
    of rows 0, 1 and 2. *)
Theorem volume_formula (m : Mesh) :
  classification_ok m -> valid_faces m -> normals_ok m -> integrals_ok m ->
  let V := _vertices m in
  exists m',
    volume m =
      (Ok (sum_R (map (fun f => dot (normal_of V f)
                                    (mkvec (integral V 0 f) (integral V 1 f)
                                           (integral V 2 f)))
                      (_faces m)) / 3),
       m').
Proof.
  intros Hok Hvalid Hn Hi V. unfold volume, _compute_volume.
  assert (Hstep : exists m1,
    (forall B (k : unit -> M B),
        bind has_surface_integrals
          (fun b => bind (when (negb b) _compute_faces_integrals) k) m = k tt m1)
    /\ _vertices m1 = V /\ _faces m1 = _faces m
    /\ __internals__ m1 !! "surface_integrals"
       = Some (VTable (table_of V (_faces m)))
    /\ classification_ok m1
    /\ __internals__ m1 !! "faces_normals" = __internals__ m !! "faces_normals").
  { destruct (__internals__ m !! "surface_integrals") as [v|] eqn:Hv.
    - exists m. unfold integrals_ok in Hi. rewrite Hv in Hi. subst v.
      repeat split; try done.
      intros B k. unfold has_surface_integrals.
      by rewrite (bind_Ok _ _ _ _ _ (has_key_true _ _ (mk_is_Some _ _ Hv))).
    - exists (with_internals
                (<["surface_integrals" := VTable (table_of (_vertices m) (_faces m))]>
                   (__internals__ (classified m)))
                m).
      split; [|repeat split].
      + intros B k. unfold has_surface_integrals.
        rewrite (bind_Ok _ _ _ _ _ (has_key_false _ _ Hv)). cbn [negb when].
        by rewrite (bind_Ok _ _ _ _ _ (_compute_faces_integrals_spec m Hok Hvalid)).
      + by keys.
      + unfold classification_ok, classified. by keys.
      + unfold classified. by keys. }
  destruct Hstep as (m1 & Hrun & HV & HF & Hsi & Hok1 & Hnk).
  rewrite Hrun.
  destruct (faces_normals_spec m1) as (m2 & Hfn & Hsi2); [done| | |].
  { unfold valid_faces. rewrite HV, HF. exact Hvalid. }
  { unfold normals_ok. rewrite Hnk, HV, HF. exact Hn. }
  rewrite (bind_Ok _ _ _ _ _ Hfn). rewrite HV, HF.
  exists m2. rewrite Hsi in Hsi2.
  rewrite (bind_Ok _ _ _ _ _ (read_key_Some _ _ _ Hsi2)). cbn [as_table].
  unfold bind at 1, ret at 1.
  unfold table_of, transpose3. cbn [seq map take].
  rewrite !map_map.
  rewrite (bind_lift_Ok _ _ _ _ (np_mul_map _ _ _)).
  rewrite (bind_lift_Ok _ _ _ _ (np_mul_map _ _ _)).
  rewrite (bind_lift_Ok _ _ _ _ (np_mul_map _ _ _)).
  unfold ret. f_equal. f_equal.
  rewrite !sum_R_app, !sum_R_map_plus.
  f_equal. f_equal. apply map_ext. intros f. unfold dot. cbn. lra.
Qed.

Lemma volume_formula_witness :
  exists m',
    volume square_mesh =
      (Ok (sum_R (map (fun f => dot (normal_of (_vertices square_mesh) f)
                                    (mkvec (integral (_vertices square_mesh) 0 f)
                                           (integral (_vertices square_mesh) 1 f)
                                           (integral (_vertices square_mesh) 2 f)))
                      (_faces square_mesh)) / 3),
       m').
Proof.
  apply (volume_formula square_mesh).
  - exact I.
  - repeat constructor; cbn; lia.
  - exact I.
  - exact I.
Defined.

(** ** C8: mirroring twice *)

Lemma flip_face_involutive f : flip_face (flip_face f) = f.
Proof. by destruct f. Qed.

Lemma mirror_point_involutive (plane : Plane) (p : vec) :
  dot (normal plane) (normal plane) = 1 ->
  mirror_point plane (mirror_point plane p) = p.
Proof.
  intros Hunit. destruct plane as [n d]. cbn [normal c] in *.
  assert (Hd : dot (mirror_point (mkPlane n d) p) n - d = - (dot p n - d)).
  { transitivity ((dot p n - d) * (1 - 2 * dot n n)).
    - unfold mirror_point, dot. cbn. ring.
    - rewrite Hunit. ring. }
  unfold mirror_point at 1. cbn [normal c]. rewrite Hd.
  unfold mirror_point. cbn [normal c].
  apply vec_eq; cbn; ring.
Qed.

Lemma flip_normals_Ok m :
  normals_cached m ->
  exists m', flip_normals m = (Ok tt, m')
             /\ _vertices m' = _vertices m
             /\ _faces m' = map flip_face (_faces m)
             /\ _id m' = _id m /\ _name m' = _name m /\ _verbose m' = _verbose m.
Proof.
  intros Hc. unfold flip_normals. rewrite bind_get, bind_modify.
  destruct (__internals__ m !! "faces_areas") as [a|] eqn:Ha.
  - destruct Hc as [Hc|[ns Hns]]; [congruence|].
    destruct (__internals__ m !! "surface_integrals") as [s|] eqn:Hs.
    + eexists. run. keys. split; [reflexivity|]. done.
    + eexists. run. keys. split; [reflexivity|]. done.
  - destruct (__internals__ m !! "surface_integrals") as [s|] eqn:Hs.
    + eexists. run. keys. split; [reflexivity|]. done.
    + eexists. run. keys. split; [reflexivity|]. done.
Qed.

Lemma mirror_Ok plane m :
  normals_cached m ->
  mirror plane m =
    (Ok tt,
     mkMesh (map (mirror_point plane) (_vertices m)) (map flip_face (_faces m))
            (_id m) (_name m) (_verbose m) ∅).
Proof.
  intros Hc. unfold mirror. rewrite bind_get, bind_modify.
  destruct (flip_normals_Ok (with_vertices (map (mirror_point plane) (_vertices m)) m))
    as (m' & Hflip & HV & HF & Hid & Hname & Hverb); [exact Hc|].
  rewrite (bind_Ok _ _ _ _ _ Hflip).
  unfold clear_internals, modify, with_internals.
  by rewrite HV, HF, Hid, Hname, Hverb.
Qed.

(** C8.  For a plane with a unit normal, [mirror] applied twice gives back
    the vertices and the faces the mesh started with: the map
    [v - 2 (v.n - c) n] is an involution and so is the reversal of a face. *)
Theorem mirror_twice (plane : Plane) (m : Mesh) :
  dot (normal plane) (normal plane) = 1 ->
  normals_cached m ->
  exists m1 m2,
    mirror plane m = (Ok tt, m1)
    /\ mirror plane m1 = (Ok tt, m2)
    /\ _vertices m1 = map (mirror_point plane) (_vertices m)
    /\ _faces m1 = map flip_face (_faces m)
    /\ _vertices m2 = _vertices m
    /\ _faces m2 = _faces m.
Proof.
  intros Hunit Hc. eexists _, _.
  split; [by apply mirror_Ok|].
  split; [apply mirror_Ok; by left|].
  cbn. repeat split.
  - rewrite map_map. rewrite <- (map_id (_vertices m)) at 2.
    apply map_ext. intros p. by apply mirror_point_involutive.
  - rewrite map_map. rewrite <- (map_id (_faces m)) at 2.
    apply map_ext. intros f. apply flip_face_involutive.
Qed.

Lemma mirror_twice_witness :
  exists m1 m2,
    mirror plane_z1 square_mesh = (Ok tt, m1)
    /\ mirror plane_z1 m1 = (Ok tt, m2)
    /\ _vertices m1 = map (mirror_point plane_z1) (_vertices square_mesh)
    /\ _faces m1 = map flip_face (_faces square_mesh)
    /\ _vertices m2 = _vertices square_mesh
    /\ _faces m2 = _faces square_mesh.
Proof.
  apply (mirror_twice plane_z1 square_mesh).
  - unfold dot. cbn. lra.
  - by left.
Defined.

(** ** Triangulation of the quadrangles on an up-to-date classification *)

Lemma take_ids_map {A B} (h : A -> B) (l : list A) (ids : list nat) r :
  take_ids l ids = Ok r -> take_ids (map h l) ids = Ok (map h r).
Proof.
  unfold take_ids. revert r. induction ids as [|i ids IH]; intros r.
  - cbn. by intros [= <-].
  - cbn. unfold item at 1 3.
    change (map h l) with (h <$> l). rewrite list_lookup_fmap.
    destruct (l !! i) as [a|]; cbn; [|done].
    change (h <$> l) with (map h l).
    destruct (rmapM (item l) ids) as [r'|e]; cbn; [|done].
    intros [= <-]. by rewrite (IH r').
Qed.

Lemma zip_with_map_self {A B C} (f : B -> A -> C) (g : A -> B) l :
  zip_with f (map g l) l = map (fun x => f (g x) x) l.
Proof. induction l as [|a l IH]; [done|]. cbn. by rewrite IH. Qed.

Lemma zip_with_self {A C} (f : A -> A -> C) l :
  zip_with f l l = map (fun x => f x x) l.
Proof. induction l as [|a l IH]; [done|]. cbn. by rewrite IH. Qed.

Lemma quadrangles_ids_cached m t q :
  __internals__ m !! "triangles_ids" = Some t ->
  __internals__ m !! "quadrangles_ids" = Some (VIds q) ->
  quadrangles_ids m = (Ok q, m).
Proof. intros Ht Hq. unfold quadrangles_ids. run. by keys. Qed.

(** The two halves of a quadrangle. *)
Lemma triangulate_quadrangles_spec m :
  classification_ok m ->
  let F' :=
    map (fun f => if is_tri f then f else mkface (f0 f) (f2 f) (f3 f) (f0 f))
        (_faces m)
    ++ map (fun q => mkface (f0 q) (f1 q) (f2 q) (f0 q))
           (filter (fun f => negb (is_tri f) = true) (_faces m)) in
  triangulate_quadrangles m =
    (Ok F', mkMesh (_vertices m) F' (_id m) (_name m) (_verbose m) ∅).
Proof.
  intros Hok F'. unfold triangulate_quadrangles.
  rewrite bind_get. set (F := _faces m) in *.
  set (Q := fun f => negb (is_tri f)).
  rewrite (bind_Ok _ _ _ _ _ (quadrangles_ids_spec m Hok)). fold F.
  rewrite quad_ids_of_alt. fold Q.
  rewrite (bind_lift_Ok _ _ _ _ (take_ids_where Q F)).
  assert (Hq : forall F1,
    quadrangles_ids (with_faces F1 (classified m))
    = (Ok (np_where (map Q F)), with_faces F1 (classified m))).
  { intros F1. apply (quadrangles_ids_cached _ (VIds (tri_ids_of F))).
    - unfold classified. by keys.
    - unfold classified. keys. by rewrite quad_ids_of_alt. }
  assert (Hq0 : quadrangles_ids (classified m)
                = (Ok (np_where (map Q F)), classified m)).
  { rewrite quadrangles_ids_classified. by rewrite quad_ids_of_alt. }
  rewrite (bind_Ok _ _ _ _ _ Hq0).
  rewrite (bind_lift_Ok _ _ _ _ (take_ids_map _ _ _ _ (take_ids_where Q F))).
  rewrite (bind_lift_Ok _ _ _ _ (take_ids_where Q F)).
  rewrite zip_with_map_self.
  rewrite (bind_lift_Ok _ _ _ _ (put_ids_where Q _ F F eq_refl)).
  rewrite bind_modify.
  rewrite (bind_Ok _ _ _ _ _ (Hq _)).
  rewrite (bind_lift_Ok _ _ _ _ (take_ids_where_zip Q _ F F eq_refl)).
  rewrite map_map.
  erewrite bind_lift_Ok;
    [|apply (put_ids_where Q); by rewrite length_zip_with_l_eq].
  rewrite bind_modify.
  rewrite zip_scatter_again, zip_with_self, !map_map.
  unfold clear_internals. rewrite !bind_modify. unfold ret.
  subst F' Q. cbn.
  assert (Hmap :
    map (fun x => if negb (is_tri x)
                  then mkface (f0 x) (f2 x) (f3 x) (f0 x) else x) F
    = map (fun f => if is_tri f then f
                    else mkface (f0 f) (f2 f) (f3 f) (f0 f)) F).
  { apply map_ext. intros x. by destruct (is_tri x). }
  by rewrite Hmap.
Qed.

Lemma is_tri_true f : is_tri f = true <-> f0 f = f3 f.
Proof. unfold is_tri. apply bool_decide_eq_true. Qed.

Lemma is_tri_false f : is_tri f = false <-> f0 f <> f3 f.
Proof. unfold is_tri. apply bool_decide_eq_false. Qed.

Lemma filter_all {A} (P : A -> Prop) `{forall x, Decision (P x)} (l : list A) :
  Forall P l -> filter P l = l.
Proof.
  induction 1 as [|x l Hx Hl IH]; [done|].
  rewrite filter_cons, decide_True by done. by rewrite IH.
Qed.

(** On a mesh whose cached classification, if any, is that of the current
    faces, [triangulate_quadrangles] does what is expected of it: it leaves
    the triangles as they are, puts [(v0, v2, v3)] at the place of each
    quadrangle [(v0, v1, v2, v3)], appends the triangles [(v0, v1, v2)] after
    the existing faces in the order of the quadrangles, and empties the
    cache.  Every resulting face then satisfies [face[0] == face[3]], and on
    a mesh of quadrangles only the number of faces doubles. *)
Lemma triangulate_quadrangles_correct (m : Mesh) :
  classification_ok m ->
  exists F',
    triangulate_quadrangles m =
      (Ok F', mkMesh (_vertices m) F' (_id m) (_name m) (_verbose m) ∅)
    /\ F' = map (fun f => if is_tri f then f
                          else mkface (f0 f) (f2 f) (f3 f) (f0 f)) (_faces m)
            ++ map (fun q => mkface (f0 q) (f1 q) (f2 q) (f0 q))
                   (filter (fun f => negb (is_tri f) = true) (_faces m))
    /\ Forall (fun f => f0 f = f3 f) F'
    /\ (Forall (fun f => f0 f <> f3 f) (_faces m) ->
        length F' = (2 * length (_faces m))%nat).
Proof.
  intros Hok. eexists. split; [by apply triangulate_quadrangles_spec|].
  split; [done|]. split.
  - apply Forall_app. split.
    + apply Forall_forall. intros f Hf.
      apply list_elem_of_In, in_map_iff in Hf as (x & <- & _).
      destruct (is_tri x) eqn:Hx; [by apply is_tri_true|done].
    + apply Forall_forall. intros f Hf.
      by apply list_elem_of_In, in_map_iff in Hf as (x & <- & _).
  - intros Hquads. rewrite length_app, !length_map.
    rewrite filter_all; [lia|].
    eapply Forall_impl; [exact Hquads|].
    intros f Hf. cbn. apply is_tri_false in Hf. by rewrite Hf.
Qed.

Lemma triangulate_quadrangles_correct_witness :
  exists F',
    triangulate_quadrangles square_mesh =
      (Ok F', mkMesh (_vertices square_mesh) F' (_id square_mesh)
                     (_name square_mesh) (_verbose square_mesh) ∅)
    /\ F' = [mkface 0 2 3 0; mkface 0 1 2 0]
    /\ Forall (fun f => f0 f = f3 f) F'
    /\ length F' = 2%nat.
Proof.
  destruct (triangulate_quadrangles_correct square_mesh)
    as (F' & Hrun & HF' & Hall & Hlen); [exact I|].
  exists F'. repeat split; [exact Hrun|exact HF'|exact Hall|].
  apply Hlen. repeat constructor. cbn. lia.
Defined.

(** ** C6: extraction of faces *)

Lemma np_where_elem (mask : list bool) (i : nat) :
  i ∈ np_where mask <-> mask !! i = Some true.
Proof.
  unfold np_where. rewrite list_elem_of_filter, elem_of_seq.
  split; [by intros [? _]|]. intros H. split; [done|].
  apply lookup_lt_Some in H. lia.
Qed.

Lemma np_where_sorted (mask : list bool) : StronglySorted lt (np_where mask).
Proof.
  induction mask as [|b mask IH]; [constructor|].
  rewrite np_where_cons.
  assert (Hs : StronglySorted lt (map S (np_where mask))).
  { change (map S (np_where mask)) with (S <$> np_where mask).
    eapply StronglySorted_fmap; [|exact IH]. intros x y. lia. }
  destruct b; [|done]. cbn. constructor; [done|].
  apply Forall_forall. intros x Hx.
  apply list_elem_of_In, in_map_iff in Hx as (y & <- & _). lia.
Qed.

Lemma sorted_lt_NoDup (l : list nat) : StronglySorted lt l -> NoDup l.
Proof.
  induction 1 as [|x l Hl IH Hx]; constructor; [|done].
  intros Hin. eapply Forall_forall in Hx; [|exact Hin]. lia.
Qed.

Lemma mark_spec (mask : list bool) (l : list nat) :
  Forall (fun i => (i < length mask)%nat) l ->
  exists mask',
    mark mask l = Ok mask'
    /\ length mask' = length mask
    /\ forall i, mask' !! i = Some true <-> (mask !! i = Some true \/ i ∈ l).
Proof.
  revert mask. induction l as [|j l IH]; intros mask Hall.
  - exists mask. repeat split; [tauto|]. intros [?|H]; [done|]. by inversion H.
  - apply Forall_cons in Hall as [Hj Hall].
    cbn. unfold set_item. rewrite decide_True by done. cbn.
    destruct (IH (<[j := true]> mask)) as (mask' & Hm & Hlen & Hiff).
    { by rewrite length_insert. }
    exists mask'. split; [done|]. split; [by rewrite Hlen, length_insert|].
    intros i. rewrite Hiff, elem_of_cons.
    destruct (decide (i = j)) as [->|Hne].
    + rewrite list_lookup_insert_eq by done. tauto.
    + rewrite list_lookup_insert_ne by done. tauto.
Qed.

Lemma put_ids_lookup {A} (ids : list nat) (vals arr : list A) :
  NoDup ids -> length vals = length ids ->
  Forall (fun i => (i < length arr)%nat) ids ->
  exists arr',
    put_ids arr ids vals = Ok arr'
    /\ length arr' = length arr
    /\ (forall n i x, ids !! n = Some i -> vals !! n = Some x -> arr' !! i = Some x)
    /\ (forall j, j ∉ ids -> arr' !! j = arr !! j).
Proof.
  revert vals arr. induction ids as [|i ids IH]; intros vals arr Hnd Hlen Hall.
  - destruct vals; [|done]. exists arr.
    split; [done|]. split; [done|]. split; [|done].
    intros n i x Hn. by destruct n.
  - destruct vals as [|x vals]; [done|].
    apply NoDup_cons in Hnd as [Hi Hnd].
    apply Forall_cons in Hall as [Hlt Hall].
    cbn. unfold set_item. rewrite decide_True by done. cbn.
    destruct (IH vals (<[i := x]> arr)) as (arr' & Hput & Hl & Hset & Hframe).
    { done. }
    { cbn in Hlen. lia. }
    { by rewrite length_insert. }
    exists arr'. split; [done|]. split; [by rewrite Hl, length_insert|]. split.
    + intros n j y Hn Hy. destruct n as [|n].
      * cbn in Hn, Hy. injection Hn as <-. injection Hy as <-.
        rewrite (Hframe i Hi). by apply list_lookup_insert_eq.
      * cbn in Hn, Hy. by eapply Hset.
    + intros j Hj. apply not_elem_of_cons in Hj as [Hne Hj].
      rewrite (Hframe j Hj). by apply list_lookup_insert_ne.
Qed.

Lemma rmapM_Forall2 {A B} (f : A -> result B) (R : A -> B -> Prop) (l : list A) :
  (forall x, x ∈ l -> exists y, f x = Ok y /\ R x y) ->
  exists ys, rmapM f l = Ok ys /\ Forall2 R l ys.
Proof.
  induction l as [|a l IH]; intros H.
  - exists []. by split; [|constructor].
  - destruct (H a) as (y & Hy & Hr); [left|].
    destruct IH as (ys & Hys & Hall).
    { intros x Hx. apply H. by right. }
    exists (y :: ys). cbn. rewrite Hy. cbn. rewrite Hys. cbn.
    split; [done|]. by constructor.
Qed.

Lemma extract_faces_spec (m : Mesh) (ids : list nat) (next_id : nat)
    (selected : list face) :
  take_ids (_faces m) ids = Ok selected ->
  Forall (fun f => Forall (fun i => (i < length (_vertices m))%nat) (face_list f))
         selected ->
  exists v_extracted faces_extracted id_v,
    (forall return_index,
        extract_faces ids return_index next_id m =
          (Ok (let em := mkMesh v_extracted faces_extracted next_id
                                ("mesh_extracted_from_" +:+ _name m) (_verbose m) ∅ in
               if return_index then ExtractedWithIndex em id_v else Extracted em),
           m))
    /\ StronglySorted lt id_v
    /\ (forall i, i ∈ id_v <-> exists f, f ∈ selected /\ i ∈ face_list f)
    /\ v_extracted = map (pt (_vertices m)) id_v
    /\ Forall2 (fun f g => sends id_v g f) selected faces_extracted.
Proof.
  intros Hsel Hvalid.
  set (V := _vertices m) in *.
  set (refs := concat (map face_list selected)).
  assert (Hrefs : forall i, i ∈ refs <-> exists f, f ∈ selected /\ i ∈ face_list f).
  { intros i. subst refs. rewrite list_elem_of_In, in_concat. split.
    - intros (l & Hl & Hi). apply in_map_iff in Hl as (f & <- & Hf).
      exists f. by rewrite !list_elem_of_In.
    - intros (f & Hf & Hi). exists (face_list f).
      rewrite in_map_iff, <- list_elem_of_In. split; [|done].
      exists f. by rewrite <- list_elem_of_In. }
  assert (Hrange : Forall (fun i => (i < length (replicate (length V) false))%nat) refs).
  { rewrite length_replicate. apply Forall_forall. intros i Hi.
    apply Hrefs in Hi as (f & Hf & Hi).
    eapply Forall_forall in Hvalid; [|exact Hf].
    by eapply Forall_forall in Hvalid. }
  destruct (mark_spec _ _ Hrange) as (mask & Hmark & Hlen & Hmask).
  rewrite length_replicate in Hlen.
  set (id_v := np_where mask).
  assert (Hid : forall i, i ∈ id_v <-> i ∈ refs).
  { intros i. subst id_v. rewrite np_where_elem, Hmask.
    split; [|tauto]. intros [H|H]; [|done].
    apply lookup_replicate in H as [? _]. done. }
  assert (Hlt : forall i, i ∈ id_v -> (i < length V)%nat).
  { intros i Hi. apply np_where_elem, lookup_lt_Some in Hi. lia. }
  destruct (put_ids_lookup id_v (seq 0 (length id_v)) (seq 0 (length V)))
    as (new_id & Hput & _ & Hnew & _).
  { apply sorted_lt_NoDup, np_where_sorted. }
  { by rewrite length_seq. }
  { rewrite length_seq. apply Forall_forall. exact Hlt. }
  destruct (rmapM_Forall2 (map_face (item new_id))
              (fun f g => sends id_v g f) selected)
    as (faces_extracted & Hfaces & Hsends).
  { intros f Hf.
    assert (Hslot : forall o, o ∈ face_list f ->
              exists n, item new_id o = Ok n /\ id_v !! n = Some o).
    { intros o Ho.
      assert (Hin : o ∈ id_v) by (apply Hid, Hrefs; eauto).
      apply list_elem_of_lookup in Hin as [n Hn].
      exists n. split; [|done]. unfold item.
      rewrite (Hnew n o n Hn); [done|].
      apply lookup_seq. split; [done|]. by apply lookup_lt_Some in Hn. }
    destruct (Hslot (f0 f)) as (a & Ha & Ha'); [apply list_elem_of_In; cbn; tauto|].
    destruct (Hslot (f1 f)) as (b & Hb & Hb'); [apply list_elem_of_In; cbn; tauto|].
    destruct (Hslot (f2 f)) as (c' & Hc & Hc'); [apply list_elem_of_In; cbn; tauto|].
    destruct (Hslot (f3 f)) as (d & Hd & Hd'); [apply list_elem_of_In; cbn; tauto|].
    exists (mkface a b c' d). unfold map_face. rewrite Ha, Hb, Hc, Hd. cbn.
    split; [done|]. unfold sends, face_list. cbn. by repeat constructor. }
  exists (map (pt V) id_v), faces_extracted, id_v.
  split.
  { intros return_index. unfold extract_faces, nb_vertices.
    rewrite !bind_get. rewrite (bind_lift_Ok _ _ _ _ Hsel).
    fold V. fold refs. rewrite (bind_lift_Ok _ _ _ _ Hmark). fold id_v.
    rewrite (bind_lift_Ok _ _ (map (pt V) id_v)).
    2: { apply rmapM_Ok. intros i Hi. apply item_pt. by apply Hlt. }
    rewrite (bind_lift_Ok _ _ _ _ Hput).
    rewrite (bind_lift_Ok _ _ _ _ Hsel).
    rewrite (bind_lift_Ok _ _ _ _ Hfaces). rewrite !bind_get.
    by destruct return_index. }
  split; [apply np_where_sorted|].
  split; [|done].
  intros i. by rewrite Hid, Hrefs.
Qed.

Lemma pt_map_pt V (id_v : list nat) n o :
  id_v !! n = Some o -> pt (map (pt V) id_v) n = pt V o.
Proof.
  intros H. unfold pt at 1.
  change (map (pt V) id_v) with (pt V <$> id_v).
  by rewrite list_lookup_fmap, H.
Qed.

(** C6, as the code has it.  [extract_faces] leaves the mesh as it is and
    builds a mesh whose vertices are the vertices referenced by the selected
    faces, each once, in increasing order of their old index, and whose faces
    are the selected faces with every slot renumbered, so that each new face
    names the same points as the face it comes from.  With [return_index]
    the second component [id_v] lists the old indices of the kept vertices:
    it sends a new index to the old one. *)
Theorem extract_faces_correct (m : Mesh) (ids : list nat) (next_id : nat)
    (selected : list face) :
  take_ids (_faces m) ids = Ok selected ->
  Forall (fun f => Forall (fun i => (i < length (_vertices m))%nat) (face_list f))
         selected ->
  exists em id_v,
    extract_faces ids true next_id m = (Ok (ExtractedWithIndex em id_v), m)
    /\ extract_faces ids false next_id m = (Ok (Extracted em), m)
    /\ StronglySorted lt id_v
    /\ (forall i, i ∈ id_v <-> exists f, f ∈ selected /\ i ∈ face_list f)
    /\ _vertices em = map (pt (_vertices m)) id_v
    /\ Forall2 (fun f g =>
                  sends id_v g f
                  /\ map (pt (_vertices em)) (face_list g)
                     = map (pt (_vertices m)) (face_list f))
               selected (_faces em)
    /\ __internals__ em = ∅.
Proof.
  intros Hsel Hvalid.
  destruct (extract_faces_spec m ids next_id selected Hsel Hvalid)
    as (v & fs & id_v & Hrun & Hsorted & Hmem & -> & Hsends).
  eexists _, id_v.
  split; [apply (Hrun true)|]. split; [apply (Hrun false)|].
  split; [done|]. split; [done|]. split; [done|]. split; [|done].
  cbn. eapply Forall2_impl; [exact Hsends|].
  intros f g Hs. split; [done|].
  unfold sends, face_list in *.
  apply Forall2_cons in Hs as [H0 Hs]. apply Forall2_cons in Hs as [H1 Hs].
  apply Forall2_cons in Hs as [H2 Hs]. apply Forall2_cons in Hs as [H3 _].
  cbn. by rewrite !(pt_map_pt _ _ _ _ H0), !(pt_map_pt _ _ _ _ H1),
                 !(pt_map_pt _ _ _ _ H2), !(pt_map_pt _ _ _ _ H3).
Qed.

Lemma extract_faces_correct_witness :
  exists em id_v,
    extract_faces [0%nat] true 1 offset_mesh
      = (Ok (ExtractedWithIndex em id_v), offset_mesh)
    /\ extract_faces [0%nat] false 1 offset_mesh = (Ok (Extracted em), offset_mesh)
    /\ StronglySorted lt id_v
    /\ _vertices em = map (pt (_vertices offset_mesh)) id_v
    /\ __internals__ em = ∅.
Proof.
  destruct (extract_faces_correct offset_mesh [0%nat] 1 [mkface 1 2 3 1])
    as (em & id_v & H1 & H2 & H3 & _ & H5 & _ & H7).
  - reflexivity.
  - repeat constructor; cbn; lia.
  - exists em, id_v. repeat split; assumption.
Defined.

(** C6, as the claim words it.  Were the returned array the map from old to
    new indices, it would send the slots of the selected face [(1, 2, 3, 1)]
    to those of the new face [(0, 1, 2, 0)].  It is [[1; 2; 3]], which has no
    entry for the last old vertex and sends 1 to 2. *)
Lemma extract_faces_index_is_not_old_to_new :
  exists em id_v,
    extract_faces [0%nat] true 1 offset_mesh
      = (Ok (ExtractedWithIndex em id_v), offset_mesh)
    /\ _faces em = [mkface 0 1 2 0]
    /\ id_v = [1; 2; 3]%nat
    /\ ~ sends id_v (mkface 1 2 3 1) (mkface 0 1 2 0)
    /\ sends id_v (mkface 0 1 2 0) (mkface 1 2 3 1).
Proof.
  exists (mkMesh [mkvec 0 0 0; mkvec 1 0 0; mkvec 0 1 0] [mkface 0 1 2 0] 1
                 "mesh_extracted_from_mesh_0" false ∅), [1; 2; 3]%nat.
  split; [vm_compute; reflexivity|].
  split; [reflexivity|]. split; [reflexivity|]. split.
  - unfold sends, face_list. cbn. intros H.
    apply Forall2_cons in H as [H _]. discriminate H.
  - unfold sends, face_list. cbn. by repeat constructor.
Qed.

(** ** C9: the classification and the number of faces *)

Lemma np_where_length_negb (mask : list bool) :
  (length (np_where mask) + length (np_where (map negb mask)) = length mask)%nat.
Proof.
  induction mask as [|b mask IH]; [done|].
  cbn [map]. rewrite !np_where_cons, !length_app, !length_map.
  destruct b; cbn; lia.
Qed.

(** A fresh classification is a partition of the face indices. *)
Lemma classification_partition (F : list face) :
  (length (tri_ids_of F) + length (quad_ids_of F) = length F)%nat
  /\ forall i, (i < length F)%nat ->
       (i ∈ tri_ids_of F \/ i ∈ quad_ids_of F)
       /\ ~ (i ∈ tri_ids_of F /\ i ∈ quad_ids_of F).
Proof.
  split.
  - unfold tri_ids_of, quad_ids_of.
    rewrite np_where_length_negb. apply length_map.
  - intros i Hi. unfold tri_ids_of, quad_ids_of.
    rewrite !np_where_elem.
    change (map negb (map is_tri F)) with (negb <$> (is_tri <$> F)).
    change (map is_tri F) with (is_tri <$> F).
    rewrite !list_lookup_fmap.
    destruct (lookup_lt_is_Some_2 F i Hi) as [f ->]. cbn.
    destruct (is_tri f); cbn; split; try tauto; intros [? ?]; done.
Qed.

Lemma nb_triangles_plus_nb_quadrangles (m : Mesh) :
  classification_ok m ->
  exists m',
    nb_triangles m = (Ok (length (tri_ids_of (_faces m))), m')
    /\ nb_quadrangles m' = (Ok (length (quad_ids_of (_faces m))), m')
    /\ nb_faces m' = (Ok (length (_faces m)), m')
    /\ (length (tri_ids_of (_faces m)) + length (quad_ids_of (_faces m))
        = length (_faces m))%nat.
Proof.
  intros Hok. exists (classified m).
  split; [by apply nb_triangles_spec|].
  split; [apply nb_quadrangles_classified|].
  split; [done|]. apply classification_partition.
Qed.

Lemma nb_cached m t q :
  __internals__ m !! "triangles_ids" = Some (VIds t) ->
  __internals__ m !! "quadrangles_ids" = Some (VIds q) ->
  nb_triangles m = (Ok (length t), m) /\ nb_quadrangles m = (Ok (length q), m).
Proof. intros Ht Hq. unfold nb_triangles, nb_quadrangles. run. by keys. Qed.

Lemma remove_degenerated_faces_spec (rtol : R) (m : Mesh) :
  0 < rtol ->
  classification_ok m -> valid_faces m ->
  __internals__ m !! "faces_areas" = None ->
  exists m',
    remove_degenerated_faces rtol m = (Ok tt, m')
    /\ _faces m' = kept_faces rtol (_vertices m) (_faces m)
    /\ __internals__ m' !! "triangles_ids" = Some (VIds (tri_ids_of (_faces m)))
    /\ __internals__ m' !! "quadrangles_ids" = Some (VIds (quad_ids_of (_faces m))).
Proof.
  intros Hpos Hok Hvalid Hnone. unfold remove_degenerated_faces.
  destruct (Rlt_dec 0 rtol) as [_|Hn]; [|lra].
  unfold bind at 1, ret at 1.
  assert (Hareas : exists m1,
    faces_areas m = (Ok (map (area_of (_vertices m)) (_faces m)), m1)
    /\ _faces m1 = _faces m
    /\ is_Some (__internals__ m1 !! "faces_areas")
    /\ is_Some (__internals__ m1 !! "faces_centers")
    /\ is_Some (__internals__ m1 !! "faces_normals")
    /\ __internals__ m1 !! "triangles_ids" = Some (VIds (tri_ids_of (_faces m)))
    /\ __internals__ m1 !! "quadrangles_ids" = Some (VIds (quad_ids_of (_faces m)))).
  { exists (with_geometry m). unfold faces_areas.
    rewrite (bind_Ok _ _ _ _ _ (has_key_false _ _ Hnone)). cbn [negb when].
    rewrite (bind_Ok _ _ _ _ _ (_faces_properties_spec m Hok Hvalid)).
    fold (with_geometry m).
    assert (Hl : __internals__ (with_geometry m) !! "faces_areas"
                 = Some (VFloats (map (area_of (_vertices m)) (_faces m)))).
    { unfold with_geometry. by keys. }
    rewrite (bind_Ok _ _ _ _ _ (read_key_Some _ _ _ Hl)). cbn [as_floats].
    split; [reflexivity|]. unfold with_geometry, classified. keys.
    repeat split; eauto. }
  destruct Hareas as (m1 & Hfa & HF & Ha & Hc & Hn & Ht & Hq).
  rewrite (bind_Ok _ _ _ _ _ Hfa). rewrite bind_get, HF.
  unfold take_mask. rewrite decide_True.
  2: { unfold lt_mask. by rewrite !length_map. }
  rewrite (bind_lift_Ok _ _ _ _ eq_refl). rewrite bind_modify.
  fold (kept_faces rtol (_vertices m) (_faces m)).
  destruct Ha as [a Ha], Hc as [c' Hc], Hn as [n Hn].
  destruct (__internals__ m1 !! "surface_integrals") as [s|] eqn:Hs.
  - eexists. split.
    { unfold _remove_faces_properties. run. keys. reflexivity. }
    by keys.
  - eexists. split.
    { unfold _remove_faces_properties. run. keys. reflexivity. }
    by keys.
Qed.

(** C9 (the code departs from the claim).  [remove_degenerated_faces]
    replaces the face array and keeps the classification that it cached while
    reading the areas: afterwards [nb_triangles + nb_quadrangles] is the
    number of faces the mesh had before, so the identity with [nb_faces]
    fails as soon as one face has been removed. *)
Theorem remove_degenerated_faces_stale_classification (rtol : R) (m : Mesh) :
  0 < rtol ->
  classification_ok m -> valid_faces m ->
  __internals__ m !! "faces_areas" = None ->
  exists m',
    remove_degenerated_faces rtol m = (Ok tt, m')
    /\ nb_triangles m' = (Ok (length (tri_ids_of (_faces m))), m')
    /\ nb_quadrangles m' = (Ok (length (quad_ids_of (_faces m))), m')
    /\ nb_faces m' = (Ok (length (kept_faces rtol (_vertices m) (_faces m))), m')
    /\ (length (tri_ids_of (_faces m)) + length (quad_ids_of (_faces m))
        = length (_faces m))%nat.
Proof.
  intros Hpos Hok Hvalid Hnone.
  destruct (remove_degenerated_faces_spec rtol m Hpos Hok Hvalid Hnone)
    as (m' & Hrun & HF & Ht & Hq).
  destruct (nb_cached m' _ _ Ht Hq) as [Hnt Hnq].
  exists m'.
  split; [done|]. split; [done|]. split; [done|].
  split; [unfold nb_faces, get; by rewrite HF|].
  apply classification_partition.
Qed.

Lemma sliver_kept :
  kept_faces (1 / 100000) (_vertices sliver_mesh) (_faces sliver_mesh)
  = [mkface 0 1 2 0].
Proof.
  assert (A0 : area_of (_vertices sliver_mesh) (mkface 0 1 2 0) = 1 / 2).
  { unfold area_of. rewrite (proj2 (is_tri_true _)) by reflexivity.
    unfold tri_cross, norm, cross, vsub, pt. cbn.
    match goal with |- context [sqrt ?e] => replace e with 1 by ring end.
    rewrite sqrt_1. lra. }
  assert (A1 : area_of (_vertices sliver_mesh) (mkface 0 0 0 0) = 0).
  { unfold area_of. rewrite (proj2 (is_tri_true _)) by reflexivity.
    unfold tri_cross, norm, cross, vsub, pt. cbn.
    match goal with |- context [sqrt ?e] => replace e with 0 by ring end.
    rewrite sqrt_0. lra. }
  unfold kept_faces. cbn [_faces sliver_mesh Mesh_init map].
  rewrite A0, A1. unfold lt_mask, sum_R. cbn.
  destruct (Rlt_dec (1 / 2) _) as [H|_]; [lra|].
  destruct (Rlt_dec 0 _) as [_|H]; [|lra].
  reflexivity.
Qed.

Lemma remove_degenerated_faces_stale_classification_witness :
  exists m',
    remove_degenerated_faces (1 / 100000) sliver_mesh = (Ok tt, m')
    /\ nb_triangles m' = (Ok 2%nat, m')
    /\ nb_quadrangles m' = (Ok 0%nat, m')
    /\ nb_faces m' = (Ok 1%nat, m').
Proof.
  destruct (remove_degenerated_faces_stale_classification (1 / 100000) sliver_mesh)
    as (m' & Hrun & Hnt & Hnq & Hnf & _).
  - lra.
  - exact I.
  - repeat constructor; cbn; lia.
  - reflexivity.
  - exists m'. rewrite sliver_kept in Hnf. repeat split; assumption.
Defined.

(** ** C3: a non-manifold edge *)

Lemma rfold_fails {A S} (f : S -> A -> result S) (l : list A) (x : A) :
  x ∈ l -> (forall s, exists e, f s x = Err e) ->
  forall s, exists e, rfold f l s = Err e.
Proof.
  intros Hx Hf. induction l as [|a l IH]; intros s; [by inversion Hx|].
  cbn. apply elem_of_cons in Hx as [->|Hx].
  - destruct (Hf s) as [e ->]. by exists e.
  - destruct (f s a) as [s'|e]; cbn; [by apply IH|by exists e].
Qed.

Section ConnectivityProperties.

Variable set_order : gset nat -> list nat.
Hypothesis set_order_perm : forall s, set_order s ≡ₚ elements s.

Lemma set_order_length s : length (set_order s) = size s.
Proof. by rewrite (set_order_perm s). Qed.

Lemma set_order_elem s x : x ∈ set_order s <-> x ∈ s.
Proof. by rewrite (set_order_perm s), elem_of_elements. Qed.

Lemma edge_step_fails F v_f ivertex set1 iadj_v acc :
  size (set1 ∩ default ∅ (v_f !! iadj_v)) <> 1%nat ->
  size (set1 ∩ default ∅ (v_f !! iadj_v)) <> 2%nat ->
  exists e, edge_step set_order F v_f ivertex set1 acc iadj_v = Err e.
Proof.
  intros H1 H2. destruct acc as [f_f be]. unfold edge_step, set_at.
  destruct (v_f !! iadj_v) as [set2|]; cbn; [|by eexists].
  cbn in H1, H2. rewrite <- set_order_length in H1, H2.
  destruct (set_order (set1 ∩ set2)) as [|a [|b [|c' l]]]; cbn in *;
    try done; by eexists.
Qed.

Lemma build_ff_fails nv nf F v_v v_f i j :
  (i < nv)%nat ->
  j ∈ default ∅ (v_v !! i) ->
  size (shared_faces v_f i j) <> 1%nat ->
  size (shared_faces v_f i j) <> 2%nat ->
  exists e, build_ff set_order nv nf F v_v v_f = Err e.
Proof.
  intros Hi Hj H1 H2. unfold build_ff.
  apply (rfold_fails _ _ i).
  - apply elem_of_seq. lia.
  - intros acc. unfold set_at.
    destruct (v_f !! i) as [set1|] eqn:Hs1; cbn; [|by eexists].
    destruct (v_v !! i) as [adjs|] eqn:Hadj; cbn; [|by eexists].
    apply (rfold_fails _ _ j).
    + by apply set_order_elem.
    + intros acc'. apply edge_step_fails.
      * unfold shared_faces in H1. by rewrite Hs1 in H1.
      * unfold shared_faces in H2. by rewrite Hs1 in H2.
Qed.

(** An exception of [_connectivity] leaves the mesh as it was: the cache is
    only written once the two loops have run to their end. *)
Lemma _connectivity_Err m e m' :
  _connectivity set_order m = (Err e, m') -> m' = m.
Proof.
  unfold _connectivity, nb_vertices, nb_faces. rewrite !bind_get.
  unfold bind at 1, lift at 1.
  destruct (build_vv_vf _ _) as [[v_v v_f]|e1]; [|by intros [= _ <-]].
  unfold bind at 1, lift at 1.
  destruct (build_ff _ _ _ _ _ _) as [[f_f be]|e2]; [|by intros [= _ <-]].
  run. done.
Qed.

(** C3.  When two adjacent vertices have a number of common incident faces
    other than 1 or 2, [_connectivity] raises, and the mesh, cache included,
    is as it was before the call; so none of [v_v], [v_f], [f_f] and
    [boundaries] enters the cache, also when the call comes from one of the
    four properties that read them. *)
Theorem non_manifold_edge_aborts (m : Mesh) (v_v v_f : adj) (i j : nat) :
  build_vv_vf (length (_vertices m)) (_faces m) = Ok (v_v, v_f) ->
  (i < length (_vertices m))%nat ->
  j ∈ default ∅ (v_v !! i) ->
  size (shared_faces v_f i j) <> 1%nat ->
  size (shared_faces v_f i j) <> 2%nat ->
  exists e,
    _connectivity set_order m = (Err e, m)
    /\ (__internals__ m !! "v_v" = None -> vv set_order m = (Err e, m))
    /\ (__internals__ m !! "v_f" = None -> vf set_order m = (Err e, m))
    /\ (__internals__ m !! "f_f" = None -> ff set_order m = (Err e, m))
    /\ (__internals__ m !! "boundaries" = None ->
        boundaries set_order m = (Err e, m)).
Proof.
  intros Hbuild Hi Hj H1 H2.
  destruct (build_ff_fails (length (_vertices m)) (length (_faces m)) (_faces m)
              v_v v_f i j Hi Hj H1 H2) as [e He].
  assert (Hc : _connectivity set_order m = (Err e, m)).
  { unfold _connectivity, nb_vertices, nb_faces. rewrite !bind_get.
    rewrite (bind_lift_Ok _ _ _ _ Hbuild). cbn beta iota.
    unfold bind, lift. by rewrite He. }
  exists e. split; [done|].
  repeat split; intros Hnone.
  - unfold vv. rewrite (bind_Ok _ _ _ _ _ (has_key_false _ _ Hnone)).
    cbn [negb when]. by rewrite (bind_Err _ _ _ _ _ Hc).
  - unfold vf. rewrite (bind_Ok _ _ _ _ _ (has_key_false _ _ Hnone)).
    cbn [negb when]. by rewrite (bind_Err _ _ _ _ _ Hc).
  - unfold ff. rewrite (bind_Ok _ _ _ _ _ (has_key_false _ _ Hnone)).
    cbn [negb when]. by rewrite (bind_Err _ _ _ _ _ Hc).
  - unfold boundaries. rewrite (bind_Ok _ _ _ _ _ (has_key_false _ _ Hnone)).
    cbn [negb when]. by rewrite (bind_Err _ _ _ _ _ Hc).
Qed.

End ConnectivityProperties.

Lemma non_manifold_edge_aborts_witness :
  exists e,
    _connectivity elements fan_mesh = (Err e, fan_mesh)
    /\ ff elements fan_mesh = (Err e, fan_mesh).
Proof.
  destruct (build_vv_vf (length (_vertices fan_mesh)) (_faces fan_mesh))
    as [[v_v v_f]|e0] eqn:Hbuild; [|by vm_compute in Hbuild].
  destruct (non_manifold_edge_aborts elements (fun s => reflexivity _)
              fan_mesh v_v v_f 0 1 Hbuild)
    as (e & Hc & _ & _ & Hff & _).
  - cbn. lia.
  - vm_compute in Hbuild. injection Hbuild as <- <-.
    match goal with |- ?P => apply (bool_decide_unpack P) end. by vm_compute.
  - vm_compute in Hbuild. injection Hbuild as <- <-. by vm_compute.
  - vm_compute in Hbuild. injection Hbuild as <- <-. by vm_compute.
  - exists e. split; [exact Hc|]. by apply Hff.
Defined.

(** ** The face/face dictionary built by [_connectivity] *)

Lemma rfold_inv {A S} (P : S -> Prop) (f : S -> A -> result S) (l : list A) :
  (forall s a s', P s -> a ∈ l -> f s a = Ok s' -> P s') ->
  forall s s', P s -> rfold f l s = Ok s' -> P s'.
Proof.
  induction l as [|a l IH]; intros Hstep s s' Hs; cbn.
  - by intros [= <-].
  - destruct (f s a) as [s1|e] eqn:Hf; cbn; [|done].
    apply IH; [|by eapply Hstep; [| left |]].
    intros ? ? ? ? ?. eapply Hstep; [done|by right].
Qed.

Lemma set_add_adjacent d k x d' :
  set_add d k x = Ok d' ->
  forall a b, adjacent d' a b <-> adjacent d a b \/ (a = k /\ b = x).
Proof.
  unfold set_add, set_at. destruct (d !! k) as [s|] eqn:Hk; cbn; [|done].
  intros [= <-] a b. unfold adjacent.
  destruct (decide (a = k)) as [->|Hne].
  - rewrite lookup_insert_eq. split.
    + intros (s' & [= <-] & Hb). apply elem_of_union in Hb as [Hb|Hb].
      * apply elem_of_singleton in Hb. by right.
      * left. eauto.
    + intros [(s' & Hs' & Hb)|[_ ->]].
      * rewrite Hk in Hs'. injection Hs' as <-.
        eexists. split; [done|]. apply elem_of_union. by right.
      * eexists. split; [done|]. apply elem_of_union. left.
        by apply elem_of_singleton.
  - rewrite lookup_insert_ne by done. split; [by left|].
    intros [H|[? _]]; done.
Qed.

Lemma set_add_keys d k x d' :
  set_add d k x = Ok d' -> forall a, is_Some (d' !! a) <-> is_Some (d !! a).
Proof.
  unfold set_add, set_at. destruct (d !! k) as [s|] eqn:Hk; cbn; [|done].
  intros [= <-] a. destruct (decide (a = k)) as [->|Hne].
  - rewrite lookup_insert_eq, Hk. split; eauto.
  - by rewrite lookup_insert_ne.
Qed.

Lemma set_remove_adjacent d k x d' :
  set_remove d k x = Ok d' ->
  adjacent d k x
  /\ forall a b, adjacent d' a b <-> adjacent d a b /\ ~ (a = k /\ b = x).
Proof.
  unfold set_remove, set_at. destruct (d !! k) as [s|] eqn:Hk; cbn; [|done].
  destruct (decide (x ∈ s)) as [Hx|]; [|done].
  intros [= <-]. split; [by exists s|]. intros a b. unfold adjacent.
  destruct (decide (a = k)) as [->|Hne].
  - rewrite lookup_insert_eq, Hk. split.
    + intros (s' & [= <-] & Hb). apply elem_of_difference in Hb as [Hb Hnx].
      split; [eauto|]. intros [_ ->]. apply Hnx. by apply elem_of_singleton.
    + intros [(s' & [= <-] & Hb) Hn]. eexists. split; [done|].
      apply elem_of_difference. split; [done|].
      intros Hx'. apply elem_of_singleton in Hx'. by apply Hn.
  - rewrite lookup_insert_ne by done. split; [|by intros [? _]].
    intros H. split; [done|]. by intros [? _].
Qed.

Lemma empty_sets_lookup n a s :
  empty_sets n !! a = Some s -> (a < n)%nat /\ s = ∅.
Proof.
  unfold empty_sets. intros H.
  apply elem_of_list_to_map_2 in H.
  apply list_elem_of_In, in_map_iff in H as (i & [= <- <-] & Hi).
  apply in_seq in Hi. split; [lia|done].
Qed.

Section Healing.

Variable set_order : gset nat -> list nat.
Hypothesis set_order_perm : forall s, set_order s ≡ₚ elements s.

Lemma set_order_NoDup s : NoDup (set_order s).
Proof. rewrite (set_order_perm s). apply NoDup_elements. Qed.

Lemma empty_sets_good nf : good_adj nf (empty_sets nf).
Proof.
  assert (Hno : forall a b, ~ adjacent (empty_sets nf) a b).
  { intros a b (s & Hs & Hb). apply empty_sets_lookup in Hs as [_ ->].
    by apply not_elem_of_empty in Hb. }
  split; [|split].
  - intros a b H. by apply Hno in H.
  - intros a. apply Hno.
  - intros a [s Hs]. by apply empty_sets_lookup in Hs as [? _].
Qed.

Lemma edge_step_good nf F v_f ivertex set1 acc iadj_v acc' :
  good_adj nf (fst acc) ->
  edge_step set_order F v_f ivertex set1 acc iadj_v = Ok acc' ->
  good_adj nf (fst acc').
Proof.
  destruct acc as [f_f be]. cbn [fst]. intros (Hsym & Hirr & Hkeys).
  unfold edge_step.
  destruct (set_at v_f iadj_v) as [set2|]; cbn; [|done].
  pose proof (set_order_NoDup (set1 ∩ set2)) as Hnd.
  destruct (set_order (set1 ∩ set2)) as [|i0 [|i1 [|i2 l]]]; [done| | |done].
  - (* a boundary edge: [f_f] is not touched *)
    destruct (item F i0) as [bf|]; cbn; [|done].
    destruct (item _ 1) as [id1|]; cbn; [|done].
    destruct (item _ 0) as [id0|]; cbn; [|done].
    destruct (take_ids _ _) as [[|a [|b [|c' l]]]|]; cbn; try done.
    destruct (decide _); intros [= <-]; by repeat split.
  - (* an edge shared by two faces *)
    destruct (set_add f_f i0 i1) as [f1|] eqn:H1; cbn; [|done].
    destruct (set_add f1 i1 i0) as [f2|] eqn:H2; cbn; [|done].
    intros [= <-]. cbn [fst].
    assert (Hne : i0 <> i1).
    { apply NoDup_cons in Hnd as [Hni _]. intros ->. apply Hni. by left. }
    pose proof (set_add_adjacent _ _ _ _ H1) as A1.
    pose proof (set_add_adjacent _ _ _ _ H2) as A2.
    split; [|split].
    + intros a b. rewrite !A2, !A1. intros [[H|[-> ->]]|[-> ->]].
      * left. left. by apply Hsym.
      * by right.
      * left. by right.
    + intros a. rewrite A2, A1. intros [[H|[-> ?]]|[-> ?]]; [|done|done].
      by apply Hirr in H.
    + intros a. rewrite (set_add_keys _ _ _ _ H2), (set_add_keys _ _ _ _ H1).
      apply Hkeys.
Qed.

Lemma build_ff_good nv nf F v_v v_f f_f be :
  build_ff set_order nv nf F v_v v_f = Ok (f_f, be) -> good_adj nf f_f.
Proof.
  unfold build_ff. intros H.
  apply (rfold_inv (fun acc => good_adj nf (fst acc)) _ _) in H; [done| |].
  - intros acc ivertex acc' Hgood _.
    destruct (set_at v_f ivertex) as [set1|]; cbn; [|done].
    destruct (set_at v_v ivertex) as [adjs|]; cbn; [|done].
    intros Hin.
    eapply (rfold_inv (fun a => good_adj nf (fst a))); [|exact Hgood|exact Hin].
    intros acc1 iadj_v acc2 Hg _. by apply edge_step_good.
  - apply empty_sets_good.
Qed.

(** ** The flood of [heal_normals] *)

Lemma visit_Done tc iface face b st st' :
  visit set_order tc iface face b st = Done st' ->
  (visited st b /\ st' = st)
  \/ (fl_vis st !! b = Some false
      /\ fl_vis st' = <[b := true]> (fl_vis st)
      /\ set_remove (fl_ff st) b iface = Ok (fl_ff st')).
Proof.
  unfold visit, or_fail, item, visited.
  destruct (fl_vis st !! b) as [[|]|] eqn:Hseen; cbn [of_option]; [| |done].
  { intros [= <-]. by left. }
  unfold set_item. destruct (decide _); [|done].
  cbn [fl_faces fl_ff fl_vis fl_stack fl_reversed].
  destruct (set_remove (fl_ff st) b iface) as [f_f|] eqn:Hrem; [|done].
  cbn [fl_faces fl_ff fl_vis fl_stack fl_reversed].
  intros H. right. split; [done|].
  repeat match type of H with
         | context [match ?x with _ => _ end] => destruct x; try done
         end;
    injection H as <-; by cbn.
Qed.

Lemma later_refl st : later st st.
Proof. by repeat split. Qed.

Lemma later_trans st1 st2 st3 : later st1 st2 -> later st2 st3 -> later st1 st3.
Proof.
  intros (V1 & S1 & K1 & L1) (V2 & S2 & K2 & L2). repeat split.
  - intros a Ha. by apply V2, V1.
  - intros a b H. by apply S1, S2.
  - intros a b Ha H. apply K2; [by apply V1|]. by apply K1.
  - by rewrite L2.
Qed.

Lemma one_way_later st st' : one_way st -> later st st' -> one_way st'.
Proof.
  intros (a & b & Ha & Hb & Hab & Hba) (V & S & K & _).
  exists a, b. repeat split; [by apply V|by apply V|by apply K|].
  intros H. by apply Hba, S.
Qed.

Lemma visited_insert st (b a : nat) vis' :
  vis' = <[b := true]> (fl_vis st) ->
  is_Some (fl_vis st !! b) ->
  visited st a -> vis' !! a = Some true.
Proof.
  intros -> Hb Ha. destruct (decide (a = b)) as [->|Hne].
  - apply list_lookup_insert_eq. by apply lookup_lt_is_Some.
  - by rewrite list_lookup_insert_ne.
Qed.

Lemma visit_later tc iface face b st st' :
  visit set_order tc iface face b st = Done st' -> later st st'.
Proof.
  intros H. apply visit_Done in H as [[_ ->]|(Hb & Hvis & Hrem)].
  { apply later_refl. }
  apply set_remove_adjacent in Hrem as [_ Hadj].
  repeat split.
  - intros a Ha. unfold visited. by eapply visited_insert.
  - intros a c Hac. by apply Hadj in Hac as [? _].
  - intros a c Ha Hac. apply Hadj. split; [done|].
    intros [-> _]. unfold visited in Ha. congruence.
  - by rewrite Hvis, length_insert.
Qed.

Lemma visit_all_later tc iface face l st st' :
  visit_all set_order tc iface face l st = Done st' -> later st st'.
Proof.
  revert st. induction l as [|b l IH]; intros st; cbn.
  - intros [= <-]. apply later_refl.
  - destruct (visit _ _ _ _ _ _) as [st1|e st1] eqn:Hv; [|done].
    intros H. eapply later_trans; [by eapply visit_later|by apply IH].
Qed.

Section Flood.

Variable nf : nat.
Variable f0 : adj.
Hypothesis f0_good : good_adj nf f0.

Lemma visit_first_edge tc iface face b st st' :
  processing f0 iface st ->
  adjacent f0 iface b ->
  visit set_order tc iface face b st = Done st' ->
  one_way st'.
Proof.
  destruct f0_good as (Hsym & Hirr & _).
  intros (Hff & Hvi & Hothers) Hedge H.
  pose proof (visit_later _ _ _ _ _ _ H) as (V & _ & _ & _).
  apply visit_Done in H as [[Hb _]|(Hb & Hvis & Hrem)].
  - apply Hothers in Hb as [->|Hiso].
    + by apply Hirr in Hedge.
    + by apply Hsym, Hiso in Hedge.
  - rewrite Hff in Hrem. apply set_remove_adjacent in Hrem as [_ Hadj].
    assert (Hne : iface <> b) by (intros ->; by apply Hirr in Hedge).
    exists iface, b. repeat split.
    + by apply V.
    + unfold visited. rewrite Hvis. apply list_lookup_insert_eq.
      apply lookup_lt_is_Some. eauto.
    + apply Hadj. split; [done|]. by intros [? _].
    + intros Hback. apply Hadj in Hback as [_ Hn]. by apply Hn.
Qed.

Lemma visit_all_first_edge tc iface face l st st' :
  one_way st \/ processing f0 iface st ->
  Forall (adjacent f0 iface) l ->
  visit_all set_order tc iface face l st = Done st' ->
  one_way st' \/ (l = [] /\ st' = st).
Proof.
  intros Hst Hl. destruct l as [|b l]; cbn.
  { intros [= <-]. by right. }
  apply Forall_cons in Hl as [Hb _].
  destruct (visit _ _ _ _ _ _) as [st1|e st1] eqn:Hv; [|done].
  intros Hrest. left.
  apply (one_way_later st1); [|by eapply visit_all_later].
  destruct Hst as [Hw|Hp].
  - eapply one_way_later; [done|by eapply visit_later].
  - by eapply visit_first_edge.
Qed.

Lemma restart_None st :
  restart st = None ->
  fl_stack st = [] /\ forall a, (a < length (fl_vis st))%nat -> visited st a.
Proof.
  unfold restart. destruct (fl_stack st); [|done].
  destruct (np_where _) as [|i l] eqn:Hw; [|done].
  intros _. split; [done|]. intros a Ha. unfold visited.
  destruct (lookup_lt_is_Some_2 _ _ Ha) as [[|] Hv]; [done|].
  assert (Hin : a ∈ np_where (map negb (fl_vis st))).
  { apply np_where_elem. change (map negb ?l) with (negb <$> l).
    by rewrite list_lookup_fmap, Hv. }
  rewrite Hw in Hin. by inversion Hin.
Qed.

Lemma restart_Some st st1 :
  restart st = Some st1 ->
  (fl_stack st <> [] /\ st1 = st)
  \/ (fl_stack st = []
      /\ exists iface,
           fl_vis st !! iface = Some false
           /\ st1 = mkFlood (fl_faces st) (fl_ff st) (<[iface := true]> (fl_vis st))
                            [iface] (fl_reversed st)).
Proof.
  unfold restart. destruct (fl_stack st) as [|x stack]; [|intros [= <-]; by left].
  destruct (np_where _) as [|i l] eqn:Hw; [done|].
  intros [= <-]. right. split; [done|]. exists i. split; [|done].
  assert (Hin : i ∈ np_where (map negb (fl_vis st))) by (rewrite Hw; left).
  apply np_where_elem in Hin. change (map negb ?l) with (negb <$> l) in Hin.
  rewrite list_lookup_fmap in Hin.
  destruct (fl_vis st !! i) as [[|]|]; done.
Qed.

Lemma restart_later st st1 : restart st = Some st1 -> later st st1.
Proof.
  intros H. apply restart_Some in H as [[_ ->]|(_ & i & Hi & ->)].
  { apply later_refl. }
  repeat split; cbn; try done.
  - intros a Ha. unfold visited. cbn. by eapply visited_insert.
  - by rewrite length_insert.
Qed.

Lemma restart_untouched st st1 :
  untouched f0 st -> restart st = Some st1 ->
  untouched f0 st1 /\ fl_stack st1 <> [].
Proof.
  intros (Hff & Hlen & Hstack & Hvis) H.
  apply restart_Some in H as [[Hne ->]|(Hnil & i & Hi & ->)].
  { by repeat split. }
  split; [|done]. repeat split; cbn; [done|lia| |].
  - intros a Ha. apply list_elem_of_singleton in Ha as ->.
    unfold visited. cbn. apply list_lookup_insert_eq.
    apply lookup_lt_is_Some. eauto.
  - intros a Ha. unfold visited in Ha. cbn in Ha.
    destruct (decide (a = i)) as [->|Hne]; [left; by left|].
    rewrite list_lookup_insert_ne in Ha by done.
    apply Hvis in Ha as [Ha|Ha]; [|by right].
    rewrite Hnil in Ha. by inversion Ha.
Qed.

Lemma flood_loop_Done fuel tc st st' :
  one_way st \/ untouched f0 st ->
  flood_loop set_order fuel tc st = Done st' ->
  (one_way st' \/ untouched f0 st')
  /\ fl_stack st' = []
  /\ (forall a, (a < length (fl_vis st'))%nat -> visited st' a)
  /\ later st st'.
Proof.
  revert st. induction fuel as [|fuel IH]; intros st Hst; cbn; [done|].
  destruct (restart st) as [st1|] eqn:Hr.
  2: { intros [= <-]. apply restart_None in Hr as [Hnil Hall].
       split; [done|]. split; [done|]. split; [done|]. apply later_refl. }
  pose proof (restart_later _ _ Hr) as Hl1.
  destruct (fl_stack st1) as [|iface stack] eqn:Hstack1; [done|].
  unfold or_fail. cbn [fl_faces fl_ff fl_vis fl_stack fl_reversed].
  destruct (item (fl_faces st1) iface) as [face|]; [|done].
  destruct (set_at (fl_ff st1) iface) as [nbrs|] eqn:Hn; [|done].
  set (st2 := mkFlood (fl_faces st1) (fl_ff st1) (fl_vis st1) stack (fl_reversed st1)).
  assert (Hl2 : later st1 st2) by (by repeat split).
  destruct (visit_all _ _ _ _ _ _) as [st3|e st3] eqn:Hv; [|done].
  pose proof (visit_all_later _ _ _ _ _ _ Hv) as Hl3.
  intros Hloop.
  assert (Hst3 : one_way st3 \/ untouched f0 st3).
  { destruct Hst as [Hw|Hu].
    - left. eapply one_way_later; [|exact Hl3].
      eapply one_way_later; [|exact Hl2].
      by eapply one_way_later.
    - destruct (restart_untouched _ _ Hu Hr) as [(Hff & Hlen & Hstk & Hvis) _].
      rewrite Hstack1 in Hlen, Hstk, Hvis.
      assert (stack = []) as -> by (destruct stack; [done|cbn in Hlen; lia]).
      assert (Hp : processing f0 iface st2).
      { repeat split; [done|apply Hstk; left|].
        intros a Ha. apply Hvis in Ha as [Ha|Ha]; [|by right].
        apply list_elem_of_singleton in Ha. by left. }
      unfold set_at in Hn. rewrite Hff in Hn.
      destruct (f0 !! iface) as [s|] eqn:Hs; [|done]. injection Hn as <-.
      apply visit_all_first_edge with (st := st2) in Hv as [Hw|[Hnil ->]].
      + by left.
      + right. repeat split; cbn; [done|lia|intros a Ha; by inversion Ha|].
        intros a Ha. right.
        destruct Hp as (_ & _ & Hother). apply Hother in Ha as [->|Hiso]; [|done].
        intros b (s' & Hs' & Hb). rewrite Hs in Hs'. injection Hs' as <-.
        apply (set_order_elem set_order set_order_perm) in Hb.
        rewrite Hnil in Hb. by inversion Hb.
      + by right.
      + apply Forall_forall. intros b Hb. exists s. split; [done|].
        by apply (set_order_elem set_order set_order_perm). }
  destruct (IH st3 Hst3 Hloop) as (H1 & H2 & H3 & H4).
  split; [done|]. split; [done|]. split; [done|].
  eapply later_trans; [exact Hl1|]. eapply later_trans; [exact Hl2|].
  by eapply later_trans.
Qed.

End Flood.

(** What the flood leaves of a face/face dictionary built by
    [_connectivity]: edges are only removed, and as soon as the dictionary has
    an edge one of them is left in one direction only. *)
Lemma flood_one_way nf f0 faces tc st' :
  good_adj nf f0 ->
  (0 < nf)%nat ->
  flood_loop set_order (S nf) tc
    (mkFlood faces f0 (<[0%nat := true]> (replicate nf false)) [0%nat] 0)
  = Done st' ->
  (forall a b, adjacent (fl_ff st') a b -> adjacent f0 a b)
  /\ ((exists a b, adjacent f0 a b) ->
      exists a b, adjacent (fl_ff st') a b /\ ~ adjacent (fl_ff st') b a).
Proof.
  intros Hgood Hnf Hloop.
  set (st0 := mkFlood faces f0 (<[0%nat := true]> (replicate nf false)) [0%nat] 0) in *.
  assert (H0 : untouched f0 st0).
  { split; [done|]. split; [cbn; lia|]. split.
    - intros a Ha. apply list_elem_of_singleton in Ha as ->.
      unfold visited. cbn. apply list_lookup_insert_eq.
      by rewrite length_replicate.
    - intros a Ha. left. unfold visited in Ha. cbn in Ha.
      destruct (decide (a = 0%nat)) as [->|Hne]; [by left|].
      rewrite list_lookup_insert_ne in Ha by done.
      by apply lookup_replicate in Ha as [? _]. }
  destruct (flood_loop_Done nf f0 Hgood _ _ _ _ (or_intror H0) Hloop)
    as (Hend & Hstack & Hall & (_ & Hsub & _ & Hlen)).
  split; [exact Hsub|].
  intros (a & b & Hab).
  destruct Hend as [(x & y & _ & _ & Hxy & Hyx)|(_ & _ & _ & Hvis)].
  { by exists x, y. }
  exfalso.
  assert (Ha : (a < nf)%nat).
  { destruct Hgood as (_ & _ & Hkeys). apply Hkeys.
    destruct Hab as (s & Hs & _). eauto. }
  assert (Hva : visited st' a).
  { apply Hall. rewrite Hlen. cbn. by rewrite length_insert, length_replicate. }
  apply Hvis in Hva as [Hin|Hiso].
  - rewrite Hstack in Hin. by inversion Hin.
  - by apply Hiso in Hab.
Qed.

(** ** What the methods leave in the cache *)

Lemma keeps_bind {A B} k (c : M A) (f : A -> M B) :
  keeps k c -> (forall a, keeps k (f a)) -> keeps k (bind c f).
Proof.
  intros Hc Hf m. unfold bind. specialize (Hc m).
  destruct (c m) as [[a|e] m1]; cbn in *; [|done].
  by rewrite (Hf a m1).
Qed.

Lemma keeps_ret {A} k (a : A) : keeps k (ret a).
Proof. by intros m. Qed.

Lemma keeps_raise {A} k e : keeps k (raise (A := A) e).
Proof. by intros m. Qed.

Lemma keeps_lift {A} k (r : result A) : keeps k (lift r).
Proof. by intros m. Qed.

Lemma keeps_get {A} k (p : Mesh -> A) : keeps k (get p).
Proof. by intros m. Qed.

Lemma keeps_with_faces k F : keeps k (modify (with_faces F)).
Proof. by intros m. Qed.

Lemma keeps_with_vertices k V : keeps k (modify (with_vertices V)).
Proof. by intros m. Qed.

Lemma keeps_has_key k k' : keeps k (has_key k').
Proof. by intros m. Qed.

Lemma keeps_read_key k k' : keeps k (read_key k').
Proof. intros m. unfold read_key. rewrite bind_get. by destruct (_ !! k'). Qed.

Lemma keeps_write_key k k' v : k <> k' -> keeps k (write_key k' v).
Proof. intros Hne m. cbn. by rewrite lookup_insert_ne. Qed.

Lemma keeps_del_key k k' : k <> k' -> keeps k (del_key k').
Proof.
  intros Hne m. unfold del_key, bind, has_key, get.
  destruct (bool_decide _); cbn; [|done]. by rewrite lookup_delete_ne.
Qed.

Lemma keeps_when k b c : keeps k c -> keeps k (when b c).
Proof. intros Hc. destruct b; [done|apply keeps_ret]. Qed.

Lemma keeps_as_floats k v : keeps k (as_floats v).
Proof. by destruct v. Qed.

Lemma keeps_as_points k v : keeps k (as_points v).
Proof. by destruct v. Qed.

Lemma keeps_as_ids k v : keeps k (as_ids v).
Proof. by destruct v. Qed.

Ltac keeps_basic :=
  repeat first
    [ apply keeps_ret | apply keeps_raise | apply keeps_lift
    | apply keeps_with_faces | apply keeps_with_vertices
    | apply keeps_has_key | apply keeps_read_key
    | apply keeps_as_floats | apply keeps_as_points | apply keeps_as_ids
    | apply keeps_write_key; done
    | apply keeps_del_key; done
    | apply keeps_when
    | apply keeps_get
    | apply keeps_bind; [|intros ?] ].

Lemma keeps_triangles_ids k : conn_key k -> keeps k triangles_ids.
Proof.
  intros [->|[->|[->| ->]]];
    unfold triangles_ids, _triangles_quadrangles; cbv zeta; keeps_basic.
Qed.

Lemma keeps_quadrangles_ids k : conn_key k -> keeps k quadrangles_ids.
Proof.
  intros [->|[->|[->| ->]]];
    unfold quadrangles_ids, _triangles_quadrangles; cbv zeta; keeps_basic.
Qed.

Lemma keeps__faces_properties k : conn_key k -> keeps k _faces_properties.
Proof.
  intros Hk. unfold _faces_properties, nb_faces. cbv zeta.
  repeat first
    [ by apply keeps_triangles_ids
    | by apply keeps_quadrangles_ids
    | apply keeps_bind; [|intros ?]
    | apply keeps_lift | apply keeps_get
    | apply keeps_write_key; destruct Hk as [->|[->|[->| ->]]]; done ].
Qed.

Lemma keeps_faces_areas k : conn_key k -> keeps k faces_areas.
Proof.
  intros Hk. unfold faces_areas.
  apply keeps_bind; [apply keeps_has_key|intros b].
  apply keeps_bind; [apply keeps_when; by apply keeps__faces_properties|intros _].
  keeps_basic.
Qed.

Lemma keeps_faces_normals k : conn_key k -> keeps k faces_normals.
Proof.
  intros Hk. unfold faces_normals.
  apply keeps_bind; [apply keeps_has_key|intros b].
  apply keeps_bind; [apply keeps_when; by apply keeps__faces_properties|intros _].
  keeps_basic.
Qed.

Lemma keeps_faces_centers k : conn_key k -> keeps k faces_centers.
Proof.
  intros Hk. unfold faces_centers.
  apply keeps_bind; [apply keeps_has_key|intros b].
  apply keeps_bind; [apply keeps_when; by apply keeps__faces_properties|intros _].
  keeps_basic.
Qed.

Lemma keeps_flip_normals k : conn_key k -> keeps k flip_normals.
Proof.
  intros [->|[->|[->| ->]]];
    unfold flip_normals, _has_faces_properties, has_surface_integrals,
      _remove_surface_integrals; keeps_basic.
Qed.

Lemma keeps__remove_faces_properties k :
  conn_key k -> keeps k _remove_faces_properties.
Proof.
  intros [->|[->|[->| ->]]];
    unfold _remove_faces_properties, _has_faces_properties,
      has_surface_integrals; keeps_basic.
Qed.

Lemma keeps_check_outward k : conn_key k -> keeps k check_outward.
Proof.
  intros Hk. unfold check_outward. cbv zeta.
  repeat first
    [ by apply keeps_faces_areas
    | by apply keeps_faces_normals
    | by apply keeps_faces_centers
    | apply keeps_bind; [|intros ?]
    | apply keeps_lift | apply keeps_get ].
  destruct (Rlt_dec _ _); [by apply keeps_flip_normals|apply keeps_ret].
Qed.
End Healing.

(** ** Reading a run backwards *)

Lemma bind_inv {A B} (c : M A) (k : A -> M B) m b m' :
  bind c k m = (Ok b, m') ->
  exists a m1, c m = (Ok a, m1) /\ k a m1 = (Ok b, m').
Proof.
  unfold bind. destruct (c m) as [[a|e] m1]; [|done]. intros H. by exists a, m1.
Qed.

Lemma keeps_run {A} k (c : M A) m r m1 :
  keeps k c -> c m = (r, m1) -> __internals__ m1 !! k = __internals__ m !! k.
Proof. intros Hk Hc. specialize (Hk m). by rewrite Hc in Hk. Qed.


Section HealNormals.

Variable set_order : gset nat -> list nat.
Hypothesis set_order_perm : forall s, set_order s ≡ₚ elements s.

Lemma _connectivity_Ok m m1 :
  _connectivity set_order m = (Ok tt, m1) ->
  exists v_v v_f f0 be,
    build_vv_vf (length (_vertices m)) (_faces m) = Ok (v_v, v_f)
    /\ build_ff set_order (length (_vertices m)) (length (_faces m)) (_faces m)
         v_v v_f = Ok (f0, be)
    /\ m1 = with_internals
              (<["boundaries" := VLoops (walk_all (length be) be [])]>
                 (<["f_f" := VAdj f0]>
                    (<["v_f" := VAdj v_f]>
                       (<["v_v" := VAdj v_v]> (__internals__ m))))) m.
Proof.
  unfold _connectivity, nb_vertices, nb_faces. rewrite !bind_get.
  destruct (build_vv_vf _ _) as [[v_v v_f]|e] eqn:Hvv; [|done].
  erewrite bind_lift_Ok by done. cbv beta iota.
  destruct (build_ff _ _ _ _ _ _) as [[f0 be]|e] eqn:Hff; [|done].
  erewrite bind_lift_Ok by done. intros H. exists v_v, v_f, f0, be.
  split; [done|]. split; [done|]. by inversion H.
Qed.

Lemma triangles_ids_arrays m r m2 :
  triangles_ids m = (r, m2) ->
  _faces m2 = _faces m /\ _vertices m2 = _vertices m.
Proof.
  unfold triangles_ids, _triangles_quadrangles. run.
  destruct (bool_decide _); cbn; keys.
  - destruct (__internals__ m !! "triangles_ids") as [[]|]; by inversion 1.
  - by inversion 1.
Qed.

Lemma del_key_Ok k m m' :
  del_key k m = (Ok tt, m') -> __internals__ m' !! k = None.
Proof.
  unfold del_key, bind, has_key, get, modify, raise.
  destruct (bool_decide _); [|done]. inversion 1. cbn. apply lookup_delete_eq.
Qed.

Lemma _remove_faces_properties_areas m m' :
  _remove_faces_properties m = (Ok tt, m') ->
  __internals__ m' !! "faces_areas" = None.
Proof.
  unfold _remove_faces_properties. intros H.
  apply bind_inv in H as (b & m1 & Hb & H).
  assert (Eb : bool_decide (is_Some (__internals__ m !! "faces_areas")) = b
               /\ m = m1) by (by inversion Hb).
  destruct Eb as [Eb <-]. clear Hb.
  apply bind_inv in H as ([] & m2 & Hdel & H).
  apply bind_inv in H as (b' & m3 & Hb' & H).
  unfold has_surface_integrals, has_key, get in Hb'. inversion Hb'; subst m3.
  assert (Hk : keeps "faces_areas" (when b' (del_key "surface_integrals"))).
  { apply keeps_when. by apply keeps_del_key. }
  rewrite (keeps_run _ _ _ _ _ Hk H). clear H Hk Hb'.
  destruct b; cbn [when] in Hdel.
  - apply bind_inv in Hdel as ([] & m3 & Hd1 & Hdel).
    apply del_key_Ok in Hd1.
    assert (Hk : keeps "faces_areas"
                   (bind (del_key "faces_centers")
                         (fun _ => del_key "faces_normals"))).
    { apply keeps_bind; [|intros ?]; by apply keeps_del_key. }
    by rewrite (keeps_run _ _ _ _ _ Hk Hdel).
  - inversion Hdel; subst m2. apply bool_decide_eq_false in Eb.
    destruct (__internals__ m !! "faces_areas"); [|done]. by destruct Eb.
Qed.

Lemma vv_fresh m a m1 :
  __internals__ m !! "v_v" = None ->
  vv set_order m = (Ok a, m1) ->
  exists v_f f0 be,
    build_vv_vf (length (_vertices m)) (_faces m) = Ok (a, v_f)
    /\ build_ff set_order (length (_vertices m)) (length (_faces m)) (_faces m)
         a v_f = Ok (f0, be)
    /\ m1 = with_internals
              (<["boundaries" := VLoops (walk_all (length be) be [])]>
                 (<["f_f" := VAdj f0]>
                    (<["v_f" := VAdj v_f]>
                       (<["v_v" := VAdj a]> (__internals__ m))))) m.
Proof.
  intros Hnone. unfold vv. rewrite (bind_Ok _ _ _ _ _ (has_key_false _ _ Hnone)).
  cbn [negb when]. intros H.
  apply bind_inv in H as ([] & m0 & Hc & H).
  apply _connectivity_Ok in Hc as (v_v & v_f & f0 & be & Hvv & Hff & ->).
  erewrite bind_Ok in H.
  2:{ apply read_key_Some. by keys. }
  inversion H; subst. by exists v_f, f0, be.
Qed.

Lemma heal_normals_run m m' :
  __internals__ m !! "v_v" = None ->
  heal_normals set_order m = (Ok tt, m') ->
  exists v_v v_f f0 be st' tc,
    build_vv_vf (length (_vertices m)) (_faces m) = Ok (v_v, v_f)
    /\ build_ff set_order (length (_vertices m)) (length (_faces m)) (_faces m)
         v_v v_f = Ok (f0, be)
    /\ (0 < length (_faces m))%nat
    /\ flood_loop set_order (S (length (_faces m))) tc
         (mkFlood (_faces m) f0
            (<[0%nat := true]> (replicate (length (_faces m)) false)) [0%nat] 0)
       = Done st'
    /\ __internals__ m' !! "v_v" = Some (VAdj v_v)
    /\ __internals__ m' !! "v_f" = Some (VAdj v_f)
    /\ __internals__ m' !! "f_f" = Some (VAdj (fl_ff st'))
    /\ __internals__ m' !! "boundaries"
       = Some (VLoops (walk_all (length be) be []))
    /\ __internals__ m' !! "faces_areas" = None.
Proof.
  intros Hnone Hrun. unfold heal_normals, nb_vertices, nb_faces in Hrun.
  rewrite !bind_get in Hrun.
  apply bind_inv in Hrun as (v_v & m1 & Hvv & Hrun).
  apply (vv_fresh _ _ _ Hnone) in Hvv as (v_f & f0 & be & Hb1 & Hb2 & Hm1).
  exists v_v, v_f, f0, be.
  assert (K1 : __internals__ m1 !! "v_v" = Some (VAdj v_v)) by (subst m1; by keys).
  assert (K2 : __internals__ m1 !! "v_f" = Some (VAdj v_f)) by (subst m1; by keys).
  assert (K3 : __internals__ m1 !! "f_f" = Some (VAdj f0)) by (subst m1; by keys).
  assert (K4 : __internals__ m1 !! "boundaries"
               = Some (VLoops (walk_all (length be) be []))) by (subst m1; by keys).
  assert (HF1 : _faces m1 = _faces m) by (by subst m1).
  clear Hm1.
  unfold vf, ff, boundaries in Hrun.
  rewrite (bind_Ok _ _ _ v_f m1) in Hrun.
  2:{ rewrite (bind_Ok _ _ _ true m1) by (apply has_key_true; by rewrite K2).
      cbn [negb when]. rewrite (bind_Ok _ _ _ tt m1) by done.
      by rewrite (bind_Ok _ _ _ _ _ (read_key_Some _ _ _ K2)). }
  rewrite (bind_Ok _ _ _ f0 m1) in Hrun.
  2:{ rewrite (bind_Ok _ _ _ true m1) by (apply has_key_true; by rewrite K3).
      cbn [negb when]. rewrite (bind_Ok _ _ _ tt m1) by done.
      by rewrite (bind_Ok _ _ _ _ _ (read_key_Some _ _ _ K3)). }
  rewrite (bind_Ok _ _ _ (walk_all (length be) be []) m1) in Hrun.
  2:{ rewrite (bind_Ok _ _ _ true m1) by (apply has_key_true; by rewrite K4).
      cbn [negb when]. rewrite (bind_Ok _ _ _ tt m1) by done.
      by rewrite (bind_Ok _ _ _ _ _ (read_key_Some _ _ _ K4)). }
  apply bind_inv in Hrun as (tids & m2 & Htids & Hrun).
  destruct (triangles_ids_arrays _ _ _ Htids) as [HF2 _].
  assert (K : forall k, conn_key k -> __internals__ m2 !! k = __internals__ m1 !! k).
  { intros k Hk. exact (keeps_run k _ _ _ _ (keeps_triangles_ids k Hk) Htids). }
  apply bind_inv in Hrun as (tc & m3 & Htc & Hrun).
  unfold lift in Htc. inversion Htc; subst m3. clear Htc.
  apply bind_inv in Hrun as (f_vis & m3 & Hvis & Hrun).
  unfold lift, set_item in Hvis.
  destruct (decide _) as [Hlt|]; [|done].
  rewrite length_replicate in Hlt. inversion Hvis; subst m3 f_vis. clear Hvis.
  rewrite bind_get, HF2, HF1 in Hrun.
  destruct (flood_loop _ _ _ _) as [st'|e st'] eqn:Hflood.
  2:{ rewrite !bind_modify in Hrun. unfold write_key in Hrun.
      rewrite bind_modify in Hrun. by unfold bind, raise in Hrun. }
  exists st', tc. split; [done|]. split; [done|]. split; [done|].
  split; [done|].
  rewrite bind_modify in Hrun. unfold write_key in Hrun.
  rewrite bind_modify in Hrun.
  rewrite (bind_Ok _ _ _ tt _ eq_refl) in Hrun.
  apply bind_inv in Hrun as ([] & m4 & Hout & Hrun).
  assert (K' : forall k, conn_key k ->
             __internals__ m4 !! k
             = (<["f_f" := VAdj (fl_ff st')]> (__internals__ m2)) !! k).
  { intros k Hk.
    rewrite (keeps_run k _ _ _ _ (keeps_when k _ _ (keeps_check_outward k Hk)) Hout).
    done. }
  apply bind_inv in Hrun as (b & m5 & Hb & Hrun).
  assert (Eb : bool_decide (is_Some (__internals__ m4 !! "faces_areas")) = b
               /\ m4 = m5) by (by inversion Hb).
  destruct Eb as [Eb <-]. clear Hb.
  assert (K'' : forall k, conn_key k ->
             __internals__ m' !! k = __internals__ m4 !! k).
  { intros k Hk.
    exact (keeps_run k _ _ _ _
             (keeps_when k _ _ (keeps__remove_faces_properties k Hk)) Hrun). }
  rewrite !K'', !K' by (unfold conn_key; tauto).
  rewrite lookup_insert_eq, !lookup_insert_ne by done.
  rewrite !K by (unfold conn_key; tauto).
  split; [done|]. split; [done|]. split; [done|]. split; [done|].
  destruct b; cbn [when] in Hrun.
  - by apply _remove_faces_properties_areas in Hrun.
  - inversion Hrun; subst m'. apply bool_decide_eq_false in Eb.
    destruct (__internals__ m4 !! "faces_areas"); [|done]. by destruct Eb.
Qed.

(** X1.  [heal_normals] never drops the connectivity, and the face/face
    dictionary it leaves in the cache is the one the flood has eaten into.
    On a mesh whose connectivity is not cached, a call that returns leaves
    the four keys [v_v], [v_f], [f_f] and [boundaries] in [__internals__];
    [v_v], [v_f] and [boundaries] are what [_connectivity] computed, and the
    face areas are not cached.  The cached [f_f], which [ff] then returns
    without recomputing, holds only pairs of the computed dictionary, and as
    soon as two faces are adjacent it holds a pair [(a, b)] without the pair
    [(b, a)], which a dictionary computed by [_connectivity] never does. *)
Theorem heal_normals_leaves_flooded_ff (m m' : Mesh) :
  __internals__ m !! "v_v" = None ->
  heal_normals set_order m = (Ok tt, m') ->
  exists v_v v_f f0 be f',
    build_vv_vf (length (_vertices m)) (_faces m) = Ok (v_v, v_f)
    /\ build_ff set_order (length (_vertices m)) (length (_faces m)) (_faces m)
         v_v v_f = Ok (f0, be)
    /\ symmetric_adj f0
    /\ __internals__ m' !! "v_v" = Some (VAdj v_v)
    /\ __internals__ m' !! "v_f" = Some (VAdj v_f)
    /\ __internals__ m' !! "boundaries"
       = Some (VLoops (walk_all (length be) be []))
    /\ __internals__ m' !! "f_f" = Some (VAdj f')
    /\ ff set_order m' = (Ok f', m')
    /\ (forall a b, adjacent f' a b -> adjacent f0 a b)
    /\ ((exists a b, adjacent f0 a b) ->
        exists a b, adjacent f' a b /\ ~ adjacent f' b a)
    /\ __internals__ m' !! "faces_areas" = None.
Proof.
  intros Hnone Hrun.
  destruct (heal_normals_run m m' Hnone Hrun)
    as (v_v & v_f & f0 & be & st' & tc & Hb1 & Hb2 & Hlt & Hflood
        & K1 & K2 & K3 & K4 & K5).
  pose proof (build_ff_good set_order set_order_perm _ _ _ _ _ _ _ Hb2) as Hgood.
  destruct (flood_one_way set_order set_order_perm _ _ _ _ _ Hgood Hlt Hflood)
    as [Hsub Hone].
  exists v_v, v_f, f0, be, (fl_ff st').
  split; [done|]. split; [done|]. split; [apply Hgood|].
  split; [done|]. split; [done|]. split; [done|]. split; [done|].
  split; [|by split].
  unfold ff. rewrite (bind_Ok _ _ _ true m') by (apply has_key_true; by rewrite K3).
  cbn [negb when]. rewrite (bind_Ok _ _ _ tt m') by done.
  by rewrite (bind_Ok _ _ _ _ _ (read_key_Some _ _ _ K3)).
Qed.

End HealNormals.

Lemma heal_normals_leaves_flooded_ff_witness :
  exists v_v v_f f0 be f',
    build_vv_vf (length (_vertices wing_mesh)) (_faces wing_mesh) = Ok (v_v, v_f)
    /\ build_ff elements (length (_vertices wing_mesh))
         (length (_faces wing_mesh)) (_faces wing_mesh) v_v v_f = Ok (f0, be)
    /\ symmetric_adj f0
    /\ __internals__ (snd (heal_normals elements wing_mesh)) !! "v_v"
       = Some (VAdj v_v)
    /\ __internals__ (snd (heal_normals elements wing_mesh)) !! "v_f"
       = Some (VAdj v_f)
    /\ __internals__ (snd (heal_normals elements wing_mesh)) !! "boundaries"
       = Some (VLoops (walk_all (length be) be []))
    /\ __internals__ (snd (heal_normals elements wing_mesh)) !! "f_f"
       = Some (VAdj f')
    /\ ff elements (snd (heal_normals elements wing_mesh))
       = (Ok f', snd (heal_normals elements wing_mesh))
    /\ (forall a b, adjacent f' a b -> adjacent f0 a b)
    /\ ((exists a b, adjacent f0 a b) ->
        exists a b, adjacent f' a b /\ ~ adjacent f' b a)
    /\ __internals__ (snd (heal_normals elements wing_mesh)) !! "faces_areas"
       = None.
Proof.
  apply (heal_normals_leaves_flooded_ff elements (fun s => reflexivity _)
           wing_mesh (snd (heal_normals elements wing_mesh))).
  - reflexivity.
  - vm_compute. reflexivity.
Defined.

(** ** The face/face dictionary that [ff] returns *)

Section FaceAdjacency.

Variable set_order : gset nat -> list nat.
Hypothesis set_order_perm : forall s, set_order s ≡ₚ elements s.

(** X2.  When the face/face dictionary is not cached, the dictionary that
    [ff] computes and returns is symmetric (if [b] is in the set of [a] then
    [a] is in the set of [b]), no face is its own neighbour, every key is
    the index of a face, and the dictionary is in the cache afterwards. *)
Theorem ff_symmetric (m m' : Mesh) (f_f : adj) :
  __internals__ m !! "f_f" = None ->
  ff set_order m = (Ok f_f, m') ->
  symmetric_adj f_f
  /\ irreflexive_adj f_f
  /\ (forall a, is_Some (f_f !! a) -> (a < length (_faces m))%nat)
  /\ __internals__ m' !! "f_f" = Some (VAdj f_f).
Proof.
  intros Hnone. unfold ff.
  rewrite (bind_Ok _ _ _ _ _ (has_key_false _ _ Hnone)). cbn [negb when].
  intros H. apply bind_inv in H as ([] & m0 & Hc & H).
  apply (_connectivity_Ok set_order) in Hc
    as (v_v & v_f & f0 & be & Hvv & Hff & ->).
  erewrite bind_Ok in H by (apply read_key_Some; by keys).
  inversion H; subst.
  destruct (build_ff_good set_order set_order_perm _ _ _ _ _ _ _ Hff)
    as (Hsym & Hirr & Hkeys).
  split; [done|]. split; [done|]. split; [done|]. by keys.
Qed.

End FaceAdjacency.

Lemma ff_symmetric_witness :
  symmetric_adj {[0%nat := {[1%nat]}; 1%nat := {[0%nat]}]}
  /\ irreflexive_adj {[0%nat := {[1%nat]}; 1%nat := {[0%nat]}]}
  /\ (forall a, is_Some (({[0%nat := {[1%nat]}; 1%nat := {[0%nat]}]} : adj) !! a) ->
                (a < length (_faces wing_mesh))%nat)
  /\ __internals__ (snd (ff elements wing_mesh)) !! "f_f"
     = Some (VAdj {[0%nat := {[1%nat]}; 1%nat := {[0%nat]}]}).
Proof.
  apply (ff_symmetric elements (fun s => reflexivity _) wing_mesh
           (snd (ff elements wing_mesh))).
  - reflexivity.
  - vm_compute. reflexivity.
Defined.

(** ** [is_triangle] and [get_face] *)

Lemma is_triangle_in_range (m : Mesh) (i : nat) (f : face) :
  _faces m !! i = Some f ->
  is_triangle (Z.of_nat i) m = (Ok (is_tri f), m).
Proof.
  intros Hf. unfold is_triangle, nb_faces. rewrite bind_get.
  apply lookup_lt_Some in Hf as Hlt.
  destruct (decide _) as [_|Hn]; [|lia].
  rewrite (bind_Ok _ _ _ tt m) by done. rewrite bind_get, Nat2Z.id.
  unfold item. rewrite Hf. done.
Qed.

Lemma quad_ids_elem (F : list face) (i : nat) :
  i ∈ quad_ids_of F <-> exists f, F !! i = Some f /\ is_tri f = false.
Proof.
  unfold quad_ids_of. rewrite np_where_elem, !list_lookup_fmap.
  destruct (F !! i) as [f|]; cbn.
  - split.
    + intros H. exists f. split; [done|]. destruct (is_tri f); [done|done].
    + intros (f' & [= <-] & ->). done.
  - split; [done|]. by intros (f & ? & _).
Qed.

Lemma tri_ids_elem (F : list face) (i : nat) :
  i ∈ tri_ids_of F <-> exists f, F !! i = Some f /\ is_tri f = true.
Proof.
  unfold tri_ids_of. rewrite np_where_elem, list_lookup_fmap.
  destruct (F !! i) as [f|]; cbn.
  - split.
    + intros [= H]. by exists f.
    + intros (f' & [= <-] & ->). done.
  - split; [done|]. by intros (f & ? & _).
Qed.

(** X3.  [is_triangle] agrees with the classification: for the index of a
    face, it answers [True] exactly when the index is in [triangles_ids] and
    [False] exactly when it is in [quadrangles_ids], and it leaves the mesh
    as it is.  Outside [0 <= face_id < nb_faces], negative indices
    included, it raises [AssertionError]. *)
Theorem is_triangle_agrees_with_classification (m : Mesh) (face_id : Z) :
  classification_ok m ->
  ((0 <= face_id < Z.of_nat (length (_faces m)))%Z ->
   exists b tids qids,
     is_triangle face_id m = (Ok b, m)
     /\ fst (triangles_ids m) = Ok tids
     /\ fst (quadrangles_ids m) = Ok qids
     /\ (b = true <-> Z.to_nat face_id ∈ tids)
     /\ (b = false <-> Z.to_nat face_id ∈ qids))
  /\ (~ (0 <= face_id < Z.of_nat (length (_faces m)))%Z ->
      is_triangle face_id m = (Err AssertionError, m)).
Proof.
  intros Hok. split.
  - intros Hr.
    destruct (lookup_lt_is_Some_2 (_faces m) (Z.to_nat face_id)) as [f Hf]; [lia|].
    exists (is_tri f), (tri_ids_of (_faces m)), (quad_ids_of (_faces m)).
    rewrite <- (Z2Nat.id face_id) at 1 by lia.
    rewrite (is_triangle_in_range _ _ _ Hf).
    rewrite triangles_ids_spec, quadrangles_ids_spec by done.
    split; [done|]. split; [done|]. split; [done|].
    rewrite tri_ids_elem, quad_ids_elem. split.
    + split; [by exists f|]. intros (f' & Hf' & Ht). congruence.
    + split; [by exists f|]. intros (f' & Hf' & Ht). congruence.
  - intros Hr. unfold is_triangle, nb_faces. rewrite bind_get.
    by destruct (decide _).
Qed.

(** X4.  [get_face] returns the first three slots of the row when the face
    closes on its first vertex and the four slots otherwise, so a list of
    three or four vertex indices, and changes nothing; outside
    [0 <= face_id < nb_faces] it raises [AssertionError]. *)
Theorem get_face_slots (m : Mesh) (face_id : Z) :
  ((0 <= face_id < Z.of_nat (length (_faces m)))%Z ->
   exists f,
     _faces m !! Z.to_nat face_id = Some f
     /\ get_face face_id m
        = (Ok (if decide (f0 f = f3 f) then [f0 f; f1 f; f2 f]
               else [f0 f; f1 f; f2 f; f3 f]), m))
  /\ (~ (0 <= face_id < Z.of_nat (length (_faces m)))%Z ->
      get_face face_id m = (Err AssertionError, m)).
Proof.
  split.
  - intros Hr.
    destruct (lookup_lt_is_Some_2 (_faces m) (Z.to_nat face_id)) as [f Hf]; [lia|].
    exists f. split; [done|]. unfold get_face.
    rewrite <- (Z2Nat.id face_id) at 1 by lia.
    rewrite (bind_Ok _ _ _ _ _ (is_triangle_in_range _ _ _ Hf)).
    rewrite bind_get. unfold item. rewrite Hf. cbn [of_option].
    erewrite bind_lift_Ok by done. unfold is_tri.
    destruct (decide (f0 f = f3 f)) as [He|He].
    + by rewrite bool_decide_eq_true_2.
    + by rewrite bool_decide_eq_false_2.
  - intros Hr. unfold get_face, is_triangle, nb_faces.
    unfold bind at 1. rewrite bind_get. by destruct (decide _).
Qed.

Lemma is_triangle_agrees_with_classification_witness :
  exists b tids qids,
    is_triangle 0 square_mesh = (Ok b, square_mesh)
    /\ fst (triangles_ids square_mesh) = Ok tids
    /\ fst (quadrangles_ids square_mesh) = Ok qids
    /\ (b = true <-> Z.to_nat 0 ∈ tids)
    /\ (b = false <-> Z.to_nat 0 ∈ qids).
Proof.
  apply (is_triangle_agrees_with_classification square_mesh 0).
  - exact I.
  - cbn. lia.
Defined.

Lemma get_face_slots_witness :
  exists f,
    _faces square_mesh !! Z.to_nat 0 = Some f
    /\ get_face 0 square_mesh
       = (Ok (if decide (f0 f = f3 f) then [f0 f; f1 f; f2 f]
              else [f0 f; f1 f; f2 f; f3 f]), square_mesh).
Proof.
  apply (get_face_slots square_mesh 0). cbn. lia.
Defined.

(** ** Translations, scalings and reversals composed *)

Lemma translate_run (t : vec) (m : Mesh) :
  translate t m =
    (Ok tt,
     with_internals ∅
       (with_vertices (map (fun p => vadd p t) (_vertices m)) m)).
Proof.
  destruct t as [tx ty tz]. unfold translate, set_vertices, update_centers. run.
  by keys.
Qed.

Lemma translate_axis_run (f : vec -> vec) (c : M unit) (m : Mesh) :
  c = (vertices <- get _vertices ;
       _ <- modify (with_vertices (map f vertices)) ;
       _ <- update_centers f ;
       b <- has_surface_integrals ;
       when b _remove_surface_integrals) ->
  geometry_cached m ->
  exists m', c m = (Ok tt, m')
             /\ _vertices m' = map f (_vertices m)
             /\ _faces m' = _faces m
             /\ geometry_cached m'.
Proof.
  intros -> Hg. unfold update_centers. run.
  destruct (__internals__ m !! "faces_areas") as [a|] eqn:Ha.
  - destruct Hg as [Hg|[[cs Hc] [ns Hn]]]; [congruence|].
    destruct (__internals__ m !! "surface_integrals") as [s|] eqn:Hs.
    + eexists. split; [keys; reflexivity|]. cbn. split; [done|]. split; [done|].
      right. keys. eauto.
    + eexists. split; [keys; reflexivity|]. cbn. split; [done|]. split; [done|].
      right. keys. eauto.
  - destruct (__internals__ m !! "surface_integrals") as [s|] eqn:Hs.
    + eexists. split; [keys; reflexivity|]. cbn. split; [done|]. split; [done|].
      left. by keys.
    + eexists. split; [keys; reflexivity|]. cbn. split; [done|]. split; [done|].
      by left.
Qed.

(** X5.  [translate] moves the vertices as [translate_x], [translate_y] and
    [translate_z] do one after the other: on a mesh whose cached face
    geometry, if any, is complete, the three calls in a row return and leave
    the vertex array that [translate (tx, ty, tz)] leaves, each vertex
    shifted by the vector, and the faces are the same. *)
Theorem translate_is_the_three_axis_translations (tx ty tz : R) (m : Mesh) :
  geometry_cached m ->
  exists m1 m2 m3 m',
    translate_x tx m = (Ok tt, m1)
    /\ translate_y ty m1 = (Ok tt, m2)
    /\ translate_z tz m2 = (Ok tt, m3)
    /\ translate (mkvec tx ty tz) m = (Ok tt, m')
    /\ _vertices m3 = _vertices m'
    /\ _vertices m' = map (fun p => vadd p (mkvec tx ty tz)) (_vertices m)
    /\ _faces m3 = _faces m /\ _faces m' = _faces m.
Proof.
  intros Hg.
  destruct (translate_axis_run (add_x tx) (translate_x tx) m eq_refl Hg)
    as (m1 & H1 & V1 & F1 & G1).
  destruct (translate_axis_run (add_y ty) (translate_y ty) m1 eq_refl G1)
    as (m2 & H2 & V2 & F2 & G2).
  destruct (translate_axis_run (add_z tz) (translate_z tz) m2 eq_refl G2)
    as (m3 & H3 & V3 & F3 & G3).
  exists m1, m2, m3. eexists.
  split; [done|]. split; [done|]. split; [done|].
  split; [apply translate_run|]. cbn.
  split; [|split; [done|split; [congruence|done]]].
  rewrite V3, V2, V1, !map_map. apply map_ext. by intros [x y z].
Qed.

Lemma translate_is_the_three_axis_translations_witness :
  exists m1 m2 m3 m',
    translate_x 1 square_mesh = (Ok tt, m1)
    /\ translate_y 2 m1 = (Ok tt, m2)
    /\ translate_z 3 m2 = (Ok tt, m3)
    /\ translate (mkvec 1 2 3) square_mesh = (Ok tt, m')
    /\ _vertices m3 = _vertices m'
    /\ _vertices m' = map (fun p => vadd p (mkvec 1 2 3)) (_vertices square_mesh)
    /\ _faces m3 = _faces square_mesh /\ _faces m' = _faces square_mesh.
Proof.
  apply (translate_is_the_three_axis_translations 1 2 3 square_mesh).
  by left.
Defined.

(** X6.  [translate t] followed by [translate (-t)] gives the vertices back,
    with the same faces; both calls return whatever the cache holds, and the
    cache is empty afterwards. *)
Theorem translate_there_and_back (t : vec) (m : Mesh) :
  exists m1 m2,
    translate t m = (Ok tt, m1)
    /\ translate (vopp t) m1 = (Ok tt, m2)
    /\ _vertices m2 = _vertices m
    /\ _faces m2 = _faces m
    /\ __internals__ m2 = ∅.
Proof.
  eexists _, _. split; [apply translate_run|]. split; [apply translate_run|].
  cbn. split; [|done].
  rewrite map_map. rewrite <- (map_id (_vertices m)) at 2.
  apply map_ext. intros p. apply vec_eq; cbn; ring.
Qed.

Lemma scale_run (k : vec -> vec) (c : M unit) (alpha : R) (m : Mesh) :
  c = (_ <- (if Rlt_dec 0 alpha then ret tt else raise AssertionError) ;
       vertices <- get _vertices ;
       _ <- modify (with_vertices (map k vertices)) ;
       b <- _has_faces_properties ;
       when b _remove_faces_properties) ->
  0 < alpha ->
  geometry_cached m ->
  exists m', c m = (Ok tt, m')
             /\ _vertices m' = map k (_vertices m)
             /\ _faces m' = _faces m
             /\ __internals__ m' !! "faces_areas" = None.
Proof.
  intros -> Hpos Hg. unfold _remove_faces_properties. run.
  destruct (Rlt_dec 0 alpha) as [_|Hn]; [|lra].
  destruct (__internals__ m !! "faces_areas") as [a|] eqn:Ha.
  - destruct Hg as [Hg|[[cs Hc] [ns Hn]]]; [congruence|].
    destruct (__internals__ m !! "surface_integrals") as [s|] eqn:Hs.
    + eexists. split; [keys; reflexivity|]. cbn. by keys.
    + eexists. split; [keys; reflexivity|]. cbn. by keys.
  - eexists. split; [keys; reflexivity|]. cbn. by keys.
Qed.

(** X7.  A scaling is undone by the scaling of the inverse factor: for
    [alpha > 0], on a mesh whose cached face geometry, if any, is complete,
    [scale alpha] then [scale (1 / alpha)] both return and give the vertices
    back; so do [scalex], [scaley] and [scalez]. *)
Theorem scale_there_and_back (alpha : R) (m : Mesh) :
  0 < alpha ->
  geometry_cached m ->
  (exists m1 m2, scale alpha m = (Ok tt, m1) /\ scale (1 / alpha) m1 = (Ok tt, m2)
                 /\ _vertices m2 = _vertices m /\ _faces m2 = _faces m)
  /\ (exists m1 m2, scalex alpha m = (Ok tt, m1) /\ scalex (1 / alpha) m1 = (Ok tt, m2)
                    /\ _vertices m2 = _vertices m /\ _faces m2 = _faces m)
  /\ (exists m1 m2, scaley alpha m = (Ok tt, m1) /\ scaley (1 / alpha) m1 = (Ok tt, m2)
                    /\ _vertices m2 = _vertices m /\ _faces m2 = _faces m)
  /\ (exists m1 m2, scalez alpha m = (Ok tt, m1) /\ scalez (1 / alpha) m1 = (Ok tt, m2)
                    /\ _vertices m2 = _vertices m /\ _faces m2 = _faces m).
Proof.
  intros Hpos Hg.
  assert (Hinv : 0 < 1 / alpha) by (apply Rdiv_lt_0_compat; lra).
  assert (Hback : forall k k' : vec -> vec,
             (forall p, k' (k p) = p) ->
             map k' (map k (_vertices m)) = _vertices m).
  { intros k k' Hk. rewrite map_map. rewrite <- (map_id (_vertices m)) at 2.
    by apply map_ext. }
  repeat apply conj.
  - destruct (scale_run (mul_all alpha) (scale alpha) alpha m eq_refl Hpos Hg)
      as (m1 & H1 & V1 & F1 & A1).
    destruct (scale_run (mul_all (1 / alpha)) (scale (1 / alpha)) (1 / alpha) m1
                eq_refl Hinv (or_introl A1)) as (m2 & H2 & V2 & F2 & A2).
    exists m1, m2. split; [done|]. split; [done|]. split; [|congruence].
    rewrite V2, V1. apply Hback. intros p. apply vec_eq; cbn; field; lra.
  - destruct (scale_run (mul_x alpha) (scalex alpha) alpha m eq_refl Hpos Hg)
      as (m1 & H1 & V1 & F1 & A1).
    destruct (scale_run (mul_x (1 / alpha)) (scalex (1 / alpha)) (1 / alpha) m1
                eq_refl Hinv (or_introl A1)) as (m2 & H2 & V2 & F2 & A2).
    exists m1, m2. split; [done|]. split; [done|]. split; [|congruence].
    rewrite V2, V1. apply Hback. intros p. apply vec_eq; cbn; try done; field; lra.
  - destruct (scale_run (mul_y alpha) (scaley alpha) alpha m eq_refl Hpos Hg)
      as (m1 & H1 & V1 & F1 & A1).
    destruct (scale_run (mul_y (1 / alpha)) (scaley (1 / alpha)) (1 / alpha) m1
                eq_refl Hinv (or_introl A1)) as (m2 & H2 & V2 & F2 & A2).
    exists m1, m2. split; [done|]. split; [done|]. split; [|congruence].
    rewrite V2, V1. apply Hback. intros p. apply vec_eq; cbn; try done; field; lra.
  - destruct (scale_run (mul_z alpha) (scalez alpha) alpha m eq_refl Hpos Hg)
      as (m1 & H1 & V1 & F1 & A1).
    destruct (scale_run (mul_z (1 / alpha)) (scalez (1 / alpha)) (1 / alpha) m1
                eq_refl Hinv (or_introl A1)) as (m2 & H2 & V2 & F2 & A2).
    exists m1, m2. split; [done|]. split; [done|]. split; [|congruence].
    rewrite V2, V1. apply Hback. intros p. apply vec_eq; cbn; try done; field; lra.
Qed.

Lemma scale_there_and_back_witness :
  (exists m1 m2, scale 2 square_mesh = (Ok tt, m1) /\ scale (1 / 2) m1 = (Ok tt, m2)
                 /\ _vertices m2 = _vertices square_mesh
                 /\ _faces m2 = _faces square_mesh)
  /\ (exists m1 m2, scalex 2 square_mesh = (Ok tt, m1)
                    /\ scalex (1 / 2) m1 = (Ok tt, m2)
                    /\ _vertices m2 = _vertices square_mesh
                    /\ _faces m2 = _faces square_mesh)
  /\ (exists m1 m2, scaley 2 square_mesh = (Ok tt, m1)
                    /\ scaley (1 / 2) m1 = (Ok tt, m2)
                    /\ _vertices m2 = _vertices square_mesh
                    /\ _faces m2 = _faces square_mesh)
  /\ (exists m1 m2, scalez 2 square_mesh = (Ok tt, m1)
                    /\ scalez (1 / 2) m1 = (Ok tt, m2)
                    /\ _vertices m2 = _vertices square_mesh
                    /\ _faces m2 = _faces square_mesh).
Proof.
  apply (scale_there_and_back 2 square_mesh).
  - lra.
  - by left.
Defined.

(** X8.  A factor that is not positive stops the four scalings at their
    assertion: they raise [AssertionError] and the mesh, cache included, is
    as it was. *)
Theorem scale_rejects_nonpositive_factor (alpha : R) (m : Mesh) :
  alpha <= 0 ->
  scale alpha m = (Err AssertionError, m)
  /\ scalex alpha m = (Err AssertionError, m)
  /\ scaley alpha m = (Err AssertionError, m)
  /\ scalez alpha m = (Err AssertionError, m).
Proof.
  intros Hle. unfold scale, scalex, scaley, scalez, bind, raise.
  destruct (Rlt_dec 0 alpha) as [Hn|_]; [lra|done].
Qed.

Lemma scale_rejects_nonpositive_factor_witness :
  scale 0 square_mesh = (Err AssertionError, square_mesh)
  /\ scalex 0 square_mesh = (Err AssertionError, square_mesh)
  /\ scaley 0 square_mesh = (Err AssertionError, square_mesh)
  /\ scalez 0 square_mesh = (Err AssertionError, square_mesh).
Proof.
  apply (scale_rejects_nonpositive_factor 0 square_mesh). lra.
Defined.

(** ** [flip_normals] *)

Lemma flip_normals_run m :
  normals_cached m ->
  flip_normals m =
    (Ok tt,
     with_internals
       (delete "surface_integrals"
          (match __internals__ m !! "faces_areas", __internals__ m !! "faces_normals" with
           | Some _, Some (VPoints ns) =>
               <["faces_normals" := VPoints (map (vscale (-1)) ns)]> (__internals__ m)
           | _, _ => __internals__ m
           end))
       (with_faces (map flip_face (_faces m)) m)).
Proof.
  intros Hc. unfold flip_normals. run.
  destruct (__internals__ m !! "faces_areas") as [a|] eqn:Ha.
  - destruct Hc as [Hc|[ns Hns]]; [congruence|]. rewrite Hns.
    destruct (__internals__ m !! "surface_integrals") as [s|] eqn:Hs.
    + by keys.
    + keys. rewrite delete_id; [done|]. by keys.
  - destruct (__internals__ m !! "surface_integrals") as [s|] eqn:Hs.
    + by keys.
    + keys. by rewrite delete_id.
Qed.

Lemma vscale_opp_twice (p : vec) : vscale (-1) (vscale (-1) p) = p.
Proof. apply vec_eq; cbn; ring. Qed.

(** X9.  [flip_normals] is its own inverse on the faces and on the cached
    normals: on a mesh whose cached areas, if any, come with cached normals,
    two calls in a row return, the faces are the ones the mesh started with,
    every entry of the cache other than the surface integrals is what it
    was, and the surface integrals are not cached. *)
Theorem flip_normals_twice (m : Mesh) :
  normals_cached m ->
  exists m1 m2,
    flip_normals m = (Ok tt, m1)
    /\ flip_normals m1 = (Ok tt, m2)
    /\ _faces m1 = map flip_face (_faces m)
    /\ _faces m2 = _faces m
    /\ _vertices m2 = _vertices m
    /\ (forall k, k <> "surface_integrals" ->
                  __internals__ m2 !! k = __internals__ m !! k)
    /\ __internals__ m2 !! "surface_integrals" = None.
Proof.
  intros Hc. eexists _, _.
  split; [by apply flip_normals_run|].
  split.
  { apply flip_normals_run. cbn.
    destruct (__internals__ m !! "faces_areas") as [a|] eqn:Ha.
    - destruct Hc as [Hc|[ns Hns]]; [congruence|]. rewrite Hns.
      right. eexists. by keys.
    - left. by keys. }
  cbn. split; [done|]. split.
  { rewrite map_map. rewrite <- (map_id (_faces m)) at 2.
    apply map_ext. intros f. apply flip_face_involutive. }
  split; [done|]. split; [|apply lookup_delete_eq].
  intros k Hk. rewrite lookup_delete_ne by done.
  destruct (__internals__ m !! "faces_areas") as [a|] eqn:Ha.
  - destruct Hc as [Hc|[ns Hns]]; [congruence|]. rewrite Hns.
    keys. destruct (decide (k = "faces_normals")) as [->|Hne].
    + rewrite lookup_insert_eq, Hns. do 2 f_equal.
      rewrite map_map. rewrite <- (map_id ns) at 2.
      apply map_ext. intros p. apply vscale_opp_twice.
    + rewrite lookup_insert_ne by done. rewrite lookup_delete_ne by done.
      by rewrite lookup_insert_ne by done.
  - by keys.
Qed.

Lemma flip_normals_twice_witness :
  exists m1 m2,
    flip_normals square_mesh = (Ok tt, m1)
    /\ flip_normals m1 = (Ok tt, m2)
    /\ _faces m1 = map flip_face (_faces square_mesh)
    /\ _faces m2 = _faces square_mesh
    /\ _vertices m2 = _vertices square_mesh
    /\ (forall k, k <> "surface_integrals" ->
                  __internals__ m2 !! k = __internals__ square_mesh !! k)
    /\ __internals__ m2 !! "surface_integrals" = None.
Proof.
  apply (flip_normals_twice square_mesh). by left.
Defined.

Lemma is_tri_flip_face f : is_tri (flip_face f) = is_tri f.
Proof.
  unfold is_tri, flip_face. cbn.
  destruct (decide (f0 f = f3 f)) as [He|He].
  - by rewrite !bool_decide_eq_true_2.
  - by rewrite !bool_decide_eq_false_2.
Qed.

Lemma norm_vscale_opp (p : vec) : norm (vscale (-1) p) = norm p.
Proof. unfold norm. cbn. f_equal. ring. Qed.

Lemma vdiv_vscale_opp (p : vec) (k : R) :
  vdiv (vscale (-1) p) k = vscale (-1) (vdiv p k).
Proof. apply vec_eq; cbn; unfold Rdiv; ring. Qed.

Lemma normal_of_flip_face V f :
  normal_of V (flip_face f) = vscale (-1) (normal_of V f).
Proof.
  unfold normal_of. rewrite is_tri_flip_face.
  destruct (is_tri f) eqn:Ht.
  - apply is_tri_true in Ht.
    assert (Hc : tri_cross V (flip_face f) = vscale (-1) (tri_cross V f)).
    { unfold tri_cross, flip_face. cbn [f0 f1 f2 f3]. rewrite <- Ht.
      apply vec_eq; cbn; ring. }
    by rewrite Hc, norm_vscale_opp, vdiv_vscale_opp.
  - assert (Hc : quad_cross V (flip_face f) = vscale (-1) (quad_cross V f)).
    { unfold quad_cross, flip_face. cbn [f0 f1 f2 f3].
      apply vec_eq; cbn; ring. }
    by rewrite Hc, norm_vscale_opp, vdiv_vscale_opp.
Qed.

(** X10.  The normals that [flip_normals] negates in place are the normals
    of the reversed faces: when the cache holds the face areas and the
    normals of the current faces, the cached normals after the call are
    again those that the face geometry gives for the face array of the
    mesh, triangles and quadrangles alike. *)
Theorem flip_normals_keeps_normals_right (m : Mesh) :
  is_Some (__internals__ m !! "faces_areas") ->
  __internals__ m !! "faces_normals"
  = Some (VPoints (map (normal_of (_vertices m)) (_faces m))) ->
  exists m',
    flip_normals m = (Ok tt, m')
    /\ _faces m' = map flip_face (_faces m)
    /\ __internals__ m' !! "faces_normals"
       = Some (VPoints (map (normal_of (_vertices m')) (_faces m'))).
Proof.
  intros [a Ha] Hn. eexists.
  split; [apply flip_normals_run; right; eauto|].
  cbn. split; [done|]. rewrite Ha, Hn. keys. do 2 f_equal.
  rewrite !map_map. apply map_ext. intros f. symmetry. apply normal_of_flip_face.
Qed.

Lemma flip_normals_keeps_normals_right_witness :
  exists m',
    flip_normals (with_geometry square_mesh) = (Ok tt, m')
    /\ _faces m' = map flip_face (_faces (with_geometry square_mesh))
    /\ __internals__ m' !! "faces_normals"
       = Some (VPoints (map (normal_of (_vertices m')) (_faces m'))).
Proof.
  apply (flip_normals_keeps_normals_right (with_geometry square_mesh)).
  - unfold with_geometry. cbn. keys. eauto.
  - unfold with_geometry. cbn. by keys.
Defined.

(** ** [rotate] *)

Lemma norm_sqr (p : vec) : norm p * norm p = dot p p.
Proof.
  unfold norm, dot. apply sqrt_sqrt.
  pose proof (Rle_0_sqr (vx p)). pose proof (Rle_0_sqr (vy p)).
  pose proof (Rle_0_sqr (vz p)). unfold Rsqr in *. lra.
Qed.

Lemma norm_dot (p : vec) : norm p = sqrt (dot p p).
Proof. done. Qed.

Lemma unit_axis (angles : vec) :
  norm angles <> 0 -> dot (vdiv angles (norm angles)) (vdiv angles (norm angles)) = 1.
Proof.
  intros Hn. pose proof (norm_sqr angles) as Hs. unfold dot in *. cbn.
  set (k := norm angles) in *.
  replace (vx angles / k * (vx angles / k) + vy angles / k * (vy angles / k)
           + vz angles / k * (vz angles / k))
    with ((vx angles * vx angles + vy angles * vy angles + vz angles * vz angles)
          / (k * k)) by (by field).
  rewrite <- Hs. by field.
Qed.

Lemma rot_matrix_rodrigues (angles p : vec) :
  mat_apply (rot_matrix angles) p
  = rodrigues (vdiv angles (norm angles)) (norm angles) p.
Proof.
  unfold rot_matrix, rodrigues, mat_apply. apply vec_eq; cbn; unfold dot; cbn; ring.
Qed.

Lemma rodrigues_dot (n : vec) (theta : R) (p q : vec) :
  dot n n = 1 ->
  dot (rodrigues n theta p) (rodrigues n theta q) = dot p q.
Proof.
  intros Hn. pose proof (sin2_cos2 theta) as Hcs. unfold Rsqr in Hcs.
  set (c := cos theta) in *. set (s := sin theta) in *.
  transitivity (c * c * dot p q + 2 * c * (1 - c) * (dot n p * dot n q)
                + (1 - c) * (1 - c) * (dot n p * dot n q) * dot n n
                + s * s * (dot n n * dot p q - dot n p * dot n q)).
  { unfold rodrigues, dot. fold c s. cbn. ring. }
  rewrite Hn. replace (s * s) with (1 - c * c) by lra. ring.
Qed.

Lemma rodrigues_vsub (n : vec) (theta : R) (p q : vec) :
  vsub (rodrigues n theta p) (rodrigues n theta q) = rodrigues n theta (vsub p q).
Proof. unfold rodrigues. apply vec_eq; cbn; unfold dot; cbn; ring. Qed.

Lemma rodrigues_vzero (n : vec) (theta : R) : rodrigues n theta vzero = vzero.
Proof. unfold rodrigues. apply vec_eq; cbn; unfold dot; cbn; ring. Qed.

Lemma mat_apply_eye3 (p : vec) : mat_apply eye3 p = p.
Proof. apply vec_eq; cbn; unfold dot; cbn; ring. Qed.

Lemma rotate_run (angles : vec) (m : Mesh) :
  geometry_cached m ->
  exists rot m',
    rotate angles m = (Ok rot, m')
    /\ rot = (if Req_dec_T (norm angles) 0 then eye3 else rot_matrix angles)
    /\ _vertices m' = map (mat_apply rot) (_vertices m)
    /\ _faces m' = _faces m
    /\ __internals__ m' !! "surface_integrals" = None
    /\ __internals__ m' !! "faces_areas" = __internals__ m !! "faces_areas"
    /\ (norm angles <> 0 ->
        forall ns, __internals__ m !! "faces_areas" <> None ->
          __internals__ m !! "faces_normals" = Some (VPoints ns) ->
          __internals__ m' !! "faces_normals" = Some (VPoints (map (mat_apply rot) ns))).
Proof.
  intros Hg. unfold rotate. run.
  assert (Hid : _vertices m = map (mat_apply eye3) (_vertices m)).
  { rewrite <- (map_id (_vertices m)) at 1. apply map_ext. intros p.
    by rewrite mat_apply_eye3. }
  destruct (__internals__ m !! "surface_integrals") as [s|] eqn:Hs; keys.
  - destruct (Req_dec_T (norm angles) 0) as [Hz|Hnz].
    + eexists _, _. split; [reflexivity|]. cbn. keys. done.
    + destruct (__internals__ m !! "faces_areas") as [a|] eqn:Ha.
      * destruct Hg as [Hg|[[cs Hc] [ns Hn]]]; [congruence|].
        eexists _, _. split; [keys; reflexivity|]. cbn. keys.
        split; [done|]. split; [done|]. split; [done|]. split; [done|].
        split; [done|]. intros _ ns' _ [= <-]. done.
      * eexists _, _. split; [keys; reflexivity|]. cbn. keys.
        split; [done|]. split; [done|]. split; [done|]. split; [done|].
        split; [done|]. intros _ ns' Hne. done.
  - destruct (Req_dec_T (norm angles) 0) as [Hz|Hnz].
    + eexists _, _. split; [reflexivity|]. cbn. keys. done.
    + destruct (__internals__ m !! "faces_areas") as [a|] eqn:Ha.
      * destruct Hg as [Hg|[[cs Hc] [ns Hn]]]; [congruence|].
        eexists _, _. split; [keys; reflexivity|]. cbn. keys.
        split; [done|]. split; [done|]. split; [done|]. split; [done|].
        split; [done|]. intros _ ns' _ [= <-]. done.
      * eexists _, _. split; [keys; reflexivity|]. cbn. keys.
        split; [done|]. split; [done|]. split; [done|]. split; [done|].
        split; [done|]. intros _ ns' Hne. done.
Qed.

Lemma rotate_matrix_isometry (angles : vec) :
  linear_isometry
    (mat_apply (if Req_dec_T (norm angles) 0 then eye3 else rot_matrix angles)).
Proof.
  destruct (Req_dec_T (norm angles) 0) as [Hz|Hnz].
  - split; [|split]; intros; by rewrite ?mat_apply_eye3.
  - split; [|split].
    + intros p q. rewrite !rot_matrix_rodrigues. apply rodrigues_dot.
      by apply unit_axis.
    + intros p q. rewrite !rot_matrix_rodrigues. apply rodrigues_vsub.
    + rewrite rot_matrix_rodrigues. apply rodrigues_vzero.
Qed.

Lemma isometry_norm (g : vec -> vec) (p : vec) :
  linear_isometry g -> norm (g p) = norm p.
Proof. intros (Hd & _ & _). by rewrite !norm_dot, Hd. Qed.

(** X11.  [rotate] is a rigid motion.  On a mesh whose cached face
    geometry, if any, is complete, [rotate angles] returns a matrix, every
    vertex is replaced by its image under that matrix and the faces are
    untouched; the matrix keeps the dot products and hence the distance
    between any two points.  The surface integrals are not cached
    afterwards.  For the zero vector the matrix is the identity. *)
Theorem rotate_is_rigid (angles : vec) (m : Mesh) :
  geometry_cached m ->
  exists rot m',
    rotate angles m = (Ok rot, m')
    /\ _vertices m' = map (mat_apply rot) (_vertices m)
    /\ _faces m' = _faces m
    /\ (forall p q, dot (mat_apply rot p) (mat_apply rot q) = dot p q)
    /\ (forall p q,
          norm (vsub (mat_apply rot p) (mat_apply rot q)) = norm (vsub p q))
    /\ (norm angles = 0 -> rot = eye3)
    /\ __internals__ m' !! "surface_integrals" = None.
Proof.
  intros Hg.
  destruct (rotate_run angles m Hg) as (rot & m' & Hrun & Hrot & HV & HF & Hs & _).
  pose proof (rotate_matrix_isometry angles) as Hiso. rewrite <- Hrot in Hiso.
  exists rot, m'. split; [done|]. split; [done|]. split; [done|].
  split; [apply Hiso|]. split.
  - intros p q. destruct Hiso as (Hd & Hl & Hz). rewrite Hl.
    by apply isometry_norm.
  - split; [|done]. intros Hz. rewrite Hrot. by destruct (Req_dec_T _ _).
Qed.

Lemma rotate_is_rigid_witness :
  exists rot m',
    rotate (mkvec 0 0 1) square_mesh = (Ok rot, m')
    /\ _vertices m' = map (mat_apply rot) (_vertices square_mesh)
    /\ _faces m' = _faces square_mesh
    /\ (forall p q, dot (mat_apply rot p) (mat_apply rot q) = dot p q)
    /\ (forall p q,
          norm (vsub (mat_apply rot p) (mat_apply rot q)) = norm (vsub p q))
    /\ (norm (mkvec 0 0 1) = 0 -> rot = eye3)
    /\ __internals__ m' !! "surface_integrals" = None.
Proof.
  apply (rotate_is_rigid (mkvec 0 0 1) square_mesh). by left.
Defined.

Lemma pt_map (g : vec -> vec) (V : list vec) (i : nat) :
  g vzero = vzero -> pt (map g V) i = g (pt V i).
Proof.
  intros Hz. unfold pt. change (map g V) with (g <$> V).
  rewrite list_lookup_fmap. by destruct (V !! i).
Qed.

Lemma cross_dot (a b : vec) :
  dot (cross a b) (cross a b) = dot a a * dot b b - dot a b * dot a b.
Proof. unfold dot, cross. cbn. ring. Qed.

Lemma isometry_cross_norm (g : vec -> vec) (a b : vec) :
  linear_isometry g -> norm (cross (g a) (g b)) = norm (cross a b).
Proof. intros (Hd & _ & _). by rewrite !norm_dot, !cross_dot, !Hd. Qed.

Lemma area_of_isometry (g : vec -> vec) (V : list vec) (f : face) :
  linear_isometry g -> area_of (map g V) f = area_of V f.
Proof.
  intros Hiso. pose proof Hiso as (Hd & Hl & Hz).
  unfold area_of, tri_cross, quad_a1, quad_a2.
  rewrite !pt_map, !Hl by done.
  by rewrite !isometry_cross_norm.
Qed.

(** X12.  The areas that [rotate] leaves in the cache are the areas of the
    rotated mesh: a rotation keeps the area of every triangle and of every
    quadrangle, so when the cache holds the areas of the current faces
    before the call (with centers and normals), the cached areas afterwards
    are those that the face geometry gives for the new vertices. *)
Theorem rotate_keeps_areas_right (angles : vec) (m : Mesh) :
  geometry_cached m ->
  __internals__ m !! "faces_areas"
  = Some (VFloats (map (area_of (_vertices m)) (_faces m))) ->
  exists rot m',
    rotate angles m = (Ok rot, m')
    /\ (forall f, area_of (_vertices m') f = area_of (_vertices m) f)
    /\ __internals__ m' !! "faces_areas"
       = Some (VFloats (map (area_of (_vertices m')) (_faces m'))).
Proof.
  intros Hg Ha.
  destruct (rotate_run angles m Hg)
    as (rot & m' & Hrun & Hrot & HV & HF & Hs & Hareas & _).
  pose proof (rotate_matrix_isometry angles) as Hiso. rewrite <- Hrot in Hiso.
  exists rot, m'. split; [done|].
  assert (Hsame : forall f, area_of (_vertices m') f = area_of (_vertices m) f).
  { intros f. rewrite HV. by apply area_of_isometry. }
  split; [done|]. rewrite Hareas, Ha, HF. do 2 f_equal.
  apply map_ext. intros f. by rewrite Hsame.
Qed.

Lemma rotate_keeps_areas_right_witness :
  exists rot m',
    rotate (mkvec 0 0 1) (with_geometry square_mesh) = (Ok rot, m')
    /\ (forall f, area_of (_vertices m') f
                  = area_of (_vertices (with_geometry square_mesh)) f)
    /\ __internals__ m' !! "faces_areas"
       = Some (VFloats (map (area_of (_vertices m')) (_faces m'))).
Proof.
  apply (rotate_keeps_areas_right (mkvec 0 0 1) (with_geometry square_mesh)).
  - right. unfold with_geometry. cbn. keys. eauto.
  - unfold with_geometry. cbn. by keys.
Defined.

Lemma sqrt_square_abs (t : R) : sqrt (t * t + 0 * 0 + 0 * 0) = Rabs t.
Proof.
  replace (t * t + 0 * 0 + 0 * 0) with (Rsqr t) by (unfold Rsqr; ring).
  apply sqrt_Rsqr_abs.
Qed.

Lemma axis_angle_cases (t : R) :
  t <> 0 ->
  (Rabs t = t /\ t / Rabs t = 1) \/ (Rabs t = - t /\ t / Rabs t = -1).
Proof.
  intros Ht. unfold Rabs. destruct (Rcase_abs t) as [Hneg|Hpos].
  - right. split; [done|]. field. lra.
  - left. split; [done|]. by field.
Qed.

Lemma rot_matrix_x (t : R) (p : vec) :
  mat_apply (if Req_dec_T (norm (mkvec t 0 0)) 0 then eye3
             else rot_matrix (mkvec t 0 0)) p
  = mkvec (vx p) (cos t * vy p - sin t * vz p) (sin t * vy p + cos t * vz p).
Proof.
  assert (Hn : norm (mkvec t 0 0) = Rabs t).
  { unfold norm. cbn. apply sqrt_square_abs. }
  destruct (Req_dec_T _ _) as [Hz|Hnz].
  - rewrite Hn in Hz. assert (t = 0) as ->.
    { destruct (Req_dec_T t 0) as [|Hne]; [done|]. by apply Rabs_no_R0 in Hne. }
    rewrite mat_apply_eye3, cos_0, sin_0. apply vec_eq; cbn; ring.
  - rewrite Hn in Hnz. assert (Ht : t <> 0).
    { intros ->. by rewrite Rabs_R0 in Hnz. }
    unfold rot_matrix, mat_apply, dot. cbn [vx vy vz]. rewrite Hn.
    replace (0 / Rabs t) with 0 by (by field).
    destruct (axis_angle_cases t Ht) as [[Ha Hk]|[Ha Hk]]; rewrite Hk.
    + rewrite Ha. apply vec_eq; cbn; ring.
    + rewrite Ha, cos_neg, sin_neg. apply vec_eq; cbn; ring.
Qed.

Lemma rot_matrix_y (t : R) (p : vec) :
  mat_apply (if Req_dec_T (norm (mkvec 0 t 0)) 0 then eye3
             else rot_matrix (mkvec 0 t 0)) p
  = mkvec (cos t * vx p + sin t * vz p) (vy p) (- sin t * vx p + cos t * vz p).
Proof.
  assert (Hn : norm (mkvec 0 t 0) = Rabs t).
  { unfold norm. cbn. rewrite <- (sqrt_square_abs t). f_equal. ring. }
  destruct (Req_dec_T _ _) as [Hz|Hnz].
  - rewrite Hn in Hz. assert (t = 0) as ->.
    { destruct (Req_dec_T t 0) as [|Hne]; [done|]. by apply Rabs_no_R0 in Hne. }
    rewrite mat_apply_eye3, cos_0, sin_0. apply vec_eq; cbn; ring.
  - rewrite Hn in Hnz. assert (Ht : t <> 0).
    { intros ->. by rewrite Rabs_R0 in Hnz. }
    unfold rot_matrix, mat_apply, dot. cbn [vx vy vz]. rewrite Hn.
    replace (0 / Rabs t) with 0 by (by field).
    destruct (axis_angle_cases t Ht) as [[Ha Hk]|[Ha Hk]]; rewrite Hk.
    + rewrite Ha. apply vec_eq; cbn; ring.
    + rewrite Ha, cos_neg, sin_neg. apply vec_eq; cbn; ring.
Qed.

Lemma rot_matrix_z (t : R) (p : vec) :
  mat_apply (if Req_dec_T (norm (mkvec 0 0 t)) 0 then eye3
             else rot_matrix (mkvec 0 0 t)) p
  = mkvec (cos t * vx p - sin t * vy p) (sin t * vx p + cos t * vy p) (vz p).
Proof.
  assert (Hn : norm (mkvec 0 0 t) = Rabs t).
  { unfold norm. cbn. rewrite <- (sqrt_square_abs t). f_equal. ring. }
  destruct (Req_dec_T _ _) as [Hz|Hnz].
  - rewrite Hn in Hz. assert (t = 0) as ->.
    { destruct (Req_dec_T t 0) as [|Hne]; [done|]. by apply Rabs_no_R0 in Hne. }
    rewrite mat_apply_eye3, cos_0, sin_0. apply vec_eq; cbn; ring.
  - rewrite Hn in Hnz. assert (Ht : t <> 0).
    { intros ->. by rewrite Rabs_R0 in Hnz. }
    unfold rot_matrix, mat_apply, dot. cbn [vx vy vz]. rewrite Hn.
    replace (0 / Rabs t) with 0 by (by field).
    destruct (axis_angle_cases t Ht) as [[Ha Hk]|[Ha Hk]]; rewrite Hk.
    + rewrite Ha. apply vec_eq; cbn; ring.
    + rewrite Ha, cos_neg, sin_neg. apply vec_eq; cbn; ring.
Qed.

(** X13.  [rotate_x], [rotate_y] and [rotate_z] turn the mesh by the given
    angle about the axis, counterclockwise for a positive angle, whatever
    the sign of the angle (the code normalises the angle vector and takes
    the cosine and sine of its length): [rotate_x t] sends [(x, y, z)] to
    [(x, y cos t - z sin t, y sin t + z cos t)], [rotate_y t] to
    [(x cos t + z sin t, y, - x sin t + z cos t)] and [rotate_z t] to
    [(x cos t - y sin t, x sin t + y cos t, z)]. *)
Theorem rotate_about_axes (t : R) (m : Mesh) :
  geometry_cached m ->
  (exists rot m', rotate_x t m = (Ok rot, m')
     /\ _vertices m'
        = map (fun p => mkvec (vx p) (cos t * vy p - sin t * vz p)
                              (sin t * vy p + cos t * vz p)) (_vertices m))
  /\ (exists rot m', rotate_y t m = (Ok rot, m')
        /\ _vertices m'
           = map (fun p => mkvec (cos t * vx p + sin t * vz p) (vy p)
                                 (- sin t * vx p + cos t * vz p)) (_vertices m))
  /\ (exists rot m', rotate_z t m = (Ok rot, m')
        /\ _vertices m'
           = map (fun p => mkvec (cos t * vx p - sin t * vy p)
                                 (sin t * vx p + cos t * vy p) (vz p)) (_vertices m)).
Proof.
  intros Hg. unfold rotate_x, rotate_y, rotate_z. repeat apply conj.
  - destruct (rotate_run (mkvec t 0 0) m Hg) as (rot & m' & Hrun & -> & HV & _).
    eexists _, m'. split; [done|]. rewrite HV. apply map_ext. apply rot_matrix_x.
  - destruct (rotate_run (mkvec 0 t 0) m Hg) as (rot & m' & Hrun & -> & HV & _).
    eexists _, m'. split; [done|]. rewrite HV. apply map_ext. apply rot_matrix_y.
  - destruct (rotate_run (mkvec 0 0 t) m Hg) as (rot & m' & Hrun & -> & HV & _).
    eexists _, m'. split; [done|]. rewrite HV. apply map_ext. apply rot_matrix_z.
Qed.

Lemma rotate_about_axes_witness :
  (exists rot m', rotate_x 1 square_mesh = (Ok rot, m')
     /\ _vertices m'
        = map (fun p => mkvec (vx p) (cos 1 * vy p - sin 1 * vz p)
                              (sin 1 * vy p + cos 1 * vz p)) (_vertices square_mesh))
  /\ (exists rot m', rotate_y 1 square_mesh = (Ok rot, m')
        /\ _vertices m'
           = map (fun p => mkvec (cos 1 * vx p + sin 1 * vz p) (vy p)
                                 (- sin 1 * vx p + cos 1 * vz p))
                 (_vertices square_mesh))
  /\ (exists rot m', rotate_z 1 square_mesh = (Ok rot, m')
        /\ _vertices m'
           = map (fun p => mkvec (cos 1 * vx p - sin 1 * vy p)
                                 (sin 1 * vx p + cos 1 * vy p) (vz p))
                 (_vertices square_mesh)).
Proof.
  apply (rotate_about_axes 1 square_mesh). by left.
Defined.

(** ** [heal_triangles] *)

Lemma take_mask_map {A} (P : A -> bool) (l : list A) :
  take_mask l (map P l) = Ok (filter (fun x => P x = true) l).
Proof.
  unfold take_mask. rewrite length_map. destruct (decide _); [|done]. f_equal.
  induction l as [|x l IH]; [done|]. cbn [map zip zip_with].
  rewrite filter_cons. cbn [snd]. rewrite (filter_cons _ x l).
  destruct (decide (P x = true)); cbn; by rewrite IH.
Qed.

Lemma roll_quads_spec (faces : list face) :
  roll_quads faces = Ok (map roll_if_open faces).
Proof.
  unfold roll_quads.
  change (map (fun f => negb (bool_decide (f0 f = f3 f))) faces)
    with (map (fun f => negb (is_tri f)) faces).
  rewrite (take_mask_map (fun f => negb (is_tri f))). cbn [rbind].
  unfold put_mask. rewrite length_map. destruct (decide _); [|done].
  rewrite (put_ids_where (fun f => negb (is_tri f)) roll_face) by done.
  rewrite zip_with_self. f_equal. apply map_ext. intros f.
  unfold roll_if_open. by destruct (is_tri f).
Qed.

Lemma remove_geometry_run (m : Mesh) :
  geometry_cached m ->
  exists b m',
    _has_faces_properties m = (Ok b, m)
    /\ when b _remove_faces_properties m = (Ok tt, m')
    /\ _vertices m' = _vertices m /\ _faces m' = _faces m
    /\ __internals__ m' !! "faces_areas" = None
    /\ (forall k, k <> "faces_areas" -> k <> "faces_centers" ->
                  k <> "faces_normals" -> k <> "surface_integrals" ->
                  __internals__ m' !! k = __internals__ m !! k).
Proof.
  intros Hg. unfold _remove_faces_properties.
  destruct (__internals__ m !! "faces_areas") as [a|] eqn:Ha.
  - exists true. destruct Hg as [Hg|[[cs Hc] [ns Hn]]]; [congruence|].
    destruct (__internals__ m !! "surface_integrals") as [s|] eqn:Hs.
    + eexists. split; [apply has_key_true; by rewrite Ha|].
      split; [run; keys; reflexivity|]. cbn. keys.
      split; [done|]. split; [done|]. split; [done|].
      intros k ? ? ? ?. by rewrite !lookup_delete_ne by done.
    + eexists. split; [apply has_key_true; by rewrite Ha|].
      split; [run; keys; reflexivity|]. cbn. keys.
      split; [done|]. split; [done|]. split; [done|].
      intros k ? ? ? ?. by rewrite !lookup_delete_ne by done.
  - exists false, m. split; [by apply has_key_false|]. done.
Qed.

Lemma heal_triangles_run (m : Mesh) :
  geometry_cached m ->
  exists m',
    heal_triangles m = (Ok tt, m')
    /\ _faces m' = map (fun f => roll_if_open (roll_if_open (roll_if_open f)))
                       (_faces m)
    /\ _vertices m' = _vertices m
    /\ __internals__ m' !! "triangles_ids" = __internals__ m !! "triangles_ids"
    /\ __internals__ m' !! "quadrangles_ids" = __internals__ m !! "quadrangles_ids".
Proof.
  intros Hg.
  destruct (remove_geometry_run m Hg) as (b & m1 & Hb & Hrun & HV & HF & _ & Hk).
  exists (with_faces (map roll_if_open (map roll_if_open (map roll_if_open (_faces m1))))
            m1).
  split.
  { unfold heal_triangles.
    rewrite (bind_Ok _ _ _ _ _ Hb), (bind_Ok _ _ _ _ _ Hrun), bind_get.
    rewrite (bind_lift_Ok _ _ _ _ (roll_quads_spec _)), bind_modify.
    rewrite (bind_lift_Ok _ _ _ _ (roll_quads_spec _)), bind_modify.
    rewrite (bind_lift_Ok _ _ _ _ (roll_quads_spec _)), bind_modify.
    reflexivity. }
  cbn. rewrite HF, !map_map. split; [done|]. split; [done|].
  split; by apply Hk.
Qed.

Lemma roll_if_open_tri (f : face) : f0 f = f3 f -> roll_if_open f = f.
Proof. intros H. unfold roll_if_open. by rewrite (proj2 (is_tri_true f) H). Qed.

Lemma roll_if_open_open (f : face) : f0 f <> f3 f -> roll_if_open f = roll_face f.
Proof. intros H. unfold roll_if_open. by rewrite (proj2 (is_tri_false f) H). Qed.

Lemma roll_if_open_cases (f : face) :
  let f' := roll_if_open (roll_if_open (roll_if_open f)) in
  (f' = f \/ f' = roll_face f \/ f' = roll_face (roll_face f)
   \/ f' = roll_face (roll_face (roll_face f)))
  /\ (f0 f = f3 f -> f' = f)
  /\ (has_repeat f -> f0 f' = f3 f')
  /\ (~ has_repeat f -> f' = mkface (f1 f) (f2 f) (f3 f) (f0 f)).
Proof.
  destruct f as [a b c d]. unfold has_repeat. cbn [f0 f1 f2 f3]. cbv zeta.
  destruct (decide (a = d)) as [Had|Had].
  { rewrite !(roll_if_open_tri (mkface a b c d)) by done. unfold roll_face. cbn. intuition congruence. }
  rewrite (roll_if_open_open (mkface a b c d)) by done.
  unfold roll_face. cbn [f0 f1 f2 f3].
  destruct (decide (d = c)) as [Hdc|Hdc].
  { rewrite !(roll_if_open_tri (mkface d a b c)) by done. unfold roll_face. cbn.
    intuition congruence. }
  rewrite (roll_if_open_open (mkface d a b c)) by done.
  unfold roll_face. cbn [f0 f1 f2 f3].
  destruct (decide (c = b)) as [Hcb|Hcb].
  { rewrite !(roll_if_open_tri (mkface c d a b)) by done. unfold roll_face. cbn.
    intuition congruence. }
  rewrite (roll_if_open_open (mkface c d a b)) by done.
  unfold roll_face. cbn.
  split; [by do 3 right|]. split; [done|]. split; [|done].
  intros [?|[?|[?|?]]]; congruence.
Qed.

(** X14.  [heal_triangles] brings every triangle to the stored form
    [face[0] == face[3]].  On a mesh whose cached face geometry, if any, is
    complete, the call returns, the vertices are untouched, and each face is
    replaced by one of its rotations [np.roll(face, k)], [k <= 3]: a face
    that already closes on its first vertex stays as it is, a face in which
    two slots that follow each other around the face are equal ends with
    [face[0] == face[3]], and a face with no such pair (a quadrangle) ends
    as [(v1, v2, v3, v0)]. *)
Theorem heal_triangles_repairs (m : Mesh) :
  geometry_cached m ->
  exists m',
    heal_triangles m = (Ok tt, m')
    /\ _vertices m' = _vertices m
    /\ Forall2
         (fun f f' =>
            (f' = f \/ f' = roll_face f \/ f' = roll_face (roll_face f)
             \/ f' = roll_face (roll_face (roll_face f)))
            /\ (f0 f = f3 f -> f' = f)
            /\ (has_repeat f -> f0 f' = f3 f')
            /\ (~ has_repeat f -> f' = mkface (f1 f) (f2 f) (f3 f) (f0 f)))
         (_faces m) (_faces m').
Proof.
  intros Hg. destruct (heal_triangles_run m Hg) as (m' & Hrun & HF & HV & _).
  exists m'. split; [done|]. split; [done|]. rewrite HF.
  change (map ?g (_faces m)) with (g <$> _faces m).
  apply Forall2_fmap_r, Forall_Forall2_diag, Forall_forall.
  intros f _. apply roll_if_open_cases.
Qed.

Lemma heal_triangles_repairs_witness :
  exists m',
    heal_triangles misplaced_mesh = (Ok tt, m')
    /\ _vertices m' = _vertices misplaced_mesh
    /\ Forall2
         (fun f f' =>
            (f' = f \/ f' = roll_face f \/ f' = roll_face (roll_face f)
             \/ f' = roll_face (roll_face (roll_face f)))
            /\ (f0 f = f3 f -> f' = f)
            /\ (has_repeat f -> f0 f' = f3 f')
            /\ (~ has_repeat f -> f' = mkface (f1 f) (f2 f) (f3 f) (f0 f)))
         (_faces misplaced_mesh) (_faces m').
Proof.
  apply (heal_triangles_repairs misplaced_mesh). by left.
Defined.

Lemma length_filter_true_cons (b : bool) (mask : list bool) :
  length (filter (fun b => b = true) (b :: mask))
  = ((if b then 1 else 0) + length (filter (fun b => b = true) mask))%nat.
Proof. rewrite filter_cons. by destruct b. Qed.

Lemma np_where_length (mask : list bool) :
  length (np_where mask) = length (filter (fun b => b = true) mask).
Proof.
  induction mask as [|b mask IH]; [done|].
  rewrite np_where_cons, length_app, length_map, IH, length_filter_true_cons.
  by destruct b.
Qed.

Lemma count_grows {A} (P Q : A -> bool) (g : A -> A) (l : list A) :
  (forall x, P x = true -> Q (g x) = true) ->
  (exists x, x ∈ l /\ P x = false /\ Q (g x) = true) ->
  (length (np_where (map P l)) < length (np_where (map Q (map g l))))%nat.
Proof.
  intros Hmono Hex. rewrite !np_where_length.
  assert (Hle : forall l',
             (length (filter (fun b => b = true) (map P l'))
              <= length (filter (fun b => b = true) (map Q (map g l'))))%nat).
  { induction l' as [|x l' IH]; [done|]. cbn [map].
    rewrite !length_filter_true_cons.
    destruct (P x) eqn:HP.
    - rewrite (Hmono x HP). lia.
    - destruct (Q (g x)); lia. }
  induction l as [|x l IH]; [by destruct Hex as (x & Hx & _); inversion Hx|].
  cbn [map]. rewrite !length_filter_true_cons.
  destruct Hex as (y & Hy & HPy & HQy).
  apply elem_of_cons in Hy as [->|Hy].
  - rewrite HPy, HQy. specialize (Hle l). lia.
  - assert (IH' := IH (ex_intro _ y (conj Hy (conj HPy HQy)))).
    destruct (P x) eqn:HP.
    + rewrite (Hmono x HP). lia.
    + destruct (Q (g x)); lia.
Qed.

(** X15.  [heal_triangles] does not touch the cached classification.  When
    the classification of the faces is cached and up to date, and some face
    has its repeated vertex at another place than the ends, then after the
    call [nb_triangles] still answers the number of triangles of the face
    array as it was, which is less than the number of faces that close on
    their first vertex in the healed array. *)
Theorem heal_triangles_stale_classification (m : Mesh) :
  geometry_cached m ->
  classification_ok m ->
  is_Some (__internals__ m !! "triangles_ids") ->
  (exists f, f ∈ _faces m /\ has_repeat f /\ f0 f <> f3 f) ->
  exists m',
    heal_triangles m = (Ok tt, m')
    /\ nb_triangles m' = (Ok (length (tri_ids_of (_faces m))), m')
    /\ (length (tri_ids_of (_faces m)) < length (tri_ids_of (_faces m')))%nat.
Proof.
  intros Hg Hok [v Hv] (f & Hf & Hrep & Hopen).
  destruct (heal_triangles_run m Hg) as (m' & Hrun & HF & HV & Kt & Kq).
  exists m'. split; [done|].
  unfold classification_ok in Hok. rewrite Hv in Hok. destruct Hok as [-> Hq].
  rewrite Hv in Kt. rewrite Hq in Kq.
  split; [by apply (nb_cached m' _ _ Kt Kq)|].
  rewrite HF. unfold tri_ids_of. apply count_grows.
  - intros x Hx. apply is_tri_true in Hx. apply is_tri_true.
    destruct (roll_if_open_cases x) as (_ & Hsame & _). cbv zeta in Hsame.
    by rewrite (Hsame Hx).
  - exists f. split; [done|]. split; [by apply is_tri_false|].
    apply is_tri_true. by apply roll_if_open_cases.
Qed.

Lemma heal_triangles_stale_classification_witness :
  exists m',
    heal_triangles (classified misplaced_mesh) = (Ok tt, m')
    /\ nb_triangles m'
       = (Ok (length (tri_ids_of (_faces (classified misplaced_mesh)))), m')
    /\ (length (tri_ids_of (_faces (classified misplaced_mesh)))
        < length (tri_ids_of (_faces m')))%nat.
Proof.
  apply (heal_triangles_stale_classification (classified misplaced_mesh)).
  - by left.
  - apply classified_ok.
  - unfold classified. cbn. keys. eauto.
  - exists (mkface 0 0 1 2). split; [|split].
    + apply list_elem_of_In. cbn. tauto.
    + left. reflexivity.
    + cbn. lia.
Defined.

(** ** [remove_unused_vertices] *)

Lemma sum_bool_where (mask : list bool) : sum_bool mask = length (np_where mask).
Proof.
  induction mask as [|b mask IH]; [done|].
  rewrite np_where_cons, length_app, length_map, <- IH. by destruct b.
Qed.

Lemma take_mask_take_ids {A} (arr : list A) (mask : list bool) :
  length arr = length mask ->
  take_mask arr mask = take_ids arr (np_where mask).
Proof.
  intros Hlen. unfold take_mask. destruct (decide _); [|done]. clear e.
  revert mask Hlen. induction arr as [|a arr IH]; intros [|b mask] Hlen; try done.
  cbn in Hlen. injection Hlen as Hlen. specialize (IH mask Hlen).
  rewrite np_where_cons. cbn [zip zip_with]. rewrite filter_cons. cbn [snd].
  destruct b; cbn [app].
  - rewrite decide_True by done. cbn [map fst take_ids rmapM item lookup].
    cbn. change (rmapM (item (a :: arr)) (map S (np_where mask)))
      with (take_ids (a :: arr) (map S (np_where mask))).
    rewrite take_ids_map_S, <- IH. done.
  - rewrite decide_False by done. by rewrite take_ids_map_S, <- IH.
Qed.

Lemma _remove_connectivity_run (m : Mesh) :
  connectivity_cached m ->
  exists b m',
    _has_connectivity m = (Ok b, m)
    /\ when b (_remove_connectivity) m = (Ok tt, m')
    /\ _vertices m' = _vertices m /\ _faces m' = _faces m
    /\ __internals__ m' !! "v_v" = None
    /\ (forall k, ~ conn_key k -> __internals__ m' !! k = __internals__ m !! k).
Proof.
  intros Hc. unfold _has_connectivity, _remove_connectivity.
  destruct (__internals__ m !! "v_v") as [a|] eqn:Ha.
  - exists true. destruct Hc as [Hc|([vf Hvf] & [ff Hff] & [bs Hbs])]; [congruence|].
    eexists. split; [apply has_key_true; by rewrite Ha|].
    split; [run; keys; reflexivity|]. cbn. keys.
    split; [done|]. split; [done|]. split; [done|].
    intros k Hk. unfold conn_key in Hk.
    rewrite !lookup_delete_ne; [done|..]; intros <-; tauto.
  - exists false, m. split; [by apply has_key_false|]. done.
Qed.

Lemma np_where_length_le (mask : list bool) :
  (length (np_where mask) <= length mask)%nat.
Proof.
  induction mask as [|b mask IH]; [done|].
  rewrite np_where_cons, length_app, length_map. destruct b; cbn; lia.
Qed.

Lemma np_where_full (mask : list bool) :
  length (np_where mask) = length mask -> np_where mask = seq 0 (length mask).
Proof.
  induction mask as [|b mask IH]; [done|].
  rewrite np_where_cons, length_app, length_map.
  pose proof (np_where_length_le mask) as Hle.
  destruct b; cbn [length app Nat.add]; [|lia].
  intros [= H]. rewrite (IH H). cbn [seq]. by rewrite <- fmap_S_seq.
Qed.

Lemma used_vertex_concat (F : list face) (i : nat) :
  i ∈ concat (map face_list F) <-> used_vertex F i.
Proof.
  unfold used_vertex. rewrite list_elem_of_In, in_concat. split.
  - intros (l & Hl & Hi). apply in_map_iff in Hl as (f & <- & Hf).
    exists f. by rewrite !list_elem_of_In.
  - intros (f & Hf & Hi). exists (face_list f).
    rewrite in_map_iff, <- list_elem_of_In. split; [|done].
    exists f. by rewrite <- list_elem_of_In.
Qed.

Lemma sends_face (a : list nat) (g f : face) :
  sends a g f <->
  a !! f0 g = Some (f0 f) /\ a !! f1 g = Some (f1 f)
  /\ a !! f2 g = Some (f2 f) /\ a !! f3 g = Some (f3 f).
Proof.
  unfold sends, face_list. split.
  - intros H. inversion H as [|? ? ? ? H0 H']; subst.
    inversion H' as [|? ? ? ? H1 H'']; subst.
    inversion H'' as [|? ? ? ? H2 H''']; subst.
    inversion H''' as [|? ? ? ? H3 _]; subst. done.
  - intros (H0 & H1 & H2 & H3). by repeat constructor.
Qed.

Lemma remove_unused_vertices_spec (m : Mesh) :
  valid_faces m ->
  connectivity_cached m ->
  exists m' id_v,
    remove_unused_vertices m = (Ok tt, m')
    /\ StronglySorted lt id_v
    /\ (forall i, i ∈ id_v <-> used_vertex (_faces m) i)
    /\ _vertices m' = map (pt (_vertices m)) id_v
    /\ Forall2 (fun f g => sends id_v g f) (_faces m) (_faces m')
    /\ __internals__ m' !! "v_v" = None
    /\ (forall k, ~ conn_key k -> __internals__ m' !! k = __internals__ m !! k)
    /\ ((forall j, (j < length (_vertices m))%nat -> used_vertex (_faces m) j) ->
        _vertices m' = _vertices m /\ _faces m' = _faces m).
Proof.
  intros Hvalid Hconn.
  set (V := _vertices m) in *. set (F := _faces m) in *.
  set (refs := concat (map face_list F)).
  assert (Hrange : Forall (fun i => (i < length (replicate (length V) false))%nat) refs).
  { rewrite length_replicate. apply Forall_forall. intros i Hi.
    apply used_vertex_concat in Hi as (f & Hf & Hi).
    eapply Forall_forall in Hvalid; [|exact Hf].
    by eapply Forall_forall in Hvalid. }
  destruct (mark_spec _ _ Hrange) as (mask & Hmark & Hlen & Hmask).
  rewrite length_replicate in Hlen.
  set (id_v := np_where mask).
  assert (Hid : forall i, i ∈ id_v <-> used_vertex F i).
  { intros i. subst id_v. rewrite np_where_elem, Hmask, <- used_vertex_concat.
    split; [|tauto]. intros [H|H]; [|done].
    apply lookup_replicate in H as [? _]. done. }
  assert (Hlt : forall i, i ∈ id_v -> (i < length V)%nat).
  { intros i Hi. apply np_where_elem, lookup_lt_Some in Hi. lia. }
  assert (Hsorted : StronglySorted lt id_v) by apply np_where_sorted.
  destruct (decide (sum_bool mask < length V)%nat) as [Hfew|Hall].
  - (* some vertex is not used *)
    destruct (put_ids_lookup id_v (seq 0 (length id_v)) (seq 0 (length V)))
      as (new_id & Hput & _ & Hnew & _).
    { by apply sorted_lt_NoDup. }
    { by rewrite length_seq. }
    { rewrite length_seq. apply Forall_forall. exact Hlt. }
    destruct (rmapM_Forall2 (map_face (item new_id))
                (fun f g => sends id_v g f) F)
      as (faces' & Hfaces & Hsends).
    { intros f Hf.
      assert (Hslot : forall o, o ∈ face_list f ->
                exists n, item new_id o = Ok n /\ id_v !! n = Some o).
      { intros o Ho.
        assert (Hin : o ∈ id_v) by (apply Hid; exists f; eauto).
        apply list_elem_of_lookup in Hin as [n Hn].
        exists n. split; [|done]. unfold item.
        rewrite (Hnew n o n Hn); [done|].
        apply lookup_seq. split; [done|]. by apply lookup_lt_Some in Hn. }
      destruct (Hslot (f0 f)) as (a & Ha & Ha'); [apply list_elem_of_In; cbn; tauto|].
      destruct (Hslot (f1 f)) as (b & Hb & Hb'); [apply list_elem_of_In; cbn; tauto|].
      destruct (Hslot (f2 f)) as (c' & Hc & Hc'); [apply list_elem_of_In; cbn; tauto|].
      destruct (Hslot (f3 f)) as (d & Hd & Hd'); [apply list_elem_of_In; cbn; tauto|].
      exists (mkface a b c' d). unfold map_face. rewrite Ha, Hb, Hc, Hd. cbn.
      split; [done|]. unfold sends, face_list. cbn. by repeat constructor. }
    set (m1 := with_faces faces' (with_vertices (map (pt V) id_v) m)).
    destruct (_remove_connectivity_run m1 Hconn)
      as (b & m' & Hb & Hrun & HV' & HF' & Hnone & Hkeep).
    exists m', id_v. split.
    { unfold remove_unused_vertices, nb_vertices. rewrite !bind_get.
      fold V F refs. rewrite (bind_lift_Ok _ _ _ _ Hmark). cbv zeta.
      rewrite decide_True by done.
      erewrite bind_Ok.
      2:{ unfold put_mask. rewrite length_seq, decide_True by done.
          rewrite sum_bool_where. fold id_v.
          rewrite (bind_lift_Ok _ _ _ _ Hput).
          rewrite (bind_lift_Ok _ _ _ _ Hfaces).
          rewrite (bind_lift_Ok _ _ (map (pt V) id_v)); [reflexivity|].
          rewrite take_mask_take_ids by done. fold id_v.
          apply rmapM_Ok. intros i Hi. apply item_pt. by apply Hlt. }
      cbv beta iota. rewrite !bind_modify. fold m1.
      by rewrite (bind_Ok _ _ _ _ _ Hb). }
    split; [done|]. split; [done|]. rewrite HV', HF'. cbn.
    split; [done|]. split; [done|]. split; [done|]. split; [exact Hkeep|].
    intros Hused. exfalso.
    assert (Hfull : np_where mask = seq 0 (length mask)).
    { unfold np_where. apply filter_all, Forall_forall. intros i Hi.
      apply elem_of_seq in Hi. apply np_where_elem. fold id_v.
      apply Hid, Hused. lia. }
    rewrite sum_bool_where, Hfull, length_seq in Hfew. lia.
  - (* every vertex is used *)
    assert (Hfull : id_v = seq 0 (length V)).
    { subst id_v. rewrite <- Hlen. apply np_where_full.
      rewrite <- sum_bool_where. pose proof (np_where_length_le mask) as Hle.
      rewrite <- sum_bool_where in Hle. lia. }
    set (m1 := with_faces F (with_vertices V m)).
    destruct (_remove_connectivity_run m1 Hconn)
      as (b & m' & Hb & Hrun & HV' & HF' & Hnone & Hkeep).
    exists m', id_v. split.
    { unfold remove_unused_vertices, nb_vertices. rewrite !bind_get.
      fold V F refs. rewrite (bind_lift_Ok _ _ _ _ Hmark). cbv zeta.
      rewrite decide_False by done.
      rewrite (bind_Ok _ _ _ (V, F) m) by done.
      cbv beta iota. rewrite !bind_modify. fold m1.
      by rewrite (bind_Ok _ _ _ _ _ Hb). }
    split; [done|]. split; [done|]. rewrite HV', HF'. cbn.
    split.
    { rewrite Hfull. apply list_eq. intros i.
      change (map (pt V) (seq 0 (length V))) with (pt V <$> seq 0 (length V)).
      rewrite list_lookup_fmap.
      destruct (V !! i) as [v|] eqn:Hv.
      - rewrite (proj2 (lookup_seq 0 (length V) i i)).
        + cbn. unfold pt. by rewrite Hv.
        + split; [done|]. by apply lookup_lt_Some in Hv.
      - rewrite lookup_ge_None_2; [done|].
        rewrite length_seq. by apply lookup_ge_None in Hv. }
    split; [|split; [done|split; [exact Hkeep|done]]].
    apply Forall_Forall2_diag, Forall_forall. intros f Hf.
    eapply Forall_forall in Hvalid; [|exact Hf].
    apply sends_face. rewrite Hfull.
    assert (Hs : forall i, i ∈ face_list f ->
               seq 0 (length V) !! i = Some i).
    { intros i Hi. eapply Forall_forall in Hvalid; [|exact Hi].
      by apply lookup_seq. }
    repeat split; apply Hs; apply list_elem_of_In; cbn; tauto.
Qed.

Lemma sorted_lookup_inj (l : list nat) (i j x : nat) :
  StronglySorted lt l -> l !! i = Some x -> l !! j = Some x -> i = j.
Proof. intros Hs. apply NoDup_lookup. by apply sorted_lt_NoDup. Qed.

Lemma renumbered_points (V V' : list vec) (F F' : list face) (id_v : list nat) :
  StronglySorted lt id_v ->
  V' = map (pt V) id_v ->
  Forall2 (fun f g => sends id_v g f) F F' ->
  Forall2
    (fun f g =>
       pt V' (f0 g) = pt V (f0 f) /\ pt V' (f1 g) = pt V (f1 f)
       /\ pt V' (f2 g) = pt V (f2 f) /\ pt V' (f3 g) = pt V (f3 f)
       /\ (f0 g = f3 g <-> f0 f = f3 f))
    F F'.
Proof.
  intros Hsorted -> HF. eapply Forall2_impl; [exact HF|]. intros f g Hs.
  apply sends_face in Hs as (H0 & H1 & H2 & H3).
  rewrite (pt_map_pt _ _ _ _ H0), (pt_map_pt _ _ _ _ H1),
    (pt_map_pt _ _ _ _ H2), (pt_map_pt _ _ _ _ H3).
  repeat split; try done.
  - intros He. rewrite He in H0. congruence.
  - intros He. rewrite He in H0. by apply (sorted_lookup_inj id_v _ _ (f3 f)).
Qed.

Lemma renumbered_used (F F' : list face) (id_v : list nat) (j : nat) :
  StronglySorted lt id_v ->
  (forall i, i ∈ id_v <-> used_vertex F i) ->
  Forall2 (fun f g => sends id_v g f) F F' ->
  (j < length id_v)%nat ->
  used_vertex F' j.
Proof.
  intros Hsorted Hid HF Hj.
  destruct (lookup_lt_is_Some_2 id_v j Hj) as [o Ho].
  assert (Hused : used_vertex F o).
  { apply Hid. by apply list_elem_of_lookup_2 in Ho. }
  destruct Hused as (f & Hf & Hof).
  apply list_elem_of_lookup in Hf as [n Hn].
  destruct (Forall2_lookup_l _ _ _ _ _ HF Hn) as (g & Hg & Hs).
  exists g. split; [by apply list_elem_of_lookup_2 in Hg|].
  apply sends_face in Hs as (H0 & H1 & H2 & H3).
  apply list_elem_of_In in Hof. cbn in Hof.
  apply list_elem_of_In. cbn.
  destruct Hof as [<-|[<-|[<-|[<-|[]]]]].
  - left. by apply (sorted_lookup_inj id_v _ _ (f0 f)).
  - right. left. by apply (sorted_lookup_inj id_v _ _ (f1 f)).
  - right. right. left. by apply (sorted_lookup_inj id_v _ _ (f2 f)).
  - right. right. right. left. by apply (sorted_lookup_inj id_v _ _ (f3 f)).
Qed.

Lemma renumbered_valid (F F' : list face) (id_v : list nat) :
  Forall2 (fun f g => sends id_v g f) F F' ->
  Forall (fun g => Forall (fun i => (i < length id_v)%nat) (face_list g)) F'.
Proof.
  intros HF. apply Forall_forall. intros g Hg.
  apply list_elem_of_lookup in Hg as [n Hn].
  destruct (Forall2_lookup_r _ _ _ _ _ HF Hn) as (f & Hf & Hs).
  apply sends_face in Hs as (H0 & H1 & H2 & H3).
  unfold face_list. repeat constructor; eapply lookup_lt_Some; eassumption.
Qed.

Lemma renumbered_count (m : Mesh) (id_v : list nat) :
  valid_faces m ->
  StronglySorted lt id_v ->
  (forall i, i ∈ id_v <-> used_vertex (_faces m) i) ->
  (length id_v <= length (_vertices m))%nat.
Proof.
  intros Hvalid Hsorted Hid.
  assert (Hnd : NoDup id_v) by (by apply sorted_lt_NoDup).
  assert (Hsub : id_v ⊆ seq 0 (length (_vertices m))).
  { intros i Hi. apply elem_of_seq. apply Hid in Hi as (f & Hf & Hi).
    eapply Forall_forall in Hvalid; [|exact Hf].
    eapply Forall_forall in Hvalid; [|exact Hi]. lia. }
  pose proof (submseteq_length _ _ (NoDup_submseteq _ _ Hnd Hsub)) as Hle.
  by rewrite length_seq in Hle.
Qed.

(** X16.  [remove_unused_vertices] compacts the vertex array without
    changing the geometry.  On a mesh whose faces refer to existing vertices
    (and whose cached connectivity, if any, is complete) the call returns;
    there are as many faces as before and each slot of each face refers to
    the same point as before; a face closes on its first vertex exactly when
    it did before; every vertex of the new array is a slot of some face; the
    faces still refer to existing vertices, of which there are no more than
    before; and the connectivity is not cached afterwards. *)
Theorem remove_unused_vertices_compacts (m : Mesh) :
  valid_faces m ->
  connectivity_cached m ->
  exists m',
    remove_unused_vertices m = (Ok tt, m')
    /\ Forall2
         (fun f g =>
            pt (_vertices m') (f0 g) = pt (_vertices m) (f0 f)
            /\ pt (_vertices m') (f1 g) = pt (_vertices m) (f1 f)
            /\ pt (_vertices m') (f2 g) = pt (_vertices m) (f2 f)
            /\ pt (_vertices m') (f3 g) = pt (_vertices m) (f3 f)
            /\ (f0 g = f3 g <-> f0 f = f3 f))
         (_faces m) (_faces m')
    /\ (forall j, (j < length (_vertices m'))%nat -> used_vertex (_faces m') j)
    /\ valid_faces m'
    /\ (length (_vertices m') <= length (_vertices m))%nat
    /\ __internals__ m' !! "v_v" = None.
Proof.
  intros Hvalid Hconn.
  destruct (remove_unused_vertices_spec m Hvalid Hconn)
    as (m' & id_v & Hrun & Hsorted & Hid & HV & HF & Hnone & _).
  exists m'. split; [done|].
  assert (Hlen : length (_vertices m') = length id_v) by (by rewrite HV, length_map).
  split; [by apply (renumbered_points _ _ _ _ id_v)|].
  split.
  { intros j Hj. rewrite Hlen in Hj.
    by apply (renumbered_used (_faces m) _ id_v). }
  split.
  { unfold valid_faces. rewrite Hlen. by apply (renumbered_valid (_faces m)). }
  split; [|done]. rewrite Hlen. by apply renumbered_count.
Qed.

Lemma remove_unused_vertices_compacts_witness :
  exists m',
    remove_unused_vertices offset_mesh = (Ok tt, m')
    /\ Forall2
         (fun f g =>
            pt (_vertices m') (f0 g) = pt (_vertices offset_mesh) (f0 f)
            /\ pt (_vertices m') (f1 g) = pt (_vertices offset_mesh) (f1 f)
            /\ pt (_vertices m') (f2 g) = pt (_vertices offset_mesh) (f2 f)
            /\ pt (_vertices m') (f3 g) = pt (_vertices offset_mesh) (f3 f)
            /\ (f0 g = f3 g <-> f0 f = f3 f))
         (_faces offset_mesh) (_faces m')
    /\ (forall j, (j < length (_vertices m'))%nat -> used_vertex (_faces m') j)
    /\ valid_faces m'
    /\ (length (_vertices m') <= length (_vertices offset_mesh))%nat
    /\ __internals__ m' !! "v_v" = None.
Proof.
  apply (remove_unused_vertices_compacts offset_mesh).
  - unfold valid_faces. cbn. repeat constructor.
  - by left.
Defined.

(** X17.  [remove_unused_vertices] does its work at the first call: a
    second call in a row returns and leaves the vertices and the faces as
    the first call left them. *)
Theorem remove_unused_vertices_twice (m : Mesh) :
  valid_faces m ->
  connectivity_cached m ->
  exists m1 m2,
    remove_unused_vertices m = (Ok tt, m1)
    /\ remove_unused_vertices m1 = (Ok tt, m2)
    /\ _vertices m2 = _vertices m1
    /\ _faces m2 = _faces m1.
Proof.
  intros Hvalid Hconn.
  destruct (remove_unused_vertices_spec m Hvalid Hconn)
    as (m1 & id_v & Hrun1 & Hsorted & Hid & HV & HF & Hnone & _).
  assert (Hlen : length (_vertices m1) = length id_v) by (by rewrite HV, length_map).
  assert (Hvalid1 : valid_faces m1).
  { unfold valid_faces. rewrite Hlen. by apply (renumbered_valid (_faces m)). }
  destruct (remove_unused_vertices_spec m1 Hvalid1 (or_introl Hnone))
    as (m2 & id_v' & Hrun2 & _ & _ & _ & _ & _ & _ & Hsame).
  exists m1, m2. split; [done|]. split; [done|]. apply Hsame.
  intros j Hj. rewrite Hlen in Hj.
  by apply (renumbered_used (_faces m) _ id_v).
Qed.

Lemma remove_unused_vertices_twice_witness :
  exists m1 m2,
    remove_unused_vertices offset_mesh = (Ok tt, m1)
    /\ remove_unused_vertices m1 = (Ok tt, m2)
    /\ _vertices m2 = _vertices m1
    /\ _faces m2 = _faces m1.
Proof.
  apply (remove_unused_vertices_twice offset_mesh).
  - unfold valid_faces. cbn. repeat constructor.
  - by left.
Defined.

(** ** [axis_aligned_bbox] and [squared_axis_aligned_bbox] *)

Lemma foldl_Rmax_spec (l : list R) (x : R) :
  x <= foldl Rmax x l
  /\ (forall y, y ∈ l -> y <= foldl Rmax x l)
  /\ (foldl Rmax x l = x \/ foldl Rmax x l ∈ l).
Proof.
  revert x. induction l as [|a l IH]; intros x; cbn [foldl].
  - split; [lra|]. split; [|by left]. intros y Hy. inversion Hy.
  - destruct (IH (Rmax x a)) as (H1 & H2 & H3).
    pose proof (Rmax_l x a). pose proof (Rmax_r x a).
    split; [lra|]. split.
    + intros y Hy. apply elem_of_cons in Hy as [->|Hy]; [lra|by apply H2].
    + destruct H3 as [H3|H3].
      * rewrite H3. unfold Rmax. destruct (Rle_dec x a); [right; left|by left].
      * right. by right.
Qed.

Lemma foldl_Rmin_spec (l : list R) (x : R) :
  foldl Rmin x l <= x
  /\ (forall y, y ∈ l -> foldl Rmin x l <= y)
  /\ (foldl Rmin x l = x \/ foldl Rmin x l ∈ l).
Proof.
  revert x. induction l as [|a l IH]; intros x; cbn [foldl].
  - split; [lra|]. split; [|by left]. intros y Hy. inversion Hy.
  - destruct (IH (Rmin x a)) as (H1 & H2 & H3).
    pose proof (Rmin_l x a). pose proof (Rmin_r x a).
    split; [lra|]. split.
    + intros y Hy. apply elem_of_cons in Hy as [->|Hy]; [lra|by apply H2].
    + destruct H3 as [H3|H3].
      * rewrite H3. unfold Rmin. destruct (Rle_dec x a); [by left|right; left].
      * right. by right.
Qed.

Lemma np_max_spec (l : list R) :
  l <> [] ->
  exists hi, np_max l = Ok hi /\ (forall y, y ∈ l -> y <= hi) /\ hi ∈ l.
Proof.
  destruct l as [|x l]; [done|]. intros _. eexists. split; [reflexivity|].
  destruct (foldl_Rmax_spec l x) as (H1 & H2 & H3). split.
  - intros y Hy. apply elem_of_cons in Hy as [->|Hy]; [done|by apply H2].
  - destruct H3 as [->|H3]; [left|by right].
Qed.

Lemma np_min_spec (l : list R) :
  l <> [] ->
  exists lo, np_min l = Ok lo /\ (forall y, y ∈ l -> lo <= y) /\ lo ∈ l.
Proof.
  destruct l as [|x l]; [done|]. intros _. eexists. split; [reflexivity|].
  destruct (foldl_Rmin_spec l x) as (H1 & H2 & H3). split.
  - intros y Hy. apply elem_of_cons in Hy as [->|Hy]; [done|by apply H2].
  - destruct H3 as [->|H3]; [left|by right].
Qed.

Lemma column_bounds (g : vec -> R) (V : list vec) :
  V <> [] ->
  exists lo hi,
    np_min (map g V) = Ok lo /\ np_max (map g V) = Ok hi
    /\ (forall p, p ∈ V -> lo <= g p <= hi)
    /\ (exists p, p ∈ V /\ g p = lo) /\ (exists p, p ∈ V /\ g p = hi).
Proof.
  intros Hne. assert (Hne' : map g V <> []) by (by destruct V).
  destruct (np_min_spec _ Hne') as (lo & Hlo & Hlo1 & Hlo2).
  destruct (np_max_spec _ Hne') as (hi & Hhi & Hhi1 & Hhi2).
  exists lo, hi. split; [done|]. split; [done|]. split.
  - intros p Hp.
    assert (Hin : g p ∈ map g V).
    { apply list_elem_of_In, in_map, list_elem_of_In, Hp. }
    split; [by apply Hlo1|by apply Hhi1].
  - split.
    + apply list_elem_of_In, in_map_iff in Hlo2 as (p & Hp & Hin).
      exists p. by rewrite <- list_elem_of_In in Hin.
    + apply list_elem_of_In, in_map_iff in Hhi2 as (p & Hp & Hin).
      exists p. by rewrite <- list_elem_of_In in Hin.
Qed.

Lemma axis_aligned_bbox_run (m : Mesh) :
  _vertices m <> [] ->
  exists xmin xmax ymin ymax zmin zmax,
    axis_aligned_bbox m = (Ok (xmin, xmax, ymin, ymax, zmin, zmax), m)
    /\ (forall p, p ∈ _vertices m ->
          xmin <= vx p <= xmax /\ ymin <= vy p <= ymax /\ zmin <= vz p <= zmax)
    /\ (exists p, p ∈ _vertices m /\ vx p = xmin)
    /\ (exists p, p ∈ _vertices m /\ vx p = xmax)
    /\ (exists p, p ∈ _vertices m /\ vy p = ymin)
    /\ (exists p, p ∈ _vertices m /\ vy p = ymax)
    /\ (exists p, p ∈ _vertices m /\ vz p = zmin)
    /\ (exists p, p ∈ _vertices m /\ vz p = zmax).
Proof.
  intros Hne.
  destruct (column_bounds vx _ Hne) as (xmin & xmax & Hx1 & Hx2 & Hx & Hxl & Hxh).
  destruct (column_bounds vy _ Hne) as (ymin & ymax & Hy1 & Hy2 & Hy & Hyl & Hyh).
  destruct (column_bounds vz _ Hne) as (zmin & zmax & Hz1 & Hz2 & Hz & Hzl & Hzh).
  exists xmin, xmax, ymin, ymax, zmin, zmax. split.
  - unfold axis_aligned_bbox, nb_vertices. rewrite bind_get.
    rewrite decide_True by (destruct (_vertices m); [done|cbn; lia]).
    rewrite bind_get.
    rewrite (bind_lift_Ok _ _ _ _ Hx1), (bind_lift_Ok _ _ _ _ Hx2).
    rewrite (bind_lift_Ok _ _ _ _ Hy1), (bind_lift_Ok _ _ _ _ Hy2).
    by rewrite (bind_lift_Ok _ _ _ _ Hz1), (bind_lift_Ok _ _ _ _ Hz2).
  - split; [|done]. intros p Hp. auto.
Qed.

(** X18.  [axis_aligned_bbox] is the tightest box around the vertices.  On
    a mesh with at least one vertex it returns six numbers such that every
    vertex lies between [xmin] and [xmax], [ymin] and [ymax], [zmin] and
    [zmax], and each of the six bounds is the coordinate of some vertex; on
    a mesh without vertices it returns six zeros.  The mesh is unchanged
    either way. *)
Theorem axis_aligned_bbox_tight (m : Mesh) :
  (_vertices m <> [] ->
   exists xmin xmax ymin ymax zmin zmax,
     axis_aligned_bbox m = (Ok (xmin, xmax, ymin, ymax, zmin, zmax), m)
     /\ (forall p, p ∈ _vertices m ->
           in_bbox (xmin, xmax, ymin, ymax, zmin, zmax) p)
     /\ (exists p, p ∈ _vertices m /\ vx p = xmin)
     /\ (exists p, p ∈ _vertices m /\ vx p = xmax)
     /\ (exists p, p ∈ _vertices m /\ vy p = ymin)
     /\ (exists p, p ∈ _vertices m /\ vy p = ymax)
     /\ (exists p, p ∈ _vertices m /\ vz p = zmin)
     /\ (exists p, p ∈ _vertices m /\ vz p = zmax))
  /\ (_vertices m = [] -> axis_aligned_bbox m = (Ok (0, 0, 0, 0, 0, 0), m)).
Proof.
  split.
  - intros Hne. exact (axis_aligned_bbox_run m Hne).
  - intros Hnil. unfold axis_aligned_bbox, nb_vertices. rewrite bind_get, Hnil.
    cbn [length]. by rewrite decide_False by lia.
Qed.

Lemma axis_aligned_bbox_tight_witness :
  exists xmin xmax ymin ymax zmin zmax,
    axis_aligned_bbox square_mesh
    = (Ok (xmin, xmax, ymin, ymax, zmin, zmax), square_mesh)
    /\ (forall p, p ∈ _vertices square_mesh ->
          in_bbox (xmin, xmax, ymin, ymax, zmin, zmax) p)
    /\ (exists p, p ∈ _vertices square_mesh /\ vx p = xmin)
    /\ (exists p, p ∈ _vertices square_mesh /\ vx p = xmax)
    /\ (exists p, p ∈ _vertices square_mesh /\ vy p = ymin)
    /\ (exists p, p ∈ _vertices square_mesh /\ vy p = ymax)
    /\ (exists p, p ∈ _vertices square_mesh /\ vz p = zmin)
    /\ (exists p, p ∈ _vertices square_mesh /\ vz p = zmax).
Proof.
  apply (axis_aligned_bbox_tight square_mesh). discriminate.
Defined.

(** X19.  [squared_axis_aligned_bbox] is a cube around the bounding box.
    On a mesh with at least one vertex it returns a box whose three sides
    have the same length, whose center is the center of
    [axis_aligned_bbox], and which contains that box, hence every vertex of
    the mesh. *)
Theorem squared_axis_aligned_bbox_cube (m : Mesh) :
  _vertices m <> [] ->
  exists xmin xmax ymin ymax zmin zmax sxmin sxmax symin symax szmin szmax,
    axis_aligned_bbox m = (Ok (xmin, xmax, ymin, ymax, zmin, zmax), m)
    /\ squared_axis_aligned_bbox m
       = (Ok (sxmin, sxmax, symin, symax, szmin, szmax), m)
    /\ sxmax - sxmin = symax - symin
    /\ symax - symin = szmax - szmin
    /\ sxmin + sxmax = xmin + xmax
    /\ symin + symax = ymin + ymax
    /\ szmin + szmax = zmin + zmax
    /\ sxmin <= xmin /\ xmax <= sxmax
    /\ symin <= ymin /\ ymax <= symax
    /\ szmin <= zmin /\ zmax <= szmax
    /\ (forall p, p ∈ _vertices m ->
          in_bbox (sxmin, sxmax, symin, symax, szmin, szmax) p).
Proof.
  intros Hne.
  destruct (axis_aligned_bbox_run m Hne)
    as (xmin & xmax & ymin & ymax & zmin & zmax & Hrun & Hin & _).
  set (l := [(xmax - xmin) * (1 / 2); (ymax - ymin) * (1 / 2);
             (zmax - zmin) * (1 / 2)]).
  destruct (np_max_spec l) as (d & Hd & Hd1 & _); [done|].
  assert (Hx : (xmax - xmin) * (1 / 2) <= d)
    by (apply Hd1, list_elem_of_In; cbn; tauto).
  assert (Hy : (ymax - ymin) * (1 / 2) <= d)
    by (apply Hd1, list_elem_of_In; cbn; tauto).
  assert (Hz : (zmax - zmin) * (1 / 2) <= d)
    by (apply Hd1, list_elem_of_In; cbn; tauto).
  eexists xmin, xmax, ymin, ymax, zmin, zmax, _, _, _, _, _, _.
  split; [done|]. split.
  { unfold squared_axis_aligned_bbox. rewrite (bind_Ok _ _ _ _ _ Hrun).
    cbv beta iota zeta. fold l. rewrite (bind_lift_Ok _ _ _ _ Hd). reflexivity. }
  repeat (split; [lra|]).
  intros p Hp. destruct (Hin p Hp) as (Hpx & Hpy & Hpz).
  unfold in_bbox. lra.
Qed.

Lemma squared_axis_aligned_bbox_cube_witness :
  exists xmin xmax ymin ymax zmin zmax sxmin sxmax symin symax szmin szmax,
    axis_aligned_bbox square_mesh
    = (Ok (xmin, xmax, ymin, ymax, zmin, zmax), square_mesh)
    /\ squared_axis_aligned_bbox square_mesh
       = (Ok (sxmin, sxmax, symin, symax, szmin, szmax), square_mesh)
    /\ sxmax - sxmin = symax - symin
    /\ symax - symin = szmax - szmin
    /\ sxmin + sxmax = xmin + xmax
    /\ symin + symax = ymin + ymax
    /\ szmin + szmax = zmin + zmax
    /\ sxmin <= xmin /\ xmax <= sxmax
    /\ symin <= ymin /\ ymax <= symax
    /\ szmin <= zmin /\ zmax <= szmax
    /\ (forall p, p ∈ _vertices square_mesh ->
          in_bbox (sxmin, sxmax, symin, symax, szmin, szmax) p).
Proof.
  apply (squared_axis_aligned_bbox_cube square_mesh). discriminate.
Defined.

(** ** [_edges_stats] *)

Lemma quad_points_pt (V : list vec) (f : face) :
  Forall (fun i => (i < length V)%nat) (face_list f) ->
  quad_points V f = Ok (pt V (f0 f), pt V (f1 f), pt V (f2 f), pt V (f3 f)).
Proof.
  intros H. unfold face_list in H.
  inversion H as [|? ? H0 H']; subst. inversion H' as [|? ? H1 H'']; subst.
  inversion H'' as [|? ? H2 H''']; subst. inversion H''' as [|? ? H3 _]; subst.
  unfold quad_points. by rewrite !item_pt by done.
Qed.

Lemma sum_R_bounds (l : list R) (lo hi : R) :
  (forall y, y ∈ l -> lo <= y <= hi) ->
  lo * INR (length l) <= sum_R l <= hi * INR (length l).
Proof.
  induction l as [|a l IH]; intros H.
  - unfold sum_R. cbn. lra.
  - assert (Ha : lo <= a <= hi) by (apply H; left).
    assert (Hl : forall y, y ∈ l -> lo <= y <= hi) by (intros y Hy; apply H; by right).
    specialize (IH Hl). change (length (a :: l)) with (S (length l)).
    rewrite S_INR. unfold sum_R in *. cbn [foldr]. lra.
Qed.

Lemma _edges_stats_run (m : Mesh) :
  valid_faces m ->
  _faces m <> [] ->
  exists lo hi,
    _edges_stats m
    = (Ok (lo, hi,
           sum_R (concat (map (edges_of (_vertices m)) (_faces m)))
           / INR (4 * length (_faces m))), m)
    /\ (forall f y, f ∈ _faces m -> y ∈ edges_of (_vertices m) f -> lo <= y <= hi)
    /\ (exists f, f ∈ _faces m /\ lo ∈ edges_of (_vertices m) f)
    /\ (exists f, f ∈ _faces m /\ hi ∈ edges_of (_vertices m) f)
    /\ lo * INR (4 * length (_faces m))
       <= sum_R (concat (map (edges_of (_vertices m)) (_faces m)))
       <= hi * INR (4 * length (_faces m)).
Proof.
  intros Hvalid Hne.
  set (V := _vertices m) in *. set (F := _faces m) in *.
  assert (Hq : rmapM (quad_points V) F
               = Ok (map (fun f => (pt V (f0 f), pt V (f1 f), pt V (f2 f), pt V (f3 f))) F)).
  { apply rmapM_Ok. intros f Hf. apply quad_points_pt.
    by eapply Forall_forall in Hvalid. }
  set (flat := concat (map (edges_of V) F)).
  assert (Hflat : concat (map edge_lengths
                    (map (fun f => (pt V (f0 f), pt V (f1 f), pt V (f2 f), pt V (f3 f))) F))
                  = flat).
  { by rewrite map_map. }
  assert (Hlen : length flat = (4 * length F)%nat).
  { subst flat. clear. induction F as [|f F IH]; [done|].
    cbn [map concat length]. rewrite length_app, IH. cbn. lia. }
  assert (Hmem : forall y, y ∈ flat <-> exists f, f ∈ F /\ y ∈ edges_of V f).
  { intros y. subst flat. rewrite list_elem_of_In, in_concat. split.
    - intros (l & Hl & Hy). apply in_map_iff in Hl as (f & <- & Hf).
      exists f. by rewrite !list_elem_of_In.
    - intros (f & Hf & Hy). exists (edges_of V f).
      rewrite in_map_iff, <- list_elem_of_In. split; [|done].
      exists f. by rewrite <- list_elem_of_In. }
  assert (Hne' : flat <> []).
  { intros Hnil. apply (f_equal length) in Hnil. rewrite Hlen in Hnil.
    destruct F; [done|]. cbn in Hnil. lia. }
  destruct (np_min_spec _ Hne') as (lo & Hlo & Hlo1 & Hlo2).
  destruct (np_max_spec _ Hne') as (hi & Hhi & Hhi1 & Hhi2).
  exists lo, hi. split.
  { unfold _edges_stats. rewrite !bind_get. fold V F.
    rewrite (bind_lift_Ok _ _ _ _ Hq). cbv zeta. rewrite Hflat.
    rewrite (bind_lift_Ok _ _ _ _ Hlo), (bind_lift_Ok _ _ _ _ Hhi).
    by rewrite Hlen. }
  assert (Hb : forall y, y ∈ flat -> lo <= y <= hi).
  { intros y Hy. split; [by apply Hlo1|by apply Hhi1]. }
  split; [|split; [|split]].
  - intros f y Hf Hy. apply Hb, Hmem. eauto.
  - by apply Hmem.
  - by apply Hmem.
  - rewrite <- Hlen. by apply sum_R_bounds.
Qed.

(** X20.  The three edge statistics are ordered.  On a mesh with at least
    one face whose faces refer to existing vertices, [_edges_stats] returns
    [(min, max, mean)] with [0 <= min <= mean <= max]; every edge of every
    face (the edge from the last slot back to the first included) has its
    length between [min] and [max], and [min] and [max] are the lengths of
    edges of the mesh.  The mesh is unchanged. *)
Theorem _edges_stats_ordered (m : Mesh) :
  valid_faces m ->
  _faces m <> [] ->
  exists lo hi mean,
    _edges_stats m = (Ok (lo, hi, mean), m)
    /\ 0 <= lo /\ lo <= mean /\ mean <= hi
    /\ (forall f y, f ∈ _faces m -> y ∈ edges_of (_vertices m) f -> lo <= y <= hi)
    /\ (exists f, f ∈ _faces m /\ lo ∈ edges_of (_vertices m) f)
    /\ (exists f, f ∈ _faces m /\ hi ∈ edges_of (_vertices m) f).
Proof.
  intros Hvalid Hne.
  destruct (_edges_stats_run m Hvalid Hne)
    as (lo & hi & Hrun & Hb & Hlo & Hhi & Hsum).
  eexists lo, hi, _. split; [exact Hrun|].
  assert (Hn : 0 < INR (4 * length (_faces m))).
  { apply lt_0_INR. destruct (_faces m); [done|]. cbn. lia. }
  split.
  { destruct Hlo as (f & _ & Hin). unfold edges_of, edge_lengths in Hin.
    apply list_elem_of_In in Hin. cbn in Hin.
    destruct Hin as [<-|[<-|[<-|[<-|[]]]]]; apply sqrt_pos. }
  split.
  { apply (Rmult_le_reg_r (INR (4 * length (_faces m)))); [done|].
    unfold Rdiv. rewrite Rmult_assoc, Rinv_l by lra. lra. }
  split; [|done].
  apply (Rmult_le_reg_r (INR (4 * length (_faces m)))); [done|].
  unfold Rdiv. rewrite Rmult_assoc, Rinv_l by lra. lra.
Qed.

Lemma _edges_stats_ordered_witness :
  exists lo hi mean,
    _edges_stats square_mesh = (Ok (lo, hi, mean), square_mesh)
    /\ 0 <= lo /\ lo <= mean /\ mean <= hi
    /\ (forall f y, f ∈ _faces square_mesh ->
                    y ∈ edges_of (_vertices square_mesh) f -> lo <= y <= hi)
    /\ (exists f, f ∈ _faces square_mesh /\ lo ∈ edges_of (_vertices square_mesh) f)
    /\ (exists f, f ∈ _faces square_mesh /\ hi ∈ edges_of (_vertices square_mesh) f).
Proof.
  apply (_edges_stats_ordered square_mesh).
  - unfold valid_faces. cbn. repeat constructor.
  - discriminate.
Defined.

(** X21.  A triangle makes the minimum edge length zero.  A triangle is
    stored with its first vertex repeated in the last slot, and
    [_edges_stats] counts the edge from the last slot back to the first for
    every face: on a mesh whose faces refer to existing vertices and which
    holds a face with [face[0] == face[3]], [min_edge_length] returns [0].
    On a mesh without faces the three statistics raise [ValueError]. *)
Theorem min_edge_length_of_triangles (m : Mesh) :
  (valid_faces m ->
   (exists f, f ∈ _faces m /\ f0 f = f3 f) ->
   min_edge_length m = (Ok 0, m))
  /\ (_faces m = [] ->
      min_edge_length m = (Err ValueError, m)
      /\ max_edge_length m = (Err ValueError, m)
      /\ mean_edge_length m = (Err ValueError, m)).
Proof.
  split.
  - intros Hvalid (f & Hf & Htri).
    assert (Hne : _faces m <> []) by (intros Hnil; rewrite Hnil in Hf; inversion Hf).
    destruct (_edges_stats_run m Hvalid Hne)
      as (lo & hi & Hrun & Hb & Hlo & _).
    unfold min_edge_length. rewrite (bind_Ok _ _ _ _ _ Hrun). cbn [fst].
    assert (Hz : (0 : R) ∈ edges_of (_vertices m) f).
    { unfold edges_of, edge_lengths. rewrite Htri. apply list_elem_of_In. left.
      replace (dot _ _) with 0 by (unfold dot, vsub; cbn; ring).
      apply sqrt_0. }
    assert (Hle : lo <= 0) by (apply (Hb f 0 Hf Hz)).
    assert (Hge : 0 <= lo).
    { destruct Hlo as (g & _ & Hin). unfold edges_of, edge_lengths in Hin.
      apply list_elem_of_In in Hin. cbn in Hin.
      destruct Hin as [<-|[<-|[<-|[<-|[]]]]]; apply sqrt_pos. }
    unfold ret. do 2 f_equal. lra.
  - intros Hnil.
    assert (Hrun : _edges_stats m = (Err ValueError, m)).
    { unfold _edges_stats. rewrite !bind_get, Hnil. done. }
    unfold min_edge_length, max_edge_length, mean_edge_length.
    by rewrite !(bind_Err _ _ _ _ _ Hrun).
Qed.

Lemma min_edge_length_of_triangles_witness :
  min_edge_length triangle_mesh = (Ok 0, triangle_mesh).
Proof.
  apply (min_edge_length_of_triangles triangle_mesh).
  - unfold valid_faces. cbn. repeat constructor.
  - exists (mkface 0 1 2 0). split; [|done]. apply list_elem_of_In. cbn. tauto.
Defined.

(** ** [triangulate_quadrangles], again *)

Lemma norm_cross_swap (a b : vec) : norm (cross a b) = norm (cross b a).
Proof. unfold norm, cross. cbn. f_equal. ring. Qed.

Lemma area_of_halves (V : list vec) (f : face) :
  is_tri f = false ->
  area_of V (mkface (f0 f) (f2 f) (f3 f) (f0 f))
  + area_of V (mkface (f0 f) (f1 f) (f2 f) (f0 f))
  = area_of V f.
Proof.
  intros Hq. unfold area_of. rewrite Hq.
  rewrite !(proj2 (is_tri_true _)) by done.
  unfold tri_cross, quad_a1, quad_a2. cbn [f0 f1 f2 f3].
  rewrite (norm_cross_swap (vsub (pt V (f3 f)) (pt V (f0 f)))). lra.
Qed.

Lemma sum_R_cons (x : R) (l : list R) : sum_R (x :: l) = x + sum_R l.
Proof. done. Qed.

Lemma sum_areas_split (V : list vec) (F : list face) :
  sum_R (map (area_of V)
           (map (fun f => if is_tri f then f
                          else mkface (f0 f) (f2 f) (f3 f) (f0 f)) F
            ++ map (fun q => mkface (f0 q) (f1 q) (f2 q) (f0 q))
                   (filter (fun f => negb (is_tri f) = true) F)))
  = sum_R (map (area_of V) F).
Proof.
  rewrite map_app, sum_R_app.
  induction F as [|f F IH]; [unfold sum_R; cbn; lra|].
  cbn [map]. rewrite filter_cons, !sum_R_cons.
  destruct (is_tri f) eqn:Ht; cbn [negb].
  - rewrite decide_False by done. lra.
  - rewrite decide_True by done. cbn [map]. rewrite sum_R_cons.
    pose proof (area_of_halves V f Ht). lra.
Qed.

(** X22.  [triangulate_quadrangles] keeps the total area.  Each quadrangle
    is cut along the diagonal from its first to its third vertex, the one
    along which [_faces_properties] measures it, so on a mesh whose cached
    classification, if any, is up to date the areas of the faces after the
    call add up to what the areas of the faces added up to before. *)
Theorem triangulate_quadrangles_keeps_area (m : Mesh) :
  classification_ok m ->
  exists F' m',
    triangulate_quadrangles m = (Ok F', m')
    /\ _faces m' = F'
    /\ _vertices m' = _vertices m
    /\ sum_R (map (area_of (_vertices m')) (_faces m'))
       = sum_R (map (area_of (_vertices m)) (_faces m)).
Proof.
  intros Hok. eexists _, _.
  split; [by apply triangulate_quadrangles_spec|].
  cbn [_faces _vertices]. split; [done|]. split; [done|].
  apply sum_areas_split.
Qed.

Lemma triangulate_quadrangles_keeps_area_witness :
  exists F' m',
    triangulate_quadrangles square_mesh = (Ok F', m')
    /\ _faces m' = F'
    /\ _vertices m' = _vertices square_mesh
    /\ sum_R (map (area_of (_vertices m')) (_faces m'))
       = sum_R (map (area_of (_vertices square_mesh)) (_faces square_mesh)).
Proof.
  apply (triangulate_quadrangles_keeps_area square_mesh). exact I.
Defined.

Lemma filter_none {A} (P : A -> Prop) `{forall x, Decision (P x)} (l : list A) :
  Forall (fun x => ~ P x) l -> filter P l = [].
Proof.
  induction 1 as [|x l Hx Hl IH]; [done|].
  rewrite filter_cons. by rewrite decide_False.
Qed.

(** X23.  On a mesh whose cached classification, if any, is that of the
    current faces, a second [triangulate_quadrangles] changes nothing: after
    the first call every face satisfies [face[0] == face[3]] and the cache
    is empty, so the second call returns the same face array and leaves the
    mesh as the first call left it. *)
Theorem triangulate_quadrangles_twice (m : Mesh) :
  classification_ok m ->
  exists F' m',
    triangulate_quadrangles m = (Ok F', m')
    /\ _faces m' = F'
    /\ __internals__ m' = ∅
    /\ Forall (fun f => f0 f = f3 f) F'
    /\ triangulate_quadrangles m' = (Ok F', m').
Proof.
  intros Hok.
  set (F' := map (fun f => if is_tri f then f
                           else mkface (f0 f) (f2 f) (f3 f) (f0 f)) (_faces m)
             ++ map (fun q => mkface (f0 q) (f1 q) (f2 q) (f0 q))
                    (filter (fun f => negb (is_tri f) = true) (_faces m))).
  assert (Htri : Forall (fun f => is_tri f = true) F').
  { subst F'. apply Forall_app. split.
    - apply Forall_forall. intros f Hf.
      apply list_elem_of_In, in_map_iff in Hf as (x & <- & _).
      destruct (is_tri x) eqn:Hx; [done|by apply is_tri_true].
    - apply Forall_forall. intros f Hf.
      apply list_elem_of_In, in_map_iff in Hf as (x & <- & _).
      by apply is_tri_true. }
  exists F', (mkMesh (_vertices m) F' (_id m) (_name m) (_verbose m) ∅).
  split; [by apply triangulate_quadrangles_spec|].
  split; [done|]. split; [done|]. split.
  { eapply Forall_impl; [exact Htri|]. intros f Hf. by apply is_tri_true. }
  rewrite triangulate_quadrangles_spec by exact I.
  cbn [_faces _vertices _id _name _verbose].
  assert (Hsame : map (fun f => if is_tri f then f
                                else mkface (f0 f) (f2 f) (f3 f) (f0 f)) F' = F').
  { rewrite <- (map_id F') at 2. apply map_ext_in. intros f Hf.
    apply list_elem_of_In in Hf. eapply Forall_forall in Htri; [|exact Hf].
    by rewrite Htri. }
  assert (Hnone : filter (fun f => negb (is_tri f) = true) F' = []).
  { apply filter_none. eapply Forall_impl; [exact Htri|].
    intros f Hf. cbn. by rewrite Hf. }
  by rewrite Hsame, Hnone, app_nil_r.
Qed.

Lemma triangulate_quadrangles_twice_witness :
  exists F' m',
    triangulate_quadrangles square_mesh = (Ok F', m')
    /\ _faces m' = F'
    /\ __internals__ m' = ∅
    /\ Forall (fun f => f0 f = f3 f) F'
    /\ triangulate_quadrangles m' = (Ok F', m').
Proof.
  apply (triangulate_quadrangles_twice square_mesh). exact I.
Defined.

(** ** [heal_normals] on a mesh without faces *)

Lemma empty_sets_lookup_lt (n i : nat) :
  (i < n)%nat -> empty_sets n !! i = Some ∅.
Proof.
  intros Hi. unfold empty_sets. apply elem_of_list_to_map_1.
  - rewrite map_map. cbn. rewrite map_id. apply NoDup_seq.
  - apply list_elem_of_In, in_map_iff. exists i. split; [done|].
    apply in_seq. lia.
Qed.

Lemma rfold_skip {A S} (f : S -> A -> result S) (l : list A) (s : S) :
  (forall a, a ∈ l -> f s a = Ok s) -> rfold f l s = Ok s.
Proof.
  induction l as [|a l IH]; intros H; [done|].
  cbn. rewrite H by left. cbn. apply IH. intros b Hb. apply H. by right.
Qed.

Section NoFaces.

Variable set_order : gset nat -> list nat.
Hypothesis set_order_perm : forall s, set_order s ≡ₚ elements s.

Lemma set_order_empty : set_order ∅ = [].
Proof.
  apply Permutation_nil_r. rewrite <- (elements_empty (C := gset nat)).
  apply set_order_perm.
Qed.

Lemma build_ff_no_faces (nv : nat) :
  build_ff set_order nv 0 [] (empty_sets nv) (empty_sets nv) = Ok (empty_sets 0, []).
Proof.
  unfold build_ff. apply rfold_skip. intros i Hi. apply elem_of_seq in Hi.
  unfold set_at. rewrite empty_sets_lookup_lt by lia. cbn.
  by rewrite set_order_empty.
Qed.

(** X24.  [heal_normals] cannot start on a mesh without faces.  When the
    face array is empty (the connectivity not cached, the cached
    classification, if any, up to date) the call computes and caches the
    connectivity, then fails at [f_vis[0] = True] with [IndexError]; the
    vertices and the faces are untouched and the four connectivity entries
    stay in the cache. *)
Theorem heal_normals_without_faces (m : Mesh) :
  _faces m = [] ->
  __internals__ m !! "v_v" = None ->
  classification_ok m ->
  exists m',
    heal_normals set_order m = (Err IndexError, m')
    /\ _vertices m' = _vertices m
    /\ _faces m' = []
    /\ __internals__ m' !! "v_v" = Some (VAdj (empty_sets (length (_vertices m))))
    /\ __internals__ m' !! "v_f" = Some (VAdj (empty_sets (length (_vertices m))))
    /\ __internals__ m' !! "f_f" = Some (VAdj ∅)
    /\ __internals__ m' !! "boundaries" = Some (VLoops []).
Proof.
  intros HF Hnone Hok.
  set (nv := length (_vertices m)).
  set (m1 := with_internals
               (<["boundaries" := VLoops []]>
                  (<["f_f" := VAdj ∅]>
                     (<["v_f" := VAdj (empty_sets nv)]>
                        (<["v_v" := VAdj (empty_sets nv)]> (__internals__ m))))) m).
  assert (Hconn : _connectivity set_order m = (Ok tt, m1)).
  { unfold _connectivity, nb_vertices, nb_faces. rewrite !bind_get, HF.
    fold nv. cbn [length].
    rewrite (bind_lift_Ok _ _ (empty_sets nv, empty_sets nv)) by done.
    cbv beta iota. by rewrite (bind_lift_Ok _ _ _ _ (build_ff_no_faces nv)). }
  assert (K1 : __internals__ m1 !! "v_v" = Some (VAdj (empty_sets nv)))
    by (subst m1; by keys).
  assert (K2 : __internals__ m1 !! "v_f" = Some (VAdj (empty_sets nv)))
    by (subst m1; by keys).
  assert (K3 : __internals__ m1 !! "f_f" = Some (VAdj ∅)) by (subst m1; by keys).
  assert (K4 : __internals__ m1 !! "boundaries" = Some (VLoops []))
    by (subst m1; by keys).
  assert (Hok1 : classification_ok m1).
  { unfold classification_ok. unfold classification_ok in Hok.
    assert (Hk : forall k, ~ conn_key k ->
               __internals__ m1 !! k = __internals__ m !! k).
    { intros k Hk. unfold conn_key in Hk. subst m1.
      cbn [__internals__ with_internals].
      rewrite !lookup_insert_ne; [done|..]; intros <-; tauto. }
    rewrite !Hk by (unfold conn_key; intros [?|[?|[?|?]]]; done).
    assert (HF1 : _faces m1 = _faces m) by done. by rewrite HF1. }
  exists (classified m1). split.
  { unfold heal_normals, nb_vertices, nb_faces. rewrite !bind_get.
    rewrite (bind_Ok _ _ _ (empty_sets nv) m1).
    2:{ unfold vv. rewrite (bind_Ok _ _ _ _ _ (has_key_false _ _ Hnone)).
        cbn [negb when]. rewrite (bind_Ok _ _ _ _ _ Hconn).
        by rewrite (bind_Ok _ _ _ _ _ (read_key_Some _ _ _ K1)). }
    rewrite (bind_Ok _ _ _ (empty_sets nv) m1).
    2:{ unfold vf. rewrite (bind_Ok _ _ _ true m1) by (apply has_key_true; by rewrite K2).
        cbn [negb when]. rewrite (bind_Ok _ _ _ tt m1) by done.
        by rewrite (bind_Ok _ _ _ _ _ (read_key_Some _ _ _ K2)). }
    rewrite (bind_Ok _ _ _ (∅ : adj) m1).
    2:{ unfold ff. rewrite (bind_Ok _ _ _ true m1) by (apply has_key_true; by rewrite K3).
        cbn [negb when]. rewrite (bind_Ok _ _ _ tt m1) by done.
        by rewrite (bind_Ok _ _ _ _ _ (read_key_Some _ _ _ K3)). }
    rewrite (bind_Ok _ _ _ ([] : list (list nat)) m1).
    2:{ unfold boundaries.
        rewrite (bind_Ok _ _ _ true m1) by (apply has_key_true; by rewrite K4).
        cbn [negb when]. rewrite (bind_Ok _ _ _ tt m1) by done.
        by rewrite (bind_Ok _ _ _ _ _ (read_key_Some _ _ _ K4)). }
    rewrite (bind_Ok _ _ _ _ _ (triangles_ids_spec m1 Hok1)).
    replace (_faces m1) with (@nil face) by (by rewrite <- HF).
    rewrite HF. cbn [length tri_ids_of map np_where replicate].
    rewrite (bind_lift_Ok _ _ []) by done.
    by rewrite (bind_Err _ _ _ IndexError (classified m1)). }
  unfold classified. cbn. subst m1. cbn. keys. by rewrite HF.
Qed.

End NoFaces.

Lemma heal_normals_without_faces_witness :
  exists m',
    heal_normals elements (Mesh_init [mkvec 0 0 0] [] None 0)
    = (Err IndexError, m')
    /\ _vertices m' = _vertices (Mesh_init [mkvec 0 0 0] [] None 0)
    /\ _faces m' = []
    /\ __internals__ m' !! "v_v"
       = Some (VAdj (empty_sets (length (_vertices (Mesh_init [mkvec 0 0 0] [] None 0)))))
    /\ __internals__ m' !! "v_f"
       = Some (VAdj (empty_sets (length (_vertices (Mesh_init [mkvec 0 0 0] [] None 0)))))
    /\ __internals__ m' !! "f_f" = Some (VAdj ∅)
    /\ __internals__ m' !! "boundaries" = Some (VLoops []).
Proof.
  apply (heal_normals_without_faces elements (fun s => reflexivity _)
           (Mesh_init [mkvec 0 0 0] [] None 0)).
  - reflexivity.
  - reflexivity.
  - exact I.
Defined.

(** ** The vertex dictionaries built by [_connectivity] *)

Lemma rfold_prefix {A S} (P : list A -> S -> Prop) (f : S -> A -> result S)
    (l : list A) (s s' : S) :
  P [] s ->
  (forall pre a s1 s2, P pre s1 -> f s1 a = Ok s2 -> P (pre ++ [a]) s2) ->
  rfold f l s = Ok s' -> P l s'.
Proof.
  revert P s. induction l as [|a l IH]; intros P s H0 Hstep; cbn.
  - by intros [= <-].
  - destruct (f s a) as [s1|e] eqn:Hf; cbn; [|done].
    apply (IH (fun pre => P (a :: pre))).
    + apply (Hstep [] a s s1 H0 Hf).
    + intros pre b s2 s3 Hp Hb. apply (Hstep (a :: pre) b s2 s3 Hp Hb).
Qed.

Lemma length_previous (w : list nat) : length (previous w) = length w.
Proof.
  unfold previous. destruct (reverse w) as [|x r] eqn:Hr.
  - apply (f_equal length) in Hr. rewrite length_reverse in Hr. by rewrite Hr.
  - apply (f_equal length) in Hr. rewrite length_reverse in Hr.
    cbn. rewrite length_reverse. by rewrite Hr.
Qed.

Lemma face_edges_lookup (f : face) (n p i : nat) :
  face_edges f !! n = Some (p, i)
  <-> previous (face_w f) !! n = Some p /\ face_w f !! n = Some i.
Proof.
  unfold face_edges. split.
  - intros H. apply lookup_zip_with_Some in H as (x & y & [= -> ->] & Hx & Hy).
    done.
  - intros [Hp Hi]. apply lookup_zip_with_Some. by exists p, i.
Qed.

Lemma face_edges_snd (f : face) (i : nat) :
  i ∈ face_w f <-> exists p, (p, i) ∈ face_edges f.
Proof.
  split.
  - intros Hi. apply list_elem_of_lookup in Hi as [n Hn].
    destruct (lookup_lt_is_Some_2 (previous (face_w f)) n) as [p Hp].
    { rewrite length_previous. by apply lookup_lt_Some in Hn. }
    exists p. apply list_elem_of_lookup. exists n.
    by apply face_edges_lookup.
  - intros (p & Hp). apply list_elem_of_lookup in Hp as [n Hn].
    apply face_edges_lookup in Hn as [_ Hn].
    by apply list_elem_of_lookup_2 in Hn.
Qed.

Section VertexDictionaries.

Variable set_order : gset nat -> list nat.

(** What the loop on one face adds to the two dictionaries. *)
Lemma face_step (iface : nat) (f : face) (v_v v_f v_v' v_f' : adj) :
  rfold (fun '(v_v, v_f) '(prev, iV) =>
           v_f <~ set_add v_f iV iface ;
           v_v <~ set_add v_v prev iV ;
           v_v <~ set_add v_v iV prev ;
           Ok (v_v, v_f))
        (face_edges f) (v_v, v_f) = Ok (v_v', v_f') ->
  (forall a b, adjacent v_v' a b
               <-> adjacent v_v a b \/ (a, b) ∈ face_edges f \/ (b, a) ∈ face_edges f)
  /\ (forall i j, adjacent v_f' i j
                  <-> adjacent v_f i j \/ (j = iface /\ i ∈ face_w f))
  /\ (forall a, is_Some (v_v' !! a) <-> is_Some (v_v !! a))
  /\ (forall a, is_Some (v_f' !! a) <-> is_Some (v_f !! a)).
Proof.
  intros H.
  apply (rfold_prefix
           (fun pre '(vv', vf') =>
              (forall a b, adjacent vv' a b
                 <-> adjacent v_v a b \/ (a, b) ∈ pre \/ (b, a) ∈ pre)
              /\ (forall i j, adjacent vf' i j
                     <-> adjacent v_f i j \/ (j = iface /\ exists p, (p, i) ∈ pre))
              /\ (forall a, is_Some (vv' !! a) <-> is_Some (v_v !! a))
              /\ (forall a, is_Some (vf' !! a) <-> is_Some (v_f !! a)))) in H.
  - destruct H as (Hvv & Hvf & Hk1 & Hk2). split; [done|]. split; [|done].
    intros i j. rewrite Hvf, face_edges_snd. done.
  - split; [|split; [|done]].
    + intros a b. split; [tauto|]. intros [?|[Hin|Hin]]; [done|inversion Hin..].
    + intros i j. split; [tauto|]. intros [?|[_ (p & Hin)]]; [done|inversion Hin].
  - intros pre [prev iV] [vv1 vf1] [vv2 vf2] (Hvv & Hvf & Hk1 & Hk2) Hstep.
    destruct (set_add vf1 iV iface) as [vf3|] eqn:H1; cbn in Hstep; [|done].
    destruct (set_add vv1 prev iV) as [vv3|] eqn:H2; cbn in Hstep; [|done].
    destruct (set_add vv3 iV prev) as [vv4|] eqn:H3; cbn in Hstep; [|done].
    injection Hstep as <- <-.
    split; [|split; [|split]].
    + intros a b. rewrite (set_add_adjacent _ _ _ _ H3 a b),
        (set_add_adjacent _ _ _ _ H2 a b), Hvv, !elem_of_app, !list_elem_of_singleton.
      split.
      * intros [[[?|[?|?]]|[-> ->]]|[-> ->]]; tauto.
      * intros [?|[[?|[= -> ->]]|[?|[= -> ->]]]]; tauto.
    + intros i j. rewrite (set_add_adjacent _ _ _ _ H1 i j), Hvf. split.
      * intros [[?|[-> (p & Hp)]]|[-> ->]]; [tauto| |].
        -- right. split; [done|]. exists p. apply elem_of_app. by left.
        -- right. split; [done|]. exists prev. apply elem_of_app. right.
           by apply list_elem_of_singleton.
      * intros [?|[-> (p & Hp)]]; [tauto|].
        apply elem_of_app in Hp as [Hp|Hp]; [left; right; eauto|].
        apply list_elem_of_singleton in Hp as [= -> ->]. by right.
    + intros a. by rewrite (set_add_keys _ _ _ _ H3), (set_add_keys _ _ _ _ H2).
    + intros a. by rewrite (set_add_keys _ _ _ _ H1).
Qed.

Lemma elem_of_enumerate {A} (l : list A) (j : nat) (x : A) :
  (j, x) ∈ enumerate l <-> l !! j = Some x.
Proof.
  unfold enumerate. rewrite list_elem_of_lookup. split.
  - intros (n & Hn).
    apply lookup_zip_with_Some in Hn as (a & b & [= -> ->] & Ha & Hb).
    apply lookup_seq in Ha as [-> _]. done.
  - intros Hj. exists j. apply lookup_zip_with_Some. exists j, x.
    split; [done|]. split; [|done]. apply lookup_seq. split; [done|].
    by apply lookup_lt_Some in Hj.
Qed.

Lemma empty_sets_not_adjacent (n a b : nat) : ~ adjacent (empty_sets n) a b.
Proof.
  intros (s & Hs & Hb). apply empty_sets_lookup in Hs as [_ ->]. set_solver.
Qed.

Lemma empty_sets_keys (n a : nat) : is_Some (empty_sets n !! a) <-> (a < n)%nat.
Proof.
  split.
  - intros [s Hs]. by apply empty_sets_lookup in Hs as [? _].
  - intros Ha. rewrite empty_sets_lookup_lt by done. eauto.
Qed.

Lemma build_vv_vf_spec (nv : nat) (F : list face) (v_v v_f : adj) :
  build_vv_vf nv F = Ok (v_v, v_f) ->
  (forall a b, adjacent v_v a b
     <-> exists f, f ∈ F /\ ((a, b) ∈ face_edges f \/ (b, a) ∈ face_edges f))
  /\ (forall i j, adjacent v_f i j
        <-> exists f, F !! j = Some f /\ i ∈ face_w f)
  /\ (forall a, is_Some (v_v !! a) <-> (a < nv)%nat)
  /\ (forall a, is_Some (v_f !! a) <-> (a < nv)%nat).
Proof.
  unfold build_vv_vf. intros H.
  apply (rfold_prefix
           (fun pre '(vv', vf') =>
              (forall a b, adjacent vv' a b
                 <-> exists j f, (j, f) ∈ pre
                       /\ ((a, b) ∈ face_edges f \/ (b, a) ∈ face_edges f))
              /\ (forall i j, adjacent vf' i j
                     <-> exists f, (j, f) ∈ pre /\ i ∈ face_w f)
              /\ (forall a, is_Some (vv' !! a) <-> (a < nv)%nat)
              /\ (forall a, is_Some (vf' !! a) <-> (a < nv)%nat))) in H.
  - destruct H as (Hvv & Hvf & Hk1 & Hk2). split; [|split; [|done]].
    + intros a b. rewrite Hvv. split.
      * intros (j & f & Hin & Hab). exists f. split; [|done].
        apply elem_of_enumerate in Hin. by apply list_elem_of_lookup_2 in Hin.
      * intros (f & Hf & Hab). apply list_elem_of_lookup in Hf as [j Hj].
        exists j, f. split; [by apply elem_of_enumerate|done].
    + intros i j. rewrite Hvf. split.
      * intros (f & Hin & Hi). exists f. split; [|done].
        by apply elem_of_enumerate.
      * intros (f & Hj & Hi). exists f. split; [|done].
        by apply elem_of_enumerate.
  - split; [|split; [|split]].
    + intros a b. split; [by intros ?%empty_sets_not_adjacent|].
      intros (j & f & Hin & _). inversion Hin.
    + intros i j. split; [by intros ?%empty_sets_not_adjacent|].
      intros (f & Hin & _). inversion Hin.
    + apply empty_sets_keys.
    + apply empty_sets_keys.
  - intros pre [iface f] [vv1 vf1] [vv2 vf2] (Hvv & Hvf & Hk1 & Hk2) Hstep.
    cbv zeta in Hstep. fold (face_edges f) in Hstep.
    apply face_step in Hstep as (Hvv' & Hvf' & Hk1' & Hk2').
    split; [|split; [|split]].
    + intros a b. rewrite Hvv', Hvv. split.
      * intros [(j & g & Hin & Hab)|Hab].
        -- exists j, g. split; [|done]. apply elem_of_app. by left.
        -- exists iface, f. split; [|done]. apply elem_of_app. right.
           by apply list_elem_of_singleton.
      * intros (j & g & Hin & Hab).
        apply elem_of_app in Hin as [Hin|Hin]; [left; eauto|].
        apply list_elem_of_singleton in Hin as [= -> ->]. by right.
    + intros i j. rewrite Hvf', Hvf. split.
      * intros [(g & Hin & Hi)|[-> Hi]].
        -- exists g. split; [|done]. apply elem_of_app. by left.
        -- exists f. split; [|done]. apply elem_of_app. right.
           by apply list_elem_of_singleton.
      * intros (g & Hin & Hi).
        apply elem_of_app in Hin as [Hin|Hin]; [left; eauto|].
        apply list_elem_of_singleton in Hin as [= -> ->]. by right.
    + intros a. by rewrite Hk1'.
    + intros a. by rewrite Hk2'.
Qed.

(** X25.  [vf] gives for each vertex exactly the faces that use it.  When
    the dictionary is not cached and the call returns, face [j] is in the
    set of vertex [i] exactly when [i] is one of the vertices of face [j]
    (its first three slots for a triangle, its four slots otherwise), and
    the keys of the dictionary are the vertex indices. *)
Theorem vf_incidence (m m' : Mesh) (v_f : adj) :
  __internals__ m !! "v_f" = None ->
  vf set_order m = (Ok v_f, m') ->
  (forall i j, adjacent v_f i j
     <-> exists f, _faces m !! j = Some f /\ i ∈ face_w f)
  /\ (forall i, is_Some (v_f !! i) <-> (i < length (_vertices m))%nat).
Proof.
  intros Hnone. unfold vf.
  rewrite (bind_Ok _ _ _ _ _ (has_key_false _ _ Hnone)). cbn [negb when].
  intros H. apply bind_inv in H as ([] & m0 & Hc & H).
  apply (_connectivity_Ok set_order) in Hc
    as (v_v & v_f' & f0 & be & Hvv & Hff & ->).
  erewrite bind_Ok in H by (apply read_key_Some; by keys).
  inversion H; subst.
  destruct (build_vv_vf_spec _ _ _ _ Hvv) as (_ & Hvf & _ & Hk). done.
Qed.

(** X26.  [vv] is the neighbourhood of the vertices along the edges of the
    faces.  When the dictionary is not cached and the call returns, [b] is
    in the set of [a] exactly when some face has [a] and [b] in two slots
    that follow each other around it (the last one back to the first
    included); the dictionary is therefore symmetric, and its keys are the
    vertex indices. *)
Theorem vv_edges (m m' : Mesh) (v_v : adj) :
  __internals__ m !! "v_v" = None ->
  vv set_order m = (Ok v_v, m') ->
  (forall a b, adjacent v_v a b
     <-> exists f, f ∈ _faces m
           /\ ((a, b) ∈ face_edges f \/ (b, a) ∈ face_edges f))
  /\ symmetric_adj v_v
  /\ (forall i, is_Some (v_v !! i) <-> (i < length (_vertices m))%nat).
Proof.
  intros Hnone Hrun.
  apply (vv_fresh set_order _ _ _ Hnone) in Hrun as (v_f & f0 & be & Hvv & _).
  destruct (build_vv_vf_spec _ _ _ _ Hvv) as (Hadj & _ & Hk & _).
  split; [done|]. split; [|done].
  intros a b. rewrite !Hadj. intros (f & Hf & Hab). exists f. tauto.
Qed.

End VertexDictionaries.

Lemma vf_incidence_witness :
  let v_f := match fst (vf elements wing_mesh) with Ok d => d | Err _ => ∅ end in
  (forall i j, adjacent v_f i j
     <-> exists f, _faces wing_mesh !! j = Some f /\ i ∈ face_w f)
  /\ (forall i, is_Some (v_f !! i) <-> (i < length (_vertices wing_mesh))%nat).
Proof.
  apply (vf_incidence elements wing_mesh (snd (vf elements wing_mesh))).
  - reflexivity.
  - vm_compute. reflexivity.
Defined.

Lemma vv_edges_witness :
  let v_v := match fst (vv elements wing_mesh) with Ok d => d | Err _ => ∅ end in
  (forall a b, adjacent v_v a b
     <-> exists f, f ∈ _faces wing_mesh
           /\ ((a, b) ∈ face_edges f \/ (b, a) ∈ face_edges f))
  /\ symmetric_adj v_v
  /\ (forall i, is_Some (v_v !! i) <-> (i < length (_vertices wing_mesh))%nat).
Proof.
  apply (vv_edges elements wing_mesh (snd (vv elements wing_mesh))).
  - reflexivity.
  - vm_compute. reflexivity.
Defined.

(** ** [faces_radiuses] *)

Lemma faces_centers_fresh (m : Mesh) :
  classification_ok m -> valid_faces m ->
  __internals__ m !! "faces_centers" = None ->
  faces_centers m
  = (Ok (map (center_of (_vertices m)) (_faces m)), with_geometry m).
Proof.
  intros Hok Hvalid Hnone. unfold faces_centers.
  rewrite (bind_Ok _ _ _ _ _ (has_key_false _ _ Hnone)). cbn [negb when].
  rewrite (bind_Ok _ _ _ _ _ (_faces_properties_spec m Hok Hvalid)).
  fold (with_geometry m).
  erewrite bind_Ok by (apply read_key_Some; unfold with_geometry; by keys).
  done.
Qed.

Lemma _compute_radiuses_fresh (m : Mesh) :
  classification_ok m -> valid_faces m ->
  __internals__ m !! "faces_centers" = None ->
  _compute_radiuses m
  = (Ok tt,
     with_internals
       (<["faces_radiuses" := VFloats (map (face_radius (_vertices m)) (_faces m))]>
          (__internals__ (with_geometry m)))
       m).
Proof.
  intros Hok Hvalid Hc. unfold _compute_radiuses. rewrite !bind_get.
  rewrite (bind_lift_Ok _ _
             (map (fun f => (pt (_vertices m) (f0 f), pt (_vertices m) (f1 f),
                             pt (_vertices m) (f2 f), pt (_vertices m) (f3 f)))
                  (_faces m))).
  2:{ apply rmapM_Ok. intros f Hf. apply quad_points_pt.
      by eapply Forall_forall in Hvalid. }
  rewrite (bind_Ok _ _ _ _ _ (faces_centers_fresh m Hok Hvalid Hc)).
  rewrite (bind_lift_Ok _ _ (map (face_radius (_vertices m)) (_faces m))).
  2:{ unfold np_broadcast2. rewrite !length_map, decide_True by done.
      f_equal. by rewrite zip_with_map_map. }
  done.
Qed.

Lemma faces_radiuses_fresh (m : Mesh) :
  classification_ok m -> valid_faces m ->
  __internals__ m !! "faces_centers" = None ->
  __internals__ m !! "faces_radiuses" = None ->
  faces_radiuses m
  = (Ok (map (face_radius (_vertices m)) (_faces m)),
     with_internals
       (<["faces_radiuses" := VFloats (map (face_radius (_vertices m)) (_faces m))]>
          (__internals__ (with_geometry m)))
       m).
Proof.
  intros Hok Hvalid Hc Hr. unfold faces_radiuses.
  rewrite (bind_Ok _ _ _ _ _ (has_key_false _ _ Hr)). cbn [negb when].
  rewrite (bind_Ok _ _ _ _ _ (_compute_radiuses_fresh m Hok Hvalid Hc)).
  erewrite bind_Ok by (apply read_key_Some; by keys).
  done.
Qed.

Lemma radius_of_bounds (c : vec) (v0 v1 v2 v3 : vec) :
  let r := radius_of c (v0, v1, v2, v3) in
  0 <= r
  /\ norm (vsub c v0) <= r /\ norm (vsub c v1) <= r
  /\ norm (vsub c v2) <= r /\ norm (vsub c v3) <= r
  /\ (r = norm (vsub c v0) \/ r = norm (vsub c v1)
      \/ r = norm (vsub c v2) \/ r = norm (vsub c v3)).
Proof.
  cbv zeta. unfold radius_of.
  set (d0 := norm (vsub c v0)). set (d1 := norm (vsub c v1)).
  set (d2 := norm (vsub c v2)). set (d3 := norm (vsub c v3)).
  assert (H0 : 0 <= d0) by apply sqrt_pos.
  unfold Rmax. repeat destruct (Rle_dec _ _); repeat split; try lra; tauto.
Qed.

(** X27.  [faces_radiuses] gives for each face the largest distance from
    its center to one of its four slots.  On a mesh whose faces refer to
    existing vertices, with an up-to-date classification and neither the
    centers nor the radiuses cached, it returns one number per face, not
    negative, which is at least the distance from the center of the face
    to each of its vertices and is that distance for one of them; the array
    is cached, and a second call returns it without touching the mesh. *)
Theorem faces_radiuses_enclose (m : Mesh) :
  classification_ok m -> valid_faces m ->
  __internals__ m !! "faces_centers" = None ->
  __internals__ m !! "faces_radiuses" = None ->
  exists r m',
    faces_radiuses m = (Ok r, m')
    /\ faces_radiuses m' = (Ok r, m')
    /\ Forall2
         (fun f ri =>
            0 <= ri
            /\ (forall i, i ∈ face_list f ->
                  norm (vsub (center_of (_vertices m) f) (pt (_vertices m) i)) <= ri)
            /\ (exists i, i ∈ face_list f /\
                  norm (vsub (center_of (_vertices m) f) (pt (_vertices m) i)) = ri))
         (_faces m) r.
Proof.
  intros Hok Hvalid Hc Hr. eexists _, _.
  split; [by apply faces_radiuses_fresh|].
  split.
  { unfold faces_radiuses.
    erewrite bind_Ok by (apply has_key_true; cbn; keys; eauto).
    cbn [negb when]. rewrite (bind_Ok _ _ _ tt _ eq_refl).
    erewrite bind_Ok by (apply read_key_Some; by keys).
    done. }
  change (map ?g (_faces m)) with (g <$> _faces m).
  apply Forall2_fmap_r, Forall_Forall2_diag, Forall_forall. intros f _.
  unfold face_radius.
  destruct (radius_of_bounds (center_of (_vertices m) f)
              (pt (_vertices m) (f0 f)) (pt (_vertices m) (f1 f))
              (pt (_vertices m) (f2 f)) (pt (_vertices m) (f3 f)))
    as (H0 & H1 & H2 & H3 & H4 & Hmax).
  split; [done|]. split.
  - intros i Hi. apply list_elem_of_In in Hi. cbn in Hi.
    destruct Hi as [<-|[<-|[<-|[<-|[]]]]]; done.
  - destruct Hmax as [->|[->|[->| ->]]].
    + exists (f0 f). split; [apply list_elem_of_In; cbn; tauto|done].
    + exists (f1 f). split; [apply list_elem_of_In; cbn; tauto|done].
    + exists (f2 f). split; [apply list_elem_of_In; cbn; tauto|done].
    + exists (f3 f). split; [apply list_elem_of_In; cbn; tauto|done].
Qed.

Lemma faces_radiuses_enclose_witness :
  exists r m',
    faces_radiuses square_mesh = (Ok r, m')
    /\ faces_radiuses m' = (Ok r, m')
    /\ Forall2
         (fun f ri =>
            0 <= ri
            /\ (forall i, i ∈ face_list f ->
                  norm (vsub (center_of (_vertices square_mesh) f)
                             (pt (_vertices square_mesh) i)) <= ri)
            /\ (exists i, i ∈ face_list f /\
                  norm (vsub (center_of (_vertices square_mesh) f)
                             (pt (_vertices square_mesh) i)) = ri))
         (_faces square_mesh) r.
Proof.
  apply (faces_radiuses_enclose square_mesh).
  - exact I.
  - unfold valid_faces. cbn. repeat constructor.
  - reflexivity.
  - reflexivity.
Defined.

Lemma norm_mul_all (k : R) (v : vec) : 0 <= k -> norm (mul_all k v) = k * norm v.
Proof.
  intros Hk. unfold norm, mul_all. cbn [vx vy vz].
  replace (vx v * k * (vx v * k) + vy v * k * (vy v * k) + vz v * k * (vz v * k))
    with (k * k * (vx v * vx v + vy v * vy v + vz v * vz v)) by ring.
  rewrite sqrt_mult_alt by nra. by rewrite sqrt_square.
Qed.

Lemma cross_mul_all (k : R) (a b : vec) :
  cross (mul_all k a) (mul_all k b) = mul_all (k * k) (cross a b).
Proof. apply vec_eq; cbn; ring. Qed.

Lemma vsub_mul_all (k : R) (a b : vec) :
  vsub (mul_all k a) (mul_all k b) = mul_all k (vsub a b).
Proof. apply vec_eq; cbn; ring. Qed.

Lemma pt_mul_all (k : R) (V : list vec) (i : nat) :
  pt (map (mul_all k) V) i = mul_all k (pt V i).
Proof. apply pt_map. apply vec_eq; cbn; ring. Qed.

Lemma center_of_mul_all (k : R) (V : list vec) (f : face) :
  0 < k ->
  center_of (map (mul_all k) V) f = mul_all k (center_of V f).
Proof.
  intros Hk. unfold center_of, quad_a1, quad_a2, quad_c1, quad_c2.
  rewrite !pt_mul_all, !vsub_mul_all, !cross_mul_all.
  rewrite !norm_mul_all by nra.
  destruct (is_tri f).
  - apply vec_eq; cbn; unfold Rdiv; ring.
  - set (a1 := norm (cross (vsub (pt V (f1 f)) (pt V (f0 f)))
                           (vsub (pt V (f2 f)) (pt V (f0 f))))).
    set (a2 := norm (cross (vsub (pt V (f3 f)) (pt V (f0 f)))
                           (vsub (pt V (f2 f)) (pt V (f0 f))))).
    replace (k * k * a1 * (1 / 2) + k * k * a2 * (1 / 2))
      with ((k * k) * (a1 * (1 / 2) + a2 * (1 / 2))) by ring.
    apply vec_eq; cbn; unfold Rdiv; rewrite !Rinv_mult; generalize (/ (a1 * (1 * / 2) + a2 * (1 * / 2))); intros s; field; lra.
Qed.

Lemma face_radius_mul_all (k : R) (V : list vec) (f : face) :
  0 < k -> face_radius (map (mul_all k) V) f = k * face_radius V f.
Proof.
  intros Hk. unfold face_radius, radius_of.
  rewrite center_of_mul_all, !pt_mul_all, !vsub_mul_all by done.
  rewrite !norm_mul_all by lra. by rewrite !RmaxRmult by lra.
Qed.

Lemma keeps_radiuses_scaling (k : vec -> vec) (alpha : R) :
  keeps "faces_radiuses"
    (_ <- (if Rlt_dec 0 alpha then ret tt else raise AssertionError) ;
     vertices <- get _vertices ;
     _ <- modify (with_vertices (map k vertices)) ;
     b <- _has_faces_properties ;
     when b _remove_faces_properties).
Proof.
  unfold _remove_faces_properties, _has_faces_properties, has_surface_integrals.
  repeat first
    [ apply keeps_has_key | apply keeps_when | apply keeps_del_key; done
    | apply keeps_with_vertices | apply keeps_get
    | apply keeps_bind; [|intros ?] ].
  destruct (Rlt_dec 0 alpha); [apply keeps_ret|apply keeps_raise].
Qed.

(** X28.  The scalings never drop the cached radiuses.  [scale],
    [scalex], [scaley] and [scalez] invalidate the face geometry through
    [_remove_faces_properties], which does not know of [faces_radiuses]:
    when the radiuses of the current mesh are cached, after [scale alpha]
    ([alpha > 0], cached face geometry complete if any) [faces_radiuses]
    still returns them, while the radius of every face of the scaled mesh
    is [alpha] times what it was. *)
Theorem scale_keeps_cached_radiuses (alpha : R) (m : Mesh) :
  0 < alpha ->
  geometry_cached m ->
  __internals__ m !! "faces_radiuses"
  = Some (VFloats (map (face_radius (_vertices m)) (_faces m))) ->
  exists m',
    scale alpha m = (Ok tt, m')
    /\ faces_radiuses m' = (Ok (map (face_radius (_vertices m)) (_faces m)), m')
    /\ _faces m' = _faces m
    /\ (forall f, face_radius (_vertices m') f
                  = alpha * face_radius (_vertices m) f).
Proof.
  intros Hpos Hg Hr.
  destruct (scale_run (mul_all alpha) (scale alpha) alpha m eq_refl Hpos Hg)
    as (m' & Hrun & HV & HF & _).
  exists m'. split; [done|].
  assert (Hk : __internals__ m' !! "faces_radiuses"
               = Some (VFloats (map (face_radius (_vertices m)) (_faces m)))).
  { rewrite <- Hr.
    exact (keeps_run _ _ _ _ _ (keeps_radiuses_scaling (mul_all alpha) alpha) Hrun). }
  split.
  { unfold faces_radiuses.
    rewrite (bind_Ok _ _ _ true m') by (apply has_key_true; rewrite Hk; eauto).
    cbn [negb when]. rewrite (bind_Ok _ _ _ tt m' eq_refl).
    by rewrite (bind_Ok _ _ _ _ _ (read_key_Some _ _ _ Hk)). }
  split; [done|]. intros f. rewrite HV. by apply face_radius_mul_all.
Qed.

Lemma scale_keeps_cached_radiuses_witness :
  exists m',
    scale 2 (snd (faces_radiuses square_mesh)) = (Ok tt, m')
    /\ faces_radiuses m'
       = (Ok (map (face_radius (_vertices (snd (faces_radiuses square_mesh))))
                  (_faces (snd (faces_radiuses square_mesh)))), m')
    /\ _faces m' = _faces (snd (faces_radiuses square_mesh))
    /\ (forall f, face_radius (_vertices m') f
                  = 2 * face_radius (_vertices (snd (faces_radiuses square_mesh))) f).
Proof.
  assert (Hfresh := faces_radiuses_fresh square_mesh I).
  apply (scale_keeps_cached_radiuses 2 (snd (faces_radiuses square_mesh))).
  - lra.
  - rewrite Hfresh; [|unfold valid_faces; cbn; repeat constructor|reflexivity..].
    right. cbn. unfold with_geometry. cbn. keys. eauto.
  - rewrite Hfresh; [|unfold valid_faces; cbn; repeat constructor|reflexivity..].
    cbn [snd __internals__ with_internals _vertices _faces]. by keys.
Defined.

(** ** The first moments among the surface integrals *)

Lemma first_moments (V : list vec) (f : face) :
  is_tri f = true \/ area_of V f <> 0 ->
  integral V 0 f = area_of V f * vx (center_of V f)
  /\ integral V 1 f = area_of V f * vy (center_of V f)
  /\ integral V 2 f = area_of V f * vz (center_of V f).
Proof.
  intros H. unfold integral, integrals_of, area_of, center_of in *.
  destruct (is_tri f) eqn:Ht.
  - unfold triangle_integrals, tri_cross. cbn [nth vx vy vz vadd vdiv].
    repeat split; field.
  - destruct H as [H|H]; [done|].
    unfold triangle_integrals.
    cbn [zip_with nth vx vy vz vadd vdiv vscale].
    unfold quad_a1, quad_a2, quad_c1, quad_c2 in *.
    rewrite (norm_cross_swap (vsub (pt V (f3 f)) (pt V (f0 f)))) in *.
    set (d1 := norm (cross (vsub (pt V (f1 f)) (pt V (f0 f)))
                           (vsub (pt V (f2 f)) (pt V (f0 f))))) in *.
    set (d2 := norm (cross (vsub (pt V (f2 f)) (pt V (f0 f)))
                           (vsub (pt V (f3 f)) (pt V (f0 f))))) in *.
    cbn [vx vy vz vadd vdiv vscale].
    repeat split; field; lra.
Qed.

Lemma get_surface_integrals_fresh (m : Mesh) :
  classification_ok m -> valid_faces m ->
  __internals__ m !! "surface_integrals" = None ->
  get_surface_integrals m
  = (Ok (table_of (_vertices m) (_faces m)),
     with_internals
       (<["surface_integrals" := VTable (table_of (_vertices m) (_faces m))]>
          (__internals__ (classified m)))
       m).
Proof.
  intros Hok Hvalid Hnone. unfold get_surface_integrals, has_surface_integrals.
  rewrite (bind_Ok _ _ _ _ _ (has_key_false _ _ Hnone)). cbn [negb when].
  rewrite (bind_Ok _ _ _ _ _ (_compute_faces_integrals_spec m Hok Hvalid)).
  erewrite bind_Ok by (apply read_key_Some; by keys).
  done.
Qed.

Lemma faces_areas_fresh (m : Mesh) :
  classification_ok m -> valid_faces m ->
  __internals__ m !! "faces_areas" = None ->
  faces_areas m
  = (Ok (map (area_of (_vertices m)) (_faces m)), with_geometry m).
Proof.
  intros Hok Hvalid Hnone. unfold faces_areas.
  rewrite (bind_Ok _ _ _ _ _ (has_key_false _ _ Hnone)). cbn [negb when].
  rewrite (bind_Ok _ _ _ _ _ (_faces_properties_spec m Hok Hvalid)).
  fold (with_geometry m).
  erewrite bind_Ok by (apply read_key_Some; unfold with_geometry; by keys).
  done.
Qed.

(** X29.  The first three surface integrals of a face are its area times
    the coordinates of its center.  On a mesh whose faces refer to existing
    vertices, with an up-to-date classification and nothing else cached,
    [get_surface_integrals], [faces_areas] and [faces_centers] called in a
    row return arrays such that, for every triangle and for every
    quadrangle of area not zero, rows 0, 1 and 2 of the integrals hold at the
    place of the face the products of its area by the [x], [y] and [z] of its
    center. *)
Theorem surface_integrals_first_moments (m : Mesh) :
  classification_ok m -> valid_faces m ->
  __internals__ m !! "surface_integrals" = None ->
  __internals__ m !! "faces_areas" = None ->
  exists s_int m1 areas m2 centers,
    get_surface_integrals m = (Ok s_int, m1)
    /\ faces_areas m1 = (Ok areas, m2)
    /\ faces_centers m2 = (Ok centers, m2)
    /\ forall i f,
         _faces m !! i = Some f ->
         f0 f = f3 f \/ area_of (_vertices m) f <> 0 ->
         exists a c s0 s1 s2,
           areas !! i = Some a /\ centers !! i = Some c
           /\ s_int !! 0%nat ≫= (.!! i) = Some s0
           /\ s_int !! 1%nat ≫= (.!! i) = Some s1
           /\ s_int !! 2%nat ≫= (.!! i) = Some s2
           /\ s0 = a * vx c /\ s1 = a * vy c /\ s2 = a * vz c.
Proof.
  intros Hok Hvalid Hs Ha.
  set (V := _vertices m). set (F := _faces m).
  set (m1 := with_internals
               (<["surface_integrals" := VTable (table_of V F)]>
                  (__internals__ (classified m))) m).
  assert (Hok1 : classification_ok m1).
  { unfold classification_ok, m1, classified. by keys. }
  assert (Ha1 : __internals__ m1 !! "faces_areas" = None).
  { unfold m1, classified. by keys. }
  exists (table_of V F), m1, (map (area_of V) F), (with_geometry m1),
    (map (center_of V) F).
  split; [by apply get_surface_integrals_fresh|].
  split; [by apply (faces_areas_fresh m1)|].
  split.
  { unfold faces_centers.
    erewrite bind_Ok by (apply has_key_true; unfold with_geometry; cbn; keys; eauto).
    cbn [negb when]. rewrite (bind_Ok _ _ _ tt _ eq_refl).
    erewrite bind_Ok by (apply read_key_Some; unfold with_geometry; by keys).
    done. }
  intros i f Hf Hcase.
  destruct (first_moments V f) as (H0 & H1 & H2).
  { destruct Hcase as [Ht|Hn]; [left; by apply is_tri_true|by right]. }
  exists (area_of V f), (center_of V f),
    (integral V 0 f), (integral V 1 f), (integral V 2 f).
  change (map ?g F) with (g <$> F). rewrite !list_lookup_fmap. fold F in Hf.
  rewrite Hf. cbn [fmap option_fmap option_map].
  split; [done|]. split; [done|].
  unfold table_of. cbn [seq map lookup list_lookup mbind option_bind].
  change (map ?g F) with (g <$> F). rewrite !list_lookup_fmap, Hf.
  cbn [fmap option_fmap option_map]. done.
Qed.

Lemma surface_integrals_first_moments_witness :
  exists s_int m1 areas m2 centers,
    get_surface_integrals square_mesh = (Ok s_int, m1)
    /\ faces_areas m1 = (Ok areas, m2)
    /\ faces_centers m2 = (Ok centers, m2)
    /\ forall i f,
         _faces square_mesh !! i = Some f ->
         f0 f = f3 f \/ area_of (_vertices square_mesh) f <> 0 ->
         exists a c s0 s1 s2,
           areas !! i = Some a /\ centers !! i = Some c
           /\ s_int !! 0%nat ≫= (.!! i) = Some s0
           /\ s_int !! 1%nat ≫= (.!! i) = Some s1
           /\ s_int !! 2%nat ≫= (.!! i) = Some s2
           /\ s0 = a * vx c /\ s1 = a * vy c /\ s2 = a * vz c.
Proof.
  apply (surface_integrals_first_moments square_mesh).
  - exact I.
  - unfold valid_faces. cbn. repeat constructor.
  - reflexivity.
  - reflexivity.
Defined.

(** ** What [remove_degenerated_faces] keeps *)

Lemma mask_filter {A} (P : A -> bool) (l : list A) :
  map fst (filter (fun p => snd p = true) (zip l (map P l)))
  = filter (fun x => P x = true) l.
Proof.
  induction l as [|x l IH]; [done|]. cbn [map zip zip_with].
  rewrite filter_cons. cbn [snd]. rewrite (filter_cons _ x l).
  destruct (decide (P x = true)); cbn; by rewrite IH.
Qed.

Lemma kept_faces_filter (rtol : R) (V : list vec) (F : list face) :
  kept_faces rtol V F
  = filter (fun f => negb (if Rlt_dec (area_of V f)
                              (sum_R (map (area_of V) F) / INR (length F) * rtol)
                           then true else false) = true) F.
Proof.
  unfold kept_faces, lt_mask. cbv zeta. rewrite length_map, !map_map.
  apply (mask_filter
           (fun f => negb (if Rlt_dec (area_of V f)
                              (sum_R (map (area_of V) F) / INR (length F) * rtol)
                           then true else false))).
Qed.

Lemma remove_degenerated_faces_run (rtol : R) (m : Mesh) :
  0 < rtol ->
  classification_ok m -> valid_faces m ->
  __internals__ m !! "faces_areas" = None ->
  exists m',
    remove_degenerated_faces rtol m = (Ok tt, m')
    /\ _faces m' = kept_faces rtol (_vertices m) (_faces m)
    /\ _vertices m' = _vertices m
    /\ __internals__ m' !! "faces_areas" = None.
Proof.
  intros Hpos Hok Hvalid Hnone. unfold remove_degenerated_faces.
  destruct (Rlt_dec 0 rtol) as [_|Hn]; [|lra].
  rewrite (bind_Ok _ _ _ tt m eq_refl).
  assert (Hareas : faces_areas m
                   = (Ok (map (area_of (_vertices m)) (_faces m)), with_geometry m)).
  { unfold faces_areas.
    rewrite (bind_Ok _ _ _ _ _ (has_key_false _ _ Hnone)). cbn [negb when].
    rewrite (bind_Ok _ _ _ _ _ (_faces_properties_spec m Hok Hvalid)).
    fold (with_geometry m).
    erewrite bind_Ok by (apply read_key_Some; unfold with_geometry; by keys).
    done. }
  rewrite (bind_Ok _ _ _ _ _ Hareas). rewrite bind_get.
  set (kept := kept_faces rtol (_vertices m) (_faces m)).
  rewrite (bind_lift_Ok _ _ kept).
  2:{ change (_faces (with_geometry m)) with (_faces m).
      unfold take_mask. rewrite decide_True; [done|].
      unfold lt_mask. by rewrite !length_map. }
  rewrite bind_modify.
  destruct (remove_geometry_run (with_faces kept (with_geometry m)))
    as (b & m' & Hb & Hrun & HV & HF & Ha & _).
  { right. unfold with_geometry. cbn. keys. eauto. }
  exists m'. rewrite (bind_Ok _ _ _ _ _ Hb). split; [done|].
  rewrite HF, HV. done.
Qed.

(** X30.  [remove_degenerated_faces] keeps, in their order, exactly the
    faces whose area is not below [rtol] times the mean area.  For
    [rtol > 0], on a mesh whose faces refer to existing vertices, with an
    up-to-date classification and no face geometry cached, the call returns,
    the vertices are untouched, the new face array is a sub-sequence of the
    old one, a face is in it exactly when it was in the old one with an area
    of at least the threshold, and the face areas are not cached afterwards.
    For [rtol <= 0] the call raises [AssertionError] and changes nothing. *)
Theorem remove_degenerated_faces_keeps_large (rtol : R) (m : Mesh) :
  (0 < rtol ->
   classification_ok m -> valid_faces m ->
   __internals__ m !! "faces_areas" = None ->
   exists m',
     remove_degenerated_faces rtol m = (Ok tt, m')
     /\ _vertices m' = _vertices m
     /\ sublist (_faces m') (_faces m)
     /\ (forall f, f ∈ _faces m'
           <-> f ∈ _faces m
               /\ sum_R (map (area_of (_vertices m)) (_faces m))
                  / INR (length (_faces m)) * rtol
                  <= area_of (_vertices m) f)
     /\ __internals__ m' !! "faces_areas" = None)
  /\ (rtol <= 0 -> remove_degenerated_faces rtol m = (Err AssertionError, m)).
Proof.
  split.
  - intros Hpos Hok Hvalid Hnone.
    destruct (remove_degenerated_faces_run rtol m Hpos Hok Hvalid Hnone)
      as (m' & Hrun & HF & HV & Ha).
    exists m'. split; [done|]. split; [done|].
    rewrite HF, kept_faces_filter. split; [apply sublist_filter|].
    split; [|done]. intros f. rewrite list_elem_of_filter.
    destruct (Rlt_dec _ _) as [Hlt|Hge]; cbn; split.
    + intros [? _]. done.
    + intros [_ Hle]. lra.
    + intros [_ Hf]. split; [done|lra].
    + intros [Hf _]. done.
  - intros Hle. unfold remove_degenerated_faces, bind, raise.
    destruct (Rlt_dec 0 rtol) as [Hn|_]; [lra|done].
Qed.

Lemma remove_degenerated_faces_keeps_large_witness :
  exists m',
    remove_degenerated_faces 1 square_mesh = (Ok tt, m')
    /\ _vertices m' = _vertices square_mesh
    /\ sublist (_faces m') (_faces square_mesh)
    /\ (forall f, f ∈ _faces m'
          <-> f ∈ _faces square_mesh
              /\ sum_R (map (area_of (_vertices square_mesh)) (_faces square_mesh))
                 / INR (length (_faces square_mesh)) * 1
                 <= area_of (_vertices square_mesh) f)
    /\ __internals__ m' !! "faces_areas" = None.
Proof.
  apply (remove_degenerated_faces_keeps_large 1 square_mesh).
  - lra.
  - exact I.
  - unfold valid_faces. cbn. repeat constructor.
  - reflexivity.
Defined.

(** ** C7: [triangulate_quadrangles] and the cached classification *)

Lemma take_ids_Forall2 {A} (arr : list A) (ids : list nat) (r : list A) :
  take_ids arr ids = Ok r <-> Forall2 (fun i x => arr !! i = Some x) ids r.
Proof.
  unfold take_ids. revert r. induction ids as [|i ids IH]; intros r; cbn.
  - split.
    + intros [= <-]. constructor.
    + intros H. by inversion H.
  - unfold item at 1. destruct (arr !! i) as [x|] eqn:Hx; cbn.
    + destruct (rmapM (item arr) ids) as [r'|e] eqn:Hr; cbn.
      * split.
        -- intros [= <-]. constructor; [done|]. by apply IH.
        -- intros H. inversion H as [|? y ? r'' Hy Hrest]; subst.
           apply IH in Hrest. congruence.
      * split; [done|]. intros H. inversion H as [|? y ? r'' Hy Hrest]; subst.
        by apply IH in Hrest.
    + split; [done|]. intros H. inversion H as [|? y ? r'' Hy Hrest]; subst.
      congruence.
Qed.

Lemma take_ids_in_range {A} (arr : list A) (ids : list nat) :
  Forall (fun i => (i < length arr)%nat) ids ->
  exists r, take_ids arr ids = Ok r /\ length r = length ids.
Proof.
  intros Hr.
  destruct (rmapM_Forall2 (item arr) (fun i x => arr !! i = Some x) ids)
    as (r & Hrun & HF).
  { intros i Hi. eapply Forall_forall in Hr; [|exact Hi].
    destruct (lookup_lt_is_Some_2 arr i Hr) as [x Hx].
    exists x. unfold item. by rewrite Hx. }
  exists r. split; [done|]. symmetry. by eapply Forall2_length.
Qed.

Lemma triangulate_quadrangles_cached (m : Mesh) (t : value) (q : list nat) :
  __internals__ m !! "triangles_ids" = Some t ->
  __internals__ m !! "quadrangles_ids" = Some (VIds q) ->
  NoDup q ->
  Forall (fun i => (i < length (_faces m))%nat) q ->
  exists sel F2,
    take_ids (_faces m) q = Ok sel
    /\ length F2 = length (_faces m)
    /\ (forall j, j ∉ q -> F2 !! j = _faces m !! j)
    /\ (forall n i x, q !! n = Some i -> sel !! n = Some x ->
          F2 !! i = Some (mkface (f0 x) (f2 x) (f3 x) (f0 x)))
    /\ triangulate_quadrangles m
       = (Ok (F2 ++ map (fun x => mkface (f0 x) (f1 x) (f2 x) (f0 x)) sel),
          mkMesh (_vertices m)
                 (F2 ++ map (fun x => mkface (f0 x) (f1 x) (f2 x) (f0 x)) sel)
                 (_id m) (_name m) (_verbose m) ∅).
Proof.
  intros Ht Hq Hnd Hr.
  set (F := _faces m) in *.
  destruct (take_ids_in_range F q Hr) as (sel & Hsel & Hlen).
  set (vals1 := map (fun x => mkface (f0 x) (f2 x) (f3 x) (f3 x)) sel).
  destruct (put_ids_lookup q vals1 F) as (F1 & Hput1 & Hlen1 & Hin1 & Hout1);
    [done|by unfold vals1; rewrite length_map|done|].
  assert (Hsel1 : take_ids F1 q = Ok vals1).
  { apply take_ids_Forall2. apply Forall2_same_length_lookup_2.
    - by unfold vals1; rewrite length_map.
    - intros n i x Hi Hx. cbn. by apply (Hin1 n). }
  set (vals2 := map (fun x => mkface (f0 x) (f1 x) (f2 x) (f0 x)) vals1).
  destruct (put_ids_lookup q vals2 F1) as (F2 & Hput2 & Hlen2 & Hin2 & Hout2);
    [done|by unfold vals2, vals1; rewrite !length_map|by rewrite Hlen1|].
  exists sel, F2. split; [done|]. split; [congruence|]. split.
  { intros j Hj. by rewrite Hout2, Hout1. }
  split.
  { intros n i x Hi Hx. apply (Hin2 n); [done|]. subst vals2 vals1.
    change (map ?g (map ?h sel)) with (g <$> (h <$> sel)).
    by rewrite !list_lookup_fmap, Hx. }
  unfold triangulate_quadrangles. rewrite bind_get. fold F.
  rewrite (bind_Ok _ _ _ _ _ (quadrangles_ids_cached m t q Ht Hq)).
  rewrite (bind_lift_Ok _ _ _ _ Hsel).
  rewrite (bind_Ok _ _ _ _ _ (quadrangles_ids_cached m t q Ht Hq)).
  rewrite (bind_lift_Ok _ _ _ _
             (take_ids_map (fun x => (f0 x, f2 x, f3 x)) F q sel Hsel)).
  rewrite (bind_lift_Ok _ _ _ _ Hsel).
  rewrite zip_with_map_self.
  change (map _ sel) with vals1 at 1.
  rewrite (bind_lift_Ok _ _ _ _ Hput1), bind_modify.
  rewrite (bind_Ok _ _ _ q (with_faces F1 m))
    by (by apply (quadrangles_ids_cached _ t q)).
  rewrite (bind_lift_Ok _ _ _ _ Hsel1).
  fold vals2. rewrite (bind_lift_Ok _ _ _ _ Hput2), bind_modify.
  rewrite !map_map. done.
Qed.

(** C7 (the code departs from the claim).  [triangulate_quadrangles] does
    not look at the faces to find the quadrangles: it reads
    [quadrangles_ids], and when a classification is cached it splits the
    faces at the cached indices, whatever they are now.  With cached
    indices [q] (distinct, in range) the call returns; a face whose index is
    not in [q] stays as it is, quadrangle or not; the face at an index of
    [q] is replaced by [(v0, v2, v3, v0)] and [(v0, v1, v2, v0)] is appended
    for it, triangle or not.  So a quadrangle that the cached indices miss
    is still in the result, which then has a face with
    [face[0] != face[3]].  [remove_degenerated_faces] leaves such a cache
    behind. *)
Theorem triangulate_quadrangles_follows_stale_classification
    (m : Mesh) (t : value) (q : list nat) :
  __internals__ m !! "triangles_ids" = Some t ->
  __internals__ m !! "quadrangles_ids" = Some (VIds q) ->
  NoDup q ->
  Forall (fun i => (i < length (_faces m))%nat) q ->
  exists F' m',
    triangulate_quadrangles m = (Ok F', m')
    /\ _faces m' = F'
    /\ __internals__ m' = ∅
    /\ length F' = (length (_faces m) + length q)%nat
    /\ (forall i f, _faces m !! i = Some f -> i ∉ q -> F' !! i = Some f)
    /\ (forall n i f, q !! n = Some i -> _faces m !! i = Some f ->
          F' !! i = Some (mkface (f0 f) (f2 f) (f3 f) (f0 f))
          /\ F' !! (length (_faces m) + n)%nat
             = Some (mkface (f0 f) (f1 f) (f2 f) (f0 f)))
    /\ ((exists i f, _faces m !! i = Some f /\ (i ∉ q) /\ f0 f <> f3 f) ->
        ~ Forall (fun f => f0 f = f3 f) F').
Proof.
  intros Ht Hq Hnd Hr.
  destruct (triangulate_quadrangles_cached m t q Ht Hq Hnd Hr)
    as (sel & F2 & Hsel & Hlen & Hout & Hin & Hrun).
  apply take_ids_Forall2 in Hsel.
  pose proof (Forall2_length _ _ _ Hsel) as Hlsel.
  eexists _, _. split; [exact Hrun|]. cbn [_faces __internals__].
  split; [done|]. split; [done|].
  assert (Hkeep : forall i f, _faces m !! i = Some f -> i ∉ q ->
            (F2 ++ map (fun x => mkface (f0 x) (f1 x) (f2 x) (f0 x)) sel) !! i
            = Some f).
  { intros i f Hf Hi. rewrite lookup_app_l.
    - by rewrite Hout.
    - rewrite Hlen. by apply lookup_lt_Some in Hf. }
  split; [rewrite length_app, length_map; lia|].
  split; [exact Hkeep|]. split.
  - intros n i f Hn Hf.
    destruct (Forall2_lookup_l _ _ _ _ _ Hsel Hn) as (x & Hx & Hix).
    cbn in Hix. rewrite Hf in Hix. injection Hix as ->. split.
    + rewrite lookup_app_l.
      * by apply (Hin n).
      * rewrite Hlen. by apply lookup_lt_Some in Hf.
    + rewrite lookup_app_r by lia. rewrite Hlen.
      replace (length (_faces m) + n - length (_faces m))%nat with n by lia.
      change (map ?g sel) with (g <$> sel). by rewrite list_lookup_fmap, Hx.
  - intros (i & f & Hf & Hi & Hquad) Hall.
    specialize (Hkeep i f Hf Hi). apply list_elem_of_lookup_2 in Hkeep.
    eapply Forall_forall in Hall; [|exact Hkeep]. done.
Qed.

Lemma shifted_kept :
  kept_faces (1 / 100000) (_vertices shifted_mesh) (_faces shifted_mesh)
  = [mkface 0 1 2 3; mkface 1 4 2 1].
Proof.
  assert (A0 : area_of (_vertices shifted_mesh) (mkface 0 0 0 0) = 0).
  { unfold area_of. rewrite (proj2 (is_tri_true _)) by reflexivity.
    unfold tri_cross, norm, cross, vsub, pt. cbn.
    match goal with |- context [sqrt ?e] => replace e with 0 by ring end.
    rewrite sqrt_0. lra. }
  assert (A1 : area_of (_vertices shifted_mesh) (mkface 0 1 2 3) = 1).
  { unfold area_of. rewrite (proj2 (is_tri_false _)) by (cbn; lia).
    unfold quad_a1, quad_a2, norm, cross, vsub, pt. cbn.
    repeat match goal with
           | |- context [sqrt ?e] =>
               lazymatch e with 1 => fail | _ => replace e with 1 by ring end
           end.
    rewrite sqrt_1. lra. }
  assert (A2 : area_of (_vertices shifted_mesh) (mkface 1 4 2 1) = 1 / 2).
  { unfold area_of. rewrite (proj2 (is_tri_true _)) by reflexivity.
    unfold tri_cross, norm, cross, vsub, pt. cbn.
    match goal with |- context [sqrt ?e] => replace e with 1 by ring end.
    rewrite sqrt_1. lra. }
  unfold kept_faces. cbn [_faces shifted_mesh Mesh_init map].
  rewrite A0, A1, A2. unfold lt_mask, sum_R. cbn.
  destruct (Rlt_dec 0 _) as [_|H]; [|lra].
  destruct (Rlt_dec 1 _) as [H|_]; [lra|].
  destruct (Rlt_dec (1 / 2) _) as [H|_]; [lra|].
  reflexivity.
Qed.

Lemma triangulate_quadrangles_follows_stale_classification_witness :
  exists m1 F' m2,
    remove_degenerated_faces (1 / 100000) shifted_mesh = (Ok tt, m1)
    /\ _faces m1 = [mkface 0 1 2 3; mkface 1 4 2 1]
    /\ triangulate_quadrangles m1 = (Ok F', m2)
    /\ F' = [mkface 0 1 2 3; mkface 1 2 1 1; mkface 1 4 2 1]
    /\ ~ Forall (fun f => f0 f = f3 f) F'.
Proof.
  destruct (remove_degenerated_faces_spec (1 / 100000) shifted_mesh)
    as (m1 & Hrun & HF & Ht & Hq).
  { lra. }
  { exact I. }
  { repeat constructor; cbn; lia. }
  { reflexivity. }
  rewrite shifted_kept in HF.
  destruct (triangulate_quadrangles_follows_stale_classification m1
              (VIds (tri_ids_of (_faces shifted_mesh))) [1%nat])
    as (F' & m2 & Htri & _ & _ & Hlen & Hkeep & Hsplit & Hquad).
  { exact Ht. }
  { exact Hq. }
  { apply NoDup_singleton. }
  { rewrite HF. repeat constructor. }
  exists m1, F', m2. split; [exact Hrun|]. split; [exact HF|].
  split; [exact Htri|].
  rewrite HF in Hlen, Hkeep, Hsplit, Hquad.
  assert (H0 : F' !! 0%nat = Some (mkface 0 1 2 3)).
  { apply Hkeep; [reflexivity|]. intros Hin. apply list_elem_of_singleton in Hin.
    discriminate. }
  destruct (Hsplit 0%nat 1%nat (mkface 1 4 2 1) eq_refl eq_refl) as [H1 H2].
  cbn in Hlen, H1, H2. split.
  - destruct F' as [|a [|b [|c [|d F']]]]; try discriminate.
    cbn in H0, H1, H2. congruence.
  - apply Hquad. exists 0%nat, (mkface 0 1 2 3). split; [reflexivity|].
    split; [|cbn; lia]. intros Hin. apply list_elem_of_singleton in Hin.
    discriminate.
Defined.
